(** * A shallow embedding of [advanced-vector/vector.h]

    The header defines two class templates: [RawMemory<T>], the owner of
    one raw allocation, and [Vector<T>], a growable array built on it.

    The embedding keeps the structure of the source.

    - The element type [T] and the traits the code branches on
      ([is_nothrow_move_constructible], [is_copy_constructible]) are a
      type class, [Elem].  Every special member of [T] may throw, which
      is the result [None].  A type without move members is copied
      where the source writes a move, and those copies are counted.
    - The arguments of [PushBack], [EmplaceBack], [Emplace] and
      [Insert] say whether they refer to an object of the free store:
      an rvalue that does, such as [std::move(v[0])], leaves that
      object moved-from.
    - The free store is explicit: operator new creates a block of raw
      slots, placement new makes an object live in a slot, a destructor
      call makes the slot raw again, operator delete releases a block.
      Pointers are a block and a signed slot offset.
    - Methods run in a state-and-failure monad whose results are normal
      return, a C++ exception in flight, or undefined behaviour.
    - [size_t] values are element counts of allocations that exist, so
      their arithmetic is exact in [Z]; a count that the source would
      obtain by unsigned wrap-around of a negative difference is treated
      as undefined behaviour (the loop would run off the buffer).  [int]
      is 32 bits wide and the narrowing [int position = pos - begin()]
      is written out with its wrap-around.
    - operator new hands out the number of slots it is asked for and
      does not fail.  The byte count [n * sizeof(T)] of [Allocate] is
      taken as exact: where the caller chooses [n], the theorems
      assume that the product fits in [size_t] ([fits_size_t]).
    - A failed assertion is treated like undefined behaviour: the run
      has no result. *)

From Stdlib Require Import ZArith List Lia Bool.
Import ListNotations.
Local Open Scope Z_scope.

(** ** The element type *)

(** The operations of [T] the container uses.  A result [None] is a
    throwing call.  A move returns the new object together with the
    state the source is left in.  [move_construct] and [move_assign]
    are what overload resolution selects for an rvalue operand: for a
    type that declares no move constructor (no move assignment) that
    is its copy constructor (copy assignment), and
    [has_move_constructor] ([has_move_assignment]) is [false].
    A default constructor takes no argument, but it may consult the
    state of the program (a count of live objects, say): [value_init k]
    is the outcome of [T()] for the object number [k], from 0, of the
    batch that one call of [uninitialized_value_construct_n] builds.
    [sizeof_T] is [sizeof(T)]. *)
Class Elem (T : Type) : Type := {
  value_init : Z -> option T;                 (* T()                    *)
  copy_construct : T -> option T;             (* T(const T&)            *)
  move_construct : T -> option (T * T);       (* T(T&&)                 *)
  copy_assign : T -> T -> option T;           (* dst = src              *)
  move_assign : T -> T -> option (T * T);     (* dst = std::move(src)   *)
  is_nothrow_move_constructible : bool;
  is_copy_constructible : bool;
  has_move_constructor : bool;
  has_move_assignment : bool;
  sizeof_T : Z
}.

(** An element type with value semantics: no special member throws, and
    copies and moves carry the value over exactly. *)
Class ValueSemantics (T : Type) `{Elem T} : Prop := {
  vs_init : exists d, forall k, value_init k = Some d;
  vs_copy : forall x, copy_construct x = Some x;
  vs_move : forall x, exists x', move_construct x = Some (x, x');
  vs_copy_assign : forall d x, copy_assign d x = Some x;
  vs_move_assign : forall d x, exists x', move_assign d x = Some (x, x')
}.

(** ** Machine integers *)

(** Conversion to a 32-bit [int], modulo 2^32. *)
Definition to_int (z : Z) : Z := (z + 2 ^ 31) mod 2 ^ 32 - 2 ^ 31.

Definition INT_MAX : Z := 2 ^ 31 - 1.

(** [size_t] is 64 bits wide. *)
Definition SIZE_MAX : Z := 2 ^ 64 - 1.

(** ** Pointers and the free store *)

Inductive ptr : Type :=
| Null
| Ptr (b : Z) (off : Z).

Definition ptr_add (p : ptr) (k : Z) : ptr :=
  match p with
  | Null => Null
  | Ptr b o => Ptr b (o + k)
  end.

Definition ptr_eqb (p q : ptr) : bool :=
  match p, q with
  | Null, Null => true
  | Ptr b o, Ptr b' o' => (b =? b') && (o =? o')
  | _, _ => false
  end.

(** [p - q]; only defined inside one array. *)
Definition ptr_diff (p q : ptr) : option Z :=
  match p, q with
  | Null, Null => Some 0
  | Ptr b o, Ptr b' o' => if b =? b' then Some (o - o') else None
  | _, _ => None
  end.

Section Memory.

Context {T : Type} `{ET : Elem T}.

(** [blocks b] is the number of slots of the live allocation [b];
    [cells b i] is the object living in slot [i] of block [b], [None]
    for raw memory.  Releasing a block does not touch [cells]: an
    object still recorded in a released block never had its destructor
    run.  [n_copies] counts the calls of the copy constructor and of
    the copy assignment of [T], whether the source spells them as a
    copy or as a move of a type without move members. *)
Record World : Type := mkWorld {
  blocks : Z -> option Z;
  cells : Z -> Z -> option T;
  next_block : Z;
  n_copies : Z
}.

(** ** Results and the monad *)

Inductive Res (S A : Type) : Type :=
| Ok (a : A) (s : S)      (* normal return           *)
| Throw (s : S)           (* an exception propagates *)
| Undef.                  (* undefined behaviour     *)

Arguments Ok {S A} a s.
Arguments Throw {S A} s.
Arguments Undef {S A}.

Definition M (S A : Type) : Type := S -> Res S A.

Definition ret {S A} (a : A) : M S A := fun s => Ok a s.

Definition bind {S A B} (m : M S A) (k : A -> M S B) : M S B :=
  fun s => match m s with
           | Ok a s' => k a s'
           | Throw s' => Throw s'
           | Undef => Undef
           end.

Definition throw {S A} : M S A := fun s => Throw s.

Definition undef {S A} : M S A := fun _ => Undef.

(** [try { m } catch (...) { h; throw; }] *)
Definition on_throw {S A} (m : M S A) (h : M S unit) : M S A :=
  fun s => match m s with
           | Throw s' => bind h (fun _ => throw) s'
           | r => r
           end.

(** A computation on the free store, run inside a method. *)
Definition lift {V A} (m : M World A) : M (V * World) A :=
  fun s => match m (snd s) with
           | Ok a w => Ok a (fst s, w)
           | Throw w => Throw (fst s, w)
           | Undef => Undef
           end.

End Memory.

Arguments Ok {S A} a s.
Arguments Throw {S A} s.
Arguments Undef {S A}.
Arguments World T : clear implicits.

Declare Scope monad_scope.
Delimit Scope monad_scope with monad.
Notation "x <- m ;; k" := (bind m (fun x => k))
  (at level 61, m at next level, right associativity) : monad_scope.
Notation "m ;; k" := (bind m (fun _ => k))
  (at level 61, right associativity) : monad_scope.
Local Open Scope monad_scope.

(** ** Primitives of the free store *)

Section Store.

Context {T : Type} `{ET : Elem T}.

Definition upd {A} (f : Z -> A) (k : Z) (a : A) : Z -> A :=
  fun k' => if k' =? k then a else f k'.

Definition upd2 {A} (f : Z -> Z -> A) (b i : Z) (a : A) : Z -> Z -> A :=
  fun b' i' => if (b' =? b) && (i' =? i) then a else f b' i'.

(** Slot [i] of block [b] lies inside a live allocation. *)
Definition in_bounds (w : World T) (b i : Z) : bool :=
  match blocks w b with
  | Some n => (0 <=? i) && (i <? n)
  | None => false
  end.

(** [operator new] for [n] slots: a fresh block of raw memory. *)
Definition operator_new (n : Z) : M (World T) ptr :=
  fun w =>
    let b := next_block w in
    Ok (Ptr b 0)
       {| blocks := upd (blocks w) b (Some n);
          cells := fun b' i => if b' =? b then None else cells w b' i;
          next_block := b + 1;
          n_copies := n_copies w |}.

(** [operator delete]: a no-op on the null pointer, defined only on a
    pointer that operator new returned and that is still allocated. *)
Definition operator_delete (p : ptr) : M (World T) unit :=
  fun w =>
    match p with
    | Null => Ok tt w
    | Ptr b o =>
        match blocks w b with
        | Some _ =>
            if o =? 0
            then Ok tt {| blocks := upd (blocks w) b None;
                          cells := cells w;
                          next_block := next_block w;
                          n_copies := n_copies w |}
            else Undef
        | None => Undef
        end
    end.

(** Reading the object at [p]. *)
Definition load (p : ptr) : M (World T) T :=
  fun w =>
    match p with
    | Null => Undef
    | Ptr b i =>
        if in_bounds w b i
        then match cells w b i with
             | Some x => Ok x w
             | None => Undef
             end
        else Undef
    end.

(** Making [x] the object at [p]: the end of a placement new, or of an
    assignment. *)
Definition store (p : ptr) (x : T) : M (World T) unit :=
  fun w =>
    match p with
    | Null => Undef
    | Ptr b i =>
        if in_bounds w b i
        then Ok tt {| blocks := blocks w;
                      cells := upd2 (cells w) b i (Some x);
                      next_block := next_block w;
                      n_copies := n_copies w |}
        else Undef
    end.

(** [std::destroy_at(p)]: the destructor of the object at [p]. *)
Definition destroy_at (p : ptr) : M (World T) unit :=
  fun w =>
    match p with
    | Null => Undef
    | Ptr b i =>
        if in_bounds w b i
        then match cells w b i with
             | Some _ =>
                 Ok tt {| blocks := blocks w;
                          cells := upd2 (cells w) b i None;
                          next_block := next_block w;
                          n_copies := n_copies w |}
             | None => Undef
             end
        else Undef
    end.

Definition count_copy : M (World T) unit :=
  fun w => Ok tt {| blocks := blocks w;
                    cells := cells w;
                    next_block := next_block w;
                    n_copies := n_copies w + 1 |}.

(** A construction from an rvalue is a copy when [T] has no move
    constructor, and an assignment from an rvalue is a copy when [T]
    has no move assignment. *)
Definition count_move_construct : M (World T) unit :=
  if has_move_constructor then ret tt else count_copy.

Definition count_move_assign : M (World T) unit :=
  if has_move_assignment then ret tt else count_copy.

(** The outcome of a call of one of [T]'s special members. *)
Definition call {A} (r : option A) : M (World T) A :=
  match r with
  | Some a => ret a
  | None => throw
  end.

(** The storage a placement new is given: it must be a slot of a live
    allocation before the constructor runs. *)
Definition storage (p : ptr) : M (World T) unit :=
  fun w =>
    match p with
    | Null => Undef
    | Ptr b i => if in_bounds w b i then Ok tt w else Undef
    end.

(** [new (dst) T( *src)] *)
Definition construct_copy (dst src : ptr) : M (World T) unit :=
  storage dst ;;
  x <- load src ;;
  y <- call (copy_construct x) ;;
  count_copy ;;
  store dst y.

(** [new (dst) T(std::move( *src))] *)
Definition construct_move (dst src : ptr) : M (World T) unit :=
  storage dst ;;
  x <- load src ;;
  r <- call (move_construct x) ;;
  count_move_construct ;;
  store src (snd r) ;;
  store dst (fst r).

(** [new (dst) T()], for the object number [k] of a batch. *)
Definition construct_value (dst : ptr) (k : Z) : M (World T) unit :=
  storage dst ;;
  x <- call (value_init k) ;;
  store dst x.

(** [*dst = *src] *)
Definition assign_copy (dst src : ptr) : M (World T) unit :=
  x <- load src ;;
  d <- load dst ;;
  d' <- call (copy_assign d x) ;;
  count_copy ;;
  store dst d'.

(** [*dst = std::move( *src)] *)
Definition assign_move (dst src : ptr) : M (World T) unit :=
  x <- load src ;;
  d <- load dst ;;
  r <- call (move_assign d x) ;;
  count_move_assign ;;
  store src (snd r) ;;
  store dst (fst r).

(** ** The standard algorithms the header uses *)

(** A [size_t] count: a negative value here is what the source would
    see as a huge count after wrap-around. *)
Definition count (n : Z) : M (World T) nat :=
  if n <? 0 then undef else ret (Z.to_nat n).

Fixpoint destroy_loop (p : ptr) (i : Z) (n : nat) : M (World T) unit :=
  match n with
  | O => ret tt
  | S k => destroy_at (ptr_add p i) ;; destroy_loop p (i + 1) k
  end.

(** [std::destroy_n(p, n)] *)
Definition destroy_n (p : ptr) (n : Z) : M (World T) unit :=
  k <- count n ;; destroy_loop p 0 k.

(** The loop of the [uninitialized_*_n] algorithms: [step i] builds the
    object at index [i]; if it throws, the objects built so far,
    [dst[0..i)], are destroyed and the exception is rethrown. *)
Fixpoint uninit_loop (step : Z -> M (World T) unit) (dst : ptr)
         (i : Z) (n : nat) : M (World T) unit :=
  match n with
  | O => ret tt
  | S k =>
      on_throw (step i) (destroy_n dst i) ;;
      uninit_loop step dst (i + 1) k
  end.

(** [std::uninitialized_copy_n(src, n, dst)] *)
Definition uninitialized_copy_n (src : ptr) (n : Z) (dst : ptr)
  : M (World T) unit :=
  k <- count n ;;
  uninit_loop (fun i => construct_copy (ptr_add dst i) (ptr_add src i))
              dst 0 k.

(** [std::uninitialized_move_n(src, n, dst)] *)
Definition uninitialized_move_n (src : ptr) (n : Z) (dst : ptr)
  : M (World T) unit :=
  k <- count n ;;
  uninit_loop (fun i => construct_move (ptr_add dst i) (ptr_add src i))
              dst 0 k.

(** [std::uninitialized_value_construct_n(dst, n)] *)
Definition uninitialized_value_construct_n (dst : ptr) (n : Z)
  : M (World T) unit :=
  k <- count n ;;
  uninit_loop (fun i => construct_value (ptr_add dst i) i) dst 0 k.

(** A forward loop: [op (d + i) (s + i)] for [i] upwards. *)
Fixpoint forward_loop (op : ptr -> ptr -> M (World T) unit)
         (s d : ptr) (i : Z) (n : nat) : M (World T) unit :=
  match n with
  | O => ret tt
  | S k => op (ptr_add d i) (ptr_add s i) ;; forward_loop op s d (i + 1) k
  end.

(** [std::copy(first, last, d_first)] *)
Definition std_copy (first last d_first : ptr) : M (World T) unit :=
  match ptr_diff last first with
  | Some n => k <- count n ;; forward_loop assign_copy first d_first 0 k
  | None => undef
  end.

(** [std::move(first, last, d_first)] *)
Definition std_move (first last d_first : ptr) : M (World T) unit :=
  match ptr_diff last first with
  | Some n => k <- count n ;; forward_loop assign_move first d_first 0 k
  | None => undef
  end.

(** A backward loop: the [j]-th step is
    [*(d_last - j) = std::move( *(last - j))]. *)
Fixpoint backward_loop (last d_last : ptr) (j : Z) (n : nat)
  : M (World T) unit :=
  match n with
  | O => ret tt
  | S k =>
      assign_move (ptr_add d_last (- j)) (ptr_add last (- j)) ;;
      backward_loop last d_last (j + 1) k
  end.

(** [std::move_backward(first, last, d_last)] *)
Definition std_move_backward (first last d_last : ptr) : M (World T) unit :=
  match ptr_diff last first with
  | Some n => k <- count n ;; backward_loop last d_last 1 k
  | None => undef
  end.

End Store.

(** ** [RawMemory<T>] *)

Record RawMemory : Type := mkRawMemory {
  buffer_ : ptr;
  capacity_ : Z
}.

(** ** [Vector<T>] *)

Record Vector : Type := mkVector {
  data_ : RawMemory;
  size_ : Z
}.

Section Classes.

Context {T : Type} `{ET : Elem T}.

Local Abbreviation W := (World T).

(** The argument that [Allocate(n)] passes to operator new:
    [n * sizeof(T)], computed in [size_t]. *)
Definition allocation_bytes (n : Z) : Z := (n * sizeof_T) mod 2 ^ 64.

(** [n * sizeof(T)] is computed without wrap-around, so that the block
    operator new returns has room for [n] objects.  ([sizeof(T)] is at
    least 1 for every C++ type.) *)
Definition fits_size_t (n : Z) : Prop :=
  1 <= sizeof_T /\ n * sizeof_T <= SIZE_MAX.

(** [RawMemory::Allocate].  The block has [n] slots, which is what the
    source obtains whenever [fits_size_t n].  For a larger [n] the
    source asks for [allocation_bytes n] bytes only, too few for [n]
    objects; that case is left out here, and every theorem in which
    the caller chooses [n] ([Reserve], [Resize], the sized
    constructor) assumes [fits_size_t n]. *)
Definition Allocate (n : Z) : M W ptr :=
  if negb (n =? 0) then operator_new n else ret Null.

(** [RawMemory::Deallocate] *)
Definition Deallocate (buf : ptr) : M W unit := operator_delete buf.

(** [RawMemory()] *)
Definition RawMemory_default : RawMemory :=
  {| buffer_ := Null; capacity_ := 0 |}.

(** [RawMemory(size_t capacity)] *)
Definition RawMemory_new (capacity : Z) : M W RawMemory :=
  buf <- Allocate capacity ;;
  ret {| buffer_ := buf; capacity_ := capacity |}.

(** [~RawMemory()] *)
Definition RawMemory_dtor (r : RawMemory) : M W unit :=
  Deallocate (buffer_ r).

(** [RawMemory(RawMemory&& other)]: the new object and what is left of
    [other]. *)
Definition RawMemory_move (other : RawMemory) : RawMemory * RawMemory :=
  ({| buffer_ := buffer_ other; capacity_ := capacity_ other |},
   {| buffer_ := Null; capacity_ := 0 |}).

(** [RawMemory::operator=(RawMemory&&)]: the two objects afterwards.
    [self] says that [rhs] is the object itself.  The buffer the object
    held is not released. *)
Definition RawMemory_move_assign (self : bool) (r rhs : RawMemory)
  : RawMemory * RawMemory :=
  if self then (r, r)
  else ({| buffer_ := buffer_ rhs; capacity_ := capacity_ rhs |},
        {| buffer_ := Null; capacity_ := 0 |}).

(** [RawMemory::operator+], with its assertion: the address one past
    the last slot is allowed. *)
Definition RawMemory_plus (r : RawMemory) (offset : Z) : M W ptr :=
  if offset <=? capacity_ r then ret (ptr_add (buffer_ r) offset)
  else undef.

(** [RawMemory::Swap]: the two objects after the exchange. *)
Definition RawMemory_Swap (r other : RawMemory) : RawMemory * RawMemory :=
  ({| buffer_ := buffer_ other; capacity_ := capacity_ other |},
   {| buffer_ := buffer_ r; capacity_ := capacity_ r |}).

Definition GetAddress (r : RawMemory) : ptr := buffer_ r.

(** [RawMemory::operator[]], with its assertion. *)
Definition RawMemory_index (r : RawMemory) (index : Z) : M W ptr :=
  if index <? capacity_ r then ret (ptr_add (buffer_ r) index) else undef.

Definition begin (v : Vector) : ptr := GetAddress (data_ v).

Definition end_ (v : Vector) : ptr := ptr_add (GetAddress (data_ v)) (size_ v).

Definition Size (v : Vector) : Z := size_ v.

Definition Capacity (v : Vector) : Z := capacity_ (data_ v).

(** The state of a method call: the object and the free store. *)
Local Abbreviation Method := (M (Vector * W)).

Definition this : Method Vector := fun s => Ok (fst s) s.

Definition set_this (v : Vector) : Method unit :=
  fun s => Ok tt (v, snd s).

(** [Vector()] *)
Definition Vector_default : Vector :=
  {| data_ := RawMemory_default; size_ := 0 |}.

(** [Vector(size_t size)].  When the construction of the elements
    throws, the member [data_] is destroyed. *)
Definition Vector_sized (size : Z) : M W Vector :=
  data <- RawMemory_new size ;;
  on_throw (uninitialized_value_construct_n (GetAddress data) size)
           (RawMemory_dtor data) ;;
  ret {| data_ := data; size_ := size |}.

(** [Vector(const Vector& other)] *)
Definition Vector_copy (other : Vector) : M W Vector :=
  data <- RawMemory_new (size_ other) ;;
  on_throw (uninitialized_copy_n (GetAddress (data_ other)) (size_ other)
                                 (GetAddress data))
           (RawMemory_dtor data) ;;
  ret {| data_ := data; size_ := size_ other |}.

(** [Vector(Vector&& other)]: the new vector and what is left of
    [other]. *)
Definition Vector_move (other : Vector) : M W (Vector * Vector) :=
  let (d, od) := RawMemory_move (data_ other) in
  ret ({| data_ := d; size_ := size_ other |},
       {| data_ := od; size_ := 0 |}).

(** [~Vector()] *)
Definition Vector_dtor (v : Vector) : M W unit :=
  destroy_n (GetAddress (data_ v)) (size_ v) ;;
  RawMemory_dtor (data_ v).

(** The transfer of [n] elements into a new buffer: the branch of
    [if constexpr] taken for [T]. *)
Definition transfer (src : ptr) (n : Z) (dst : ptr) : M W unit :=
  if is_nothrow_move_constructible || negb is_copy_constructible
  then uninitialized_move_n src n dst
  else uninitialized_copy_n src n dst.

(** [Vector::Reserve].  [new_data] is a local: it is destroyed when the
    function is left, by return or by exception. *)
Definition Reserve (new_capacity : Z) : Method unit :=
  v <- this ;;
  if new_capacity <=? Capacity v then ret tt
  else
    new_data <- lift (RawMemory_new new_capacity) ;;
    on_throw
      (lift (transfer (GetAddress (data_ v)) (size_ v)
                      (GetAddress new_data)) ;;
       lift (destroy_n (GetAddress (data_ v)) (size_ v)))
      (lift (RawMemory_dtor new_data)) ;;
    let (d, nd) := RawMemory_Swap (data_ v) new_data in
    set_this {| data_ := d; size_ := size_ v |} ;;
    lift (RawMemory_dtor nd).

(** [Vector::Swap]: the two vectors after the exchange. *)
Definition Swap (v other : Vector) : Vector * Vector :=
  let (d, od) := RawMemory_Swap (data_ v) (data_ other) in
  ({| data_ := d; size_ := size_ other |},
   {| data_ := od; size_ := size_ v |}).

(** [Vector::Resize] *)
Definition Resize (new_size : Z) : Method unit :=
  v <- this ;;
  (if new_size <? size_ v
   then lift (destroy_n (ptr_add (GetAddress (data_ v)) new_size)
                        (size_ v - new_size))
   else
     Reserve new_size ;;
     v' <- this ;;
     lift (uninitialized_value_construct_n
             (ptr_add (GetAddress (data_ v')) (size_ v'))
             (new_size - size_ v'))) ;;
  v'' <- this ;;
  set_this {| data_ := data_ v''; size_ := new_size |}.

(** [Vector::PopBack] *)
Definition PopBack : Method unit :=
  v <- this ;;
  lift (destroy_at (ptr_add (ptr_add (GetAddress (data_ v)) (size_ v)) (-1))) ;;
  set_this {| data_ := data_ v; size_ := size_ v - 1 |}.

(** [Vector::Erase] *)
Definition Erase (pos : ptr) : Method ptr :=
  v <- this ;;
  match ptr_diff pos (begin v) with
  | None => undef
  | Some d =>
      let position := to_int d in
      lift (std_move (ptr_add (ptr_add (begin v) position) 1) (end_ v)
                     (ptr_add (begin v) position)) ;;
      lift (destroy_at (ptr_add (end_ v) (-1))) ;;
      set_this {| data_ := data_ v; size_ := size_ v - 1 |} ;;
      v' <- this ;;
      ret (ptr_add (begin v') position)
  end.

(** [Vector::operator[]], with its assertion. *)
Definition Vector_index (index : Z) : Method ptr :=
  v <- this ;;
  if index <? size_ v then lift (RawMemory_index (data_ v) index)
  else undef.

(** The arguments a new element is constructed from.
    [CopyOf x] is a [const T&] to an object of value [x]; the object is
    only read, so it may be an element of the vector itself: every path
    below constructs the new element from its arguments before it
    touches an element of the vector, and reads the value the element
    has when the call is made.
    [MoveOf x] is a [T&&] to an object of value [x] that does not live
    in the free store (a temporary or a local variable of the caller):
    the state the move leaves it in is of no concern here.
    [MoveFrom p] is a [T&&] to the object at [p] in the free store, as
    in [v.PushBack(std::move(v[0]))]: the move constructor leaves that
    object in its moved-from state.
    [Make r] is any other argument list, whose constructor call has the
    outcome [r] and touches no object of the free store. *)
Inductive Arg : Type :=
| CopyOf (x : T)
| MoveOf (x : T)
| MoveFrom (p : ptr)
| Make (r : option T).

(** The constructor call [T(args...)]. *)
Definition construct_arg (a : Arg) : M W T :=
  match a with
  | CopyOf x => y <- call (copy_construct x) ;; count_copy ;; ret y
  | MoveOf x =>
      r <- call (move_construct x) ;; count_move_construct ;; ret (fst r)
  | MoveFrom p =>
      x <- load p ;;
      r <- call (move_construct x) ;;
      count_move_construct ;;
      store p (snd r) ;;
      ret (fst r)
  | Make r => call r
  end.

(** [new (dst) T(args...)] *)
Definition construct_from (dst : ptr) (a : Arg) : M W unit :=
  storage dst ;;
  x <- construct_arg a ;;
  store dst x.

(** [*dst = std::move(x)] for a local object [x]. *)
Definition assign_move_local (dst : ptr) (x : T) : M W unit :=
  d <- load dst ;;
  r <- call (move_assign d x) ;;
  count_move_assign ;;
  store dst (fst r).

(** [Vector::PushBack] *)
Definition PushBack (value : Arg) : Method unit :=
  v <- this ;;
  (if Capacity v <=? size_ v
   then
     new_data <- lift (RawMemory_new (if size_ v =? 0 then 1 else size_ v * 2)) ;;
     on_throw
       (lift (construct_from (ptr_add (GetAddress new_data) (size_ v)) value) ;;
        lift (transfer (GetAddress (data_ v)) (size_ v)
                       (GetAddress new_data)) ;;
        lift (destroy_n (GetAddress (data_ v)) (size_ v)))
       (lift (RawMemory_dtor new_data)) ;;
     let (d, nd) := RawMemory_Swap (data_ v) new_data in
     set_this {| data_ := d; size_ := size_ v |} ;;
     lift (RawMemory_dtor nd)
   else
     lift (construct_from (ptr_add (GetAddress (data_ v)) (size_ v)) value)) ;;
  v' <- this ;;
  set_this {| data_ := data_ v'; size_ := size_ v' + 1 |}.

(** [Vector::EmplaceBack]; the result is the address of the new
    element. *)
Definition EmplaceBack (args : Arg) : Method ptr :=
  v <- this ;;
  (if Capacity v <=? size_ v
   then
     new_data <- lift (RawMemory_new (if size_ v =? 0 then 1 else size_ v * 2)) ;;
     on_throw
       (lift (construct_from (ptr_add (GetAddress new_data) (size_ v)) args) ;;
        lift (transfer (GetAddress (data_ v)) (size_ v)
                       (GetAddress new_data)) ;;
        lift (destroy_n (GetAddress (data_ v)) (size_ v)))
       (lift (RawMemory_dtor new_data)) ;;
     let (d, nd) := RawMemory_Swap (data_ v) new_data in
     set_this {| data_ := d; size_ := size_ v |} ;;
     lift (RawMemory_dtor nd)
   else
     lift (construct_from (ptr_add (GetAddress (data_ v)) (size_ v)) args)) ;;
  v' <- this ;;
  set_this {| data_ := data_ v'; size_ := size_ v' + 1 |} ;;
  lift (RawMemory_index (data_ v') (size_ v')).

(** [Vector::Emplace] *)
Definition Emplace (pos : ptr) (args : Arg) : Method ptr :=
  v <- this ;;
  match ptr_diff pos (begin v) with
  | None => undef
  | Some d =>
      let position := to_int d in
      (if Capacity v <=? size_ v
       then
         new_data <- lift (RawMemory_new (if size_ v =? 0 then 1
                                          else size_ v * 2)) ;;
         on_throw
           (lift (construct_from (ptr_add (GetAddress new_data) position)
                                 args) ;;
            lift (transfer (GetAddress (data_ v)) position
                           (GetAddress new_data)) ;;
            lift (transfer (ptr_add (GetAddress (data_ v)) position)
                           (size_ v - position)
                           (ptr_add (ptr_add (GetAddress new_data) position)
                                    1)) ;;
            lift (destroy_n (GetAddress (data_ v)) (size_ v)))
           (lift (RawMemory_dtor new_data)) ;;
         let (d', nd) := RawMemory_Swap (data_ v) new_data in
         set_this {| data_ := d'; size_ := size_ v |} ;;
         lift (RawMemory_dtor nd)
       else
         on_throw
           (if negb (ptr_eqb pos (end_ v))
            then
              new_s <- lift (construct_arg args) ;;
              last <- lift (RawMemory_index (data_ v) (size_ v - 1)) ;;
              lift (construct_move (end_ v) last) ;;
              lift (std_move_backward (ptr_add (begin v) position)
                                      (ptr_add (end_ v) (-1)) (end_ v)) ;;
              lift (assign_move_local (ptr_add (begin v) position) new_s)
            else
              lift (construct_from (end_ v) args))
           (lift (operator_delete (end_ v)))) ;;
      v' <- this ;;
      set_this {| data_ := data_ v'; size_ := size_ v' + 1 |} ;;
      ret (ptr_add (begin v') position)
  end.

(** [Vector::Insert], both overloads. *)
Definition Insert (pos : ptr) (value : Arg) : Method ptr :=
  Emplace pos value.

(** The right-hand side of a copy assignment: the object itself, or
    another vector. *)
Inductive Operand : Type :=
| Self
| Other (rhs : Vector).

(** [Vector::operator=(const Vector&)] *)
Definition copy_assignment (rhs : Operand) : Method unit :=
  match rhs with
  | Self => ret tt
  | Other rhs =>
      v <- this ;;
      if Capacity v <? size_ rhs
      then
        rhs_copy <- lift (Vector_copy rhs) ;;
        let (v', rhs_copy') := Swap v rhs_copy in
        set_this v' ;;
        lift (Vector_dtor rhs_copy')
      else
        (if size_ v <=? size_ rhs
         then
           lift (std_copy (GetAddress (data_ rhs))
                          (ptr_add (GetAddress (data_ rhs)) (size_ v))
                          (GetAddress (data_ v))) ;;
           lift (uninitialized_copy_n
                   (ptr_add (GetAddress (data_ rhs)) (size_ v))
                   (size_ rhs - size_ v)
                   (ptr_add (GetAddress (data_ v)) (size_ v)))
         else
           lift (std_copy (GetAddress (data_ rhs))
                          (ptr_add (GetAddress (data_ rhs)) (size_ rhs))
                          (GetAddress (data_ v))) ;;
           lift (destroy_n (ptr_add (GetAddress (data_ v)) (size_ rhs))
                           (size_ v - size_ rhs))) ;;
        set_this {| data_ := data_ v; size_ := size_ rhs |}
  end.

(** [Vector::operator=(Vector&&)]: the two vectors afterwards. *)
Definition move_assignment (v rhs : Vector) : M W (Vector * Vector) :=
  ret (Swap v rhs).

End Classes.

Arguments Arg T : clear implicits.

(** ** Observations *)

Section Observations.

Context {T : Type}.

(** What slot [i] of the vector's buffer holds. *)
Definition slot (v : Vector) (w : World T) (i : Z) : option T :=
  match buffer_ (data_ v) with
  | Null => None
  | Ptr b o => cells w b (o + i)
  end.

(** The slots [0 .. size) of the vector, in order. *)
Definition elements (v : Vector) (w : World T) : list (option T) :=
  map (fun i => slot v w (Z.of_nat i)) (seq 0 (Z.to_nat (size_ v))).

(** A free store with no allocation. *)
Definition empty_world : World T :=
  {| blocks := fun _ => None;
     cells := fun _ _ => None;
     next_block := 1;
     n_copies := 0 |}.

End Observations.

(** ** Element types *)

(** [int]: trivially copyable. *)
#[export] Instance int_elem : Elem Z := {|
  value_init := fun _ => Some 0;
  copy_construct x := Some x;
  move_construct x := Some (x, x);
  copy_assign _ x := Some x;
  move_assign _ x := Some (x, x);
  is_nothrow_move_constructible := true;
  is_copy_constructible := true;
  has_move_constructor := true;
  has_move_assignment := true;
  sizeof_T := 4
|}.

(** A copyable type whose copy constructor throws on the value 13 and
    whose move constructor is not [noexcept]. *)
Inductive Fragile : Type := fragile (n : Z).

#[export] Instance fragile_elem : Elem Fragile := {|
  value_init := fun _ => Some (fragile 0);
  copy_construct x :=
    match x with fragile n => if n =? 13 then None else Some x end;
  move_construct x := Some (x, fragile 0);
  copy_assign _ x :=
    match x with fragile n => if n =? 13 then None else Some x end;
  move_assign _ x := Some (x, fragile 0);
  is_nothrow_move_constructible := false;
  is_copy_constructible := true;
  has_move_constructor := true;
  has_move_assignment := true;
  sizeof_T := 4
|}.

(** A move-only type whose move constructor throws on the value 13; a
    moved-from object holds 0. *)
Inductive MoveOnly : Type := move_only (n : Z).

#[export] Instance move_only_elem : Elem MoveOnly := {|
  value_init := fun _ => Some (move_only 0);
  copy_construct _ := None;
  move_construct x :=
    match x with
    | move_only n => if n =? 13 then None else Some (x, move_only 0)
    end;
  copy_assign _ _ := None;
  move_assign _ x := Some (x, move_only 0);
  is_nothrow_move_constructible := false;
  is_copy_constructible := false;
  has_move_constructor := true;
  has_move_assignment := true;
  sizeof_T := 4
|}.

(** ** The representation invariant *)

Section Invariant.

Context {T : Type}.

(** The vector [v] is well formed in the free store [w]: its length is
    within its capacity; with capacity 0 it owns no allocation;
    otherwise [buffer_] is the start of a live allocation of
    [capacity_] slots, whose slots [0 .. size_) hold objects and whose
    slots [size_ .. capacity_) are raw. *)
Definition valid (v : Vector) (w : World T) : Prop :=
  0 <= size_ v <= capacity_ (data_ v) /\
  match buffer_ (data_ v) with
  | Null => capacity_ (data_ v) = 0
  | Ptr b o =>
      o = 0 /\ 0 < capacity_ (data_ v) /\
      blocks w b = Some (capacity_ (data_ v)) /\
      (forall i, 0 <= i < size_ v -> cells w b i <> None) /\
      (forall i, size_ v <= i < capacity_ (data_ v) -> cells w b i = None)
  end.

(** Every live allocation was handed out by operator new. *)
Definition wf_world (w : World T) : Prop :=
  forall b, blocks w b <> None -> b < next_block w.

Definition is_some {A} (o : option A) : bool :=
  match o with Some _ => true | None => false end.

Definition range (lo hi : Z) : list Z :=
  map (fun k => lo + Z.of_nat k) (seq 0 (Z.to_nat (hi - lo))).

(** [valid], decided by running over the slots. *)
Definition validb (v : Vector) (w : World T) : bool :=
  (0 <=? size_ v) && (size_ v <=? capacity_ (data_ v)) &&
  match buffer_ (data_ v) with
  | Null => capacity_ (data_ v) =? 0
  | Ptr b o =>
      (o =? 0) && (0 <? capacity_ (data_ v)) &&
      match blocks w b with
      | Some n => n =? capacity_ (data_ v)
      | None => false
      end &&
      forallb (fun i => is_some (cells w b i)) (range 0 (size_ v)) &&
      forallb (fun i => negb (is_some (cells w b i)))
              (range (size_ v) (capacity_ (data_ v)))
  end.

End Invariant.

(** ** What a method does to the fields of the object

    [post m s Q E]: when [m] returns from state [s], [Q] holds of its
    result and of the object's fields; when it throws, [E] holds of the
    fields.  Nothing is asked of an undefined run. *)

Section FieldsDef.

Context {T : Type} `{ET : Elem T}.

Local Abbreviation W := (World T).
Local Abbreviation Method := (M (Vector * W)).

Definition post {A} (m : Method A) (s : Vector * W)
           (Q : A -> Vector -> Prop) (E : Vector -> Prop) : Prop :=
  match m s with
  | Ok a s' => Q a (fst s')
  | Throw s' => E (fst s')
  | Undef => True
  end.

End FieldsDef.

(** ** Concrete states *)

Section Scenarios.

Context {T : Type} `{ET : Elem T}.

(** The state a method leaves behind. *)
Definition after {A} (m : M (Vector * World T) A) (s : Vector * World T)
  : Vector * World T :=
  match m s with
  | Ok _ s' => s'
  | Throw s' => s'
  | Undef => s
  end.

End Scenarios.

(** [Vector<Fragile> v; v.Reserve(4); v.PushBack(1); v.PushBack(2);] *)
Definition fragile_12 : Vector * World Fragile :=
  after (Reserve 4 ;;
         PushBack (Make (Some (fragile 1))) ;;
         PushBack (Make (Some (fragile 2))))
        (Vector_default, empty_world).

(** [Vector<int> a; a.PushBack(1);] *)
Definition int_1 : Vector * World Z :=
  after (PushBack (CopyOf 1)) (Vector_default, empty_world).

(** ... then [Vector<int> b; b.PushBack(2); b.PushBack(3);] *)
Definition int_1_then_23 : Vector * World Z :=
  after (PushBack (CopyOf 2) ;; PushBack (CopyOf 3))
        (Vector_default, snd int_1).

(** A pointer to the start of an allocation, or the null pointer. *)
Definition base_ptr (p : ptr) : Prop :=
  match p with
  | Null => True
  | Ptr _ o => o = 0
  end.

(** ** Reachable states *)

Section Reachability.

Context {T : Type} `{ET : Elem T}.

(** The invariant of the data model. *)
Definition length_within_capacity (v : Vector) : Prop :=
  0 <= size_ v <= Capacity v.

(** The mutators that act on one vector.  Their [size_t] parameters are
    not negative. *)
Inductive Op : Type :=
| OpReserve (n : Z)
| OpResize (n : Z)
| OpPushBack (a : Arg T)
| OpEmplaceBack (a : Arg T)
| OpPopBack
| OpInsert (pos : ptr) (a : Arg T)
| OpEmplace (pos : ptr) (a : Arg T)
| OpErase (pos : ptr)
| OpSelfAssign.

Definition op_args_ok (o : Op) : Prop :=
  match o with
  | OpReserve n | OpResize n => 0 <= n
  | _ => True
  end.

Definition run_op (o : Op) : M (Vector * World T) unit :=
  match o with
  | OpReserve n => Reserve n
  | OpResize n => Resize n
  | OpPushBack a => PushBack a
  | OpEmplaceBack a => EmplaceBack a ;; ret tt
  | OpPopBack => PopBack
  | OpInsert pos a => Insert pos a ;; ret tt
  | OpEmplace pos a => Emplace pos a ;; ret tt
  | OpErase pos => Erase pos ;; ret tt
  | OpSelfAssign => copy_assignment Self
  end.

(** The vector states the public operations produce, in any free store,
    whether an operation returns or throws.  A run with undefined
    behaviour produces no state. *)
Inductive reachable : Vector -> Prop :=
| reach_default : reachable Vector_default
| reach_sized n (w : World T) v w' :
    0 <= n -> Vector_sized n w = Ok v w' -> reachable v
| reach_copy other (w : World T) v w' :
    reachable other -> Vector_copy other w = Ok v w' -> reachable v
| reach_move other (w : World T) v other' w' :
    reachable other -> Vector_move other w = Ok (v, other') w' ->
    reachable v
| reach_moved_from other (w : World T) v other' w' :
    reachable other -> Vector_move other w = Ok (v, other') w' ->
    reachable other'
| reach_return o v (w : World T) v' w' :
    reachable v -> op_args_ok o -> run_op o (v, w) = Ok tt (v', w') ->
    reachable v'
| reach_throw o v (w : World T) v' w' :
    reachable v -> op_args_ok o -> run_op o (v, w) = Throw (v', w') ->
    reachable v'
| reach_copy_assign rhs v (w : World T) v' w' :
    reachable v -> reachable rhs ->
    copy_assignment (Other rhs) (v, w) = Ok tt (v', w') -> reachable v'
| reach_copy_assign_throw rhs v (w : World T) v' w' :
    reachable v -> reachable rhs ->
    copy_assignment (Other rhs) (v, w) = Throw (v', w') -> reachable v'
| reach_move_assign rhs v (w : World T) v' rhs' w' :
    reachable v -> reachable rhs ->
    move_assignment v rhs w = Ok (v', rhs') w' -> reachable v'
| reach_move_assigned_from rhs v (w : World T) v' rhs' w' :
    reachable v -> reachable rhs ->
    move_assignment v rhs w = Ok (v', rhs') w' -> reachable rhs'
| reach_swap v other :
    reachable v -> reachable other -> reachable (fst (Swap v other))
| reach_swapped v other :
    reachable v -> reachable other -> reachable (snd (Swap v other)).

(** What the proof of the invariant carries along: the buffer pointer
    is null or the start of an allocation. *)
Definition shaped (v : Vector) : Prop :=
  length_within_capacity v /\ base_ptr (buffer_ (data_ v)).

End Reachability.

(** ** Sequences of pushes *)

Section Pushes.

Context {T : Type} `{ET : Elem T}.

(** One call that appends an element. *)
Inductive Push : Type :=
| ByPushBack (value : Arg T)
| ByEmplaceBack (args : Arg T).

Definition do_push (p : Push) : M (Vector * World T) unit :=
  match p with
  | ByPushBack value => PushBack value
  | ByEmplaceBack args => EmplaceBack args ;; ret tt
  end.

(** What is observed around one call: the length and the capacity
    before it, and the capacity after it. *)
Record PushLog : Type := mkPushLog {
  length_before : Z;
  capacity_before : Z;
  capacity_after : Z
}.

(** The calls in order, with the observations of each. *)
Fixpoint pushes (ps : list Push) : M (Vector * World T) (list PushLog) :=
  match ps with
  | [] => ret []
  | p :: ps' =>
      v <- this ;;
      do_push p ;;
      v' <- this ;;
      rest <- pushes ps' ;;
      ret ({| length_before := Size v;
              capacity_before := Capacity v;
              capacity_after := Capacity v' |} :: rest)
  end.

(** The call grew the buffer when it found no spare capacity. *)
Definition grew (l : PushLog) : bool :=
  capacity_before l <=? length_before l.

(** The growth policy. *)
Definition growth_policy (l : PushLog) : Prop :=
  if grew l
  then capacity_after l = Z.max 1 (capacity_before l * 2)
  else capacity_after l = capacity_before l.

(** The arguments construct an element without throwing, and touch no
    object of the free store. *)
Definition constructs (a : Arg T) : Prop :=
  match a with
  | Make None => False
  | MoveFrom _ => False
  | _ => True
  end.

Definition push_constructs (p : Push) : Prop :=
  match p with
  | ByPushBack a | ByEmplaceBack a => constructs a
  end.

End Pushes.

(** ** Reasoning about the free store *)

Section StoreLogic.

Context {T : Type} `{ET : Elem T}.

(** The free store with slot [(b, i)] set to [o]. *)
Definition set_cell (w : World T) (b i : Z) (o : option T) : World T :=
  {| blocks := blocks w;
     cells := upd2 (cells w) b i o;
     next_block := next_block w;
     n_copies := n_copies w |}.

(** The free store with one more copy counted. *)
Definition counted (w : World T) : World T :=
  {| blocks := blocks w;
     cells := cells w;
     next_block := next_block w;
     n_copies := n_copies w + 1 |}.

(** The free store after a construction (an assignment) from an
    rvalue: counted as a copy when [T] has no move constructor (no
    move assignment). *)
Definition move_constructed (w : World T) : World T :=
  if has_move_constructor then w else counted w.

Definition move_assigned (w : World T) : World T :=
  if has_move_assignment then w else counted w.

(** [m] returns from [s], with a result and a state that satisfy [Q]. *)
Definition returns {S A} (m : M S A) (s : S) (Q : A -> S -> Prop) : Prop :=
  match m s with
  | Ok a s' => Q a s'
  | _ => False
  end.

(** [w'] has the allocations of [w], and the slots of [w] wherever
    [touched] does not hold. *)
Definition frame (touched : Z -> Z -> Prop) (w w' : World T) : Prop :=
  blocks w' = blocks w /\
  next_block w' = next_block w /\
  forall b j, ~ touched b j -> cells w' b j = cells w b j.

End StoreLogic.

(** ** Invariants of the element loops *)

Section LoopInvariants.

Context {T : Type}.

(** After [i] steps of a transfer of elements from block [sb], offset
    [so], to another block [db], offset [dst]: the first [i] slots of
    the destination hold the values the source had in [w], the first
    [i] source slots still hold objects, nothing else has changed. *)
Definition blit_inv (w : World T) (sb so db dst i : Z) (w' : World T)
  : Prop :=
  frame (fun b j => (b = db /\ dst <= j < dst + i) \/
                    (b = sb /\ so <= j < so + i)) w w' /\
  (forall j, 0 <= j < i -> cells w' db (dst + j) = cells w sb (so + j)) /\
  (forall j, so <= j < so + i -> cells w' sb j <> None).

(** After [i] steps of the forward shift of the slots [k+1 ..] of block
    [b] onto [k ..]. *)
Definition shift_down_inv (w : World T) (b k i : Z) (w' : World T) : Prop :=
  frame (fun b' j => b' = b /\ k <= j <= k + i) w w' /\
  (forall j, k <= j < k + i -> cells w' b j = cells w b (j + 1)) /\
  cells w' b (k + i) <> None.

(** After [i] steps of the backward shift that ends at slot [e] of
    block [b]: the slots [e - i .. e - 1] hold what was one slot below
    them. *)
Definition shift_up_inv (w : World T) (b e i : Z) (w' : World T) : Prop :=
  frame (fun b' j => b' = b /\ e - 1 - i <= j < e) w w' /\
  (forall j, e - i <= j < e -> cells w' b j = cells w b (j - 1)) /\
  cells w' b (e - 1 - i) <> None.

End LoopInvariants.

(** ** The relocation into a new buffer *)

Section Relocation.

Context {T : Type} `{ET : Elem T}.

(** What the growth paths do to the elements once the new buffer
    exists: the [position] elements before the insertion point are
    transferred to the front of the new buffer, the others one slot
    further, and the old elements are destroyed.  ([Reserve] and the
    pushes have [position = size] and no second transfer, which
    transfers nothing.) *)
Definition move_around (old : ptr) (size position : Z) (new : ptr)
  : M (World T) unit :=
  transfer old position new ;;
  transfer (ptr_add old position) (size - position)
           (ptr_add (ptr_add new position) 1) ;;
  destroy_n old size.

(** The elements of the new buffer [nb] in [w'] are those of the old
    buffer [b] in [w], with a gap at [position]. *)
Definition moved_around (w : World T) (b size position nb : Z)
           (w' : World T) : Prop :=
  blocks w' = blocks w /\
  next_block w' = next_block w /\
  (forall i, 0 <= i < position -> cells w' nb i = cells w b i) /\
  (forall i, position <= i < size -> cells w' nb (i + 1) = cells w b i) /\
  (forall i, ~ (0 <= i <= size) \/ i = position ->
             cells w' nb i = cells w nb i) /\
  (forall i, 0 <= i < size -> cells w' b i = None) /\
  (forall i, ~ (0 <= i < size) -> cells w' b i = cells w b i) /\
  (forall b' i, b' <> b -> b' <> nb -> cells w' b' i = cells w b' i).

End Relocation.

(** ** The growth step *)

Section GrowthStep.

Context {T : Type} `{ET : Elem T}.

(** The free store after operator new handed out [n] slots. *)
Definition allocated (w : World T) (n : Z) : World T :=
  {| blocks := upd (blocks w) (next_block w) (Some n);
     cells := fun b' i => if b' =? next_block w then None else cells w b' i;
     next_block := next_block w + 1;
     n_copies := n_copies w |}.

(** The free store after operator delete released block [b]. *)
Definition released (w : World T) (b : Z) : World T :=
  {| blocks := upd (blocks w) b None;
     cells := cells w;
     next_block := next_block w;
     n_copies := n_copies w |}.

(** The free store after the buffer of [v] was released. *)
Definition release_of (v : Vector) (w : World T) : World T :=
  match buffer_ (data_ v) with
  | Null => w
  | Ptr b _ => released w b
  end.

(** The value the arguments construct, when nothing throws and the
    arguments do not refer to the free store. *)
Definition arg_value (a : Arg T) : option T :=
  match a with
  | CopyOf x => Some x
  | MoveOf x => Some x
  | MoveFrom _ => None
  | Make r => r
  end.

(** The free store after the constructor call: a copy is counted. *)
Definition after_arg (a : Arg T) (w : World T) : World T :=
  match a with
  | CopyOf _ => counted w
  | MoveOf _ => move_constructed w
  | _ => w
  end.

(** The growth step in one piece: a new buffer of [new_capacity] slots,
    [body] run on the old and the new buffer, the exchange of the
    buffers and the release of the old one.  [Reserve], [PushBack],
    [EmplaceBack] and [Emplace] each contain it, with their own
    [body]. *)
Definition regrow (new_capacity : Z) (body : ptr -> ptr -> M (World T) unit)
  : M (Vector * World T) unit :=
  v <- this ;;
  new_data <- lift (RawMemory_new new_capacity) ;;
  on_throw (lift (body (GetAddress (data_ v)) (GetAddress new_data)))
           (lift (RawMemory_dtor new_data)) ;;
  let (d, nd) := RawMemory_Swap (data_ v) new_data in
  set_this {| data_ := d; size_ := size_ v |} ;;
  lift (RawMemory_dtor nd).

(** The body of the growth step of [Emplace]. *)
Definition relocate (size position : Z) (a : Arg T) (old new : ptr)
  : M (World T) unit :=
  construct_from (ptr_add new position) a ;;
  move_around old size position new.

End GrowthStep.

Section Relocated.

Context {T : Type}.

(** [moved_around] for the buffer of [v], which may be null. *)
Definition relocated (v : Vector) (w : World T) (position nb : Z)
           (w' : World T) : Prop :=
  match buffer_ (data_ v) with
  | Null => w' = w
  | Ptr b _ => moved_around w b (size_ v) position nb w'
  end.

(** [w1] is the free store [w] after a new buffer of [n] slots was
    allocated, with nothing in it except, possibly, in slot [p]. *)
Definition fresh_buffer (w : World T) (n p : Z) (w1 : World T) : Prop :=
  blocks w1 = blocks (allocated w n) /\
  next_block w1 = next_block w + 1 /\
  (forall b i, b <> next_block w -> cells w1 b i = cells w b i) /\
  (forall i, i <> p -> cells w1 (next_block w) i = None).

End Relocated.

(** ** Vectors with more elements than [int] can count *)

(** A free store with one block, number 1, of [cap] slots, the first
    [n] of which hold the [char] 0. *)
Definition chars_world (n cap : Z) : World Z :=
  {| blocks := upd (fun _ => None) 1 (Some cap);
     cells := fun b i =>
                if (b =? 1) && (0 <=? i) && (i <? n) then Some 0 else None;
     next_block := 2;
     n_copies := 0 |}.

(** The vector that owns that block. *)
Definition chars (n cap : Z) : Vector :=
  {| data_ := {| buffer_ := Ptr 1 0; capacity_ := cap |}; size_ := n |}.

(** Insertion followed by erasure at the position the insertion
    returned. *)
Definition insert_then_erase {T : Type} `{Elem T} (pos : ptr) (a : Arg T)
  : M (Vector * World T) ptr :=
  r <- Insert pos a ;; Erase r.

(** ** Outcomes, exceptions included *)

Section Outcomes.

Context {T : Type} `{ET : Elem T}.

(** [Q] after a normal return of [m] from [s], [E] after an exception.
    Nothing is asked of an undefined run. *)
Definition outcome {S A} (m : M S A) (s : S)
           (Q : A -> S -> Prop) (E : S -> Prop) : Prop :=
  match m s with
  | Ok a s' => Q a s'
  | Throw s' => E s'
  | Undef => True
  end.

(** [w'] differs from [w] at most in the slots of block [db] and in the
    count of copies. *)
Definition only_block (db : Z) (w w' : World T) : Prop :=
  blocks w' = blocks w /\
  next_block w' = next_block w /\
  forall b j, b <> db -> cells w' b j = cells w b j.

(** The element type is transferred by copying: the [else] branch of
    the [if constexpr]. *)
Definition transferred_by_copy : Prop :=
  is_nothrow_move_constructible || negb is_copy_constructible = false.


End Outcomes.

(** [Vector<Fragile> v; v.PushBack(1); v.EmplaceBack(13);]: full, and
    the second element cannot be copied. *)
Definition fragile_1_13 : Vector * World Fragile :=
  after (PushBack (Make (Some (fragile 1))) ;;
         PushBack (Make (Some (fragile 13))))
        (Vector_default, empty_world).


(** [Vector<Fragile> v; v.EmplaceBack(13);]: full. *)
Definition fragile_13 : Vector * World Fragile :=
  after (PushBack (Make (Some (fragile 13)))) (Vector_default, empty_world).

(** [Vector<int> v; v.PushBack(1); v.PushBack(2); v.PushBack(3);] *)
Definition int_123 : Vector * World Z :=
  after (PushBack (CopyOf 1) ;; PushBack (CopyOf 2) ;; PushBack (CopyOf 3))
        (Vector_default, empty_world).

(** ... then [Vector<int> r; r.PushBack(9);] *)
Definition int_123_then_9 : Vector * World Z :=
  after (PushBack (CopyOf 9)) (Vector_default, snd int_123).

(** [Vector<int> v(5);] *)
Definition int_sized_5 : Res (World Z) Vector :=
  Vector_sized 5 empty_world.

(** ** What a failed construction leaves behind *)

Section FailedConstruction.

Context {T : Type}.

(** The free store [w'] holds what [w] held and nothing more: the same
    live allocations, the same objects in them, and no object in the
    block that operator new would hand out next in [w]. *)
Definition nothing_kept (w w' : World T) : Prop :=
  (forall b, blocks w' b = blocks w b) /\
  (forall b j, b <> next_block w -> cells w' b j = cells w b j) /\
  (forall j, cells w' (next_block w) j = None).

End FailedConstruction.

(** A type whose default constructor throws from the third object of
    a batch on. *)
Inductive NoDefault : Type := no_default (n : Z).

#[export] Instance no_default_elem : Elem NoDefault := {|
  value_init := fun k => if k <? 2 then Some (no_default 0) else None;
  copy_construct x := Some x;
  move_construct x := Some (x, no_default 0);
  copy_assign _ x := Some x;
  move_assign _ x := Some (x, no_default 0);
  is_nothrow_move_constructible := true;
  is_copy_constructible := true;
  has_move_constructor := true;
  has_move_assignment := true;
  sizeof_T := 4
|}.

(** ... or then [Vector<int> r; r.Reserve(4); r.PushBack(9);] *)
Definition int_123_then_roomy_9 : Vector * World Z :=
  after (Reserve 4 ;; PushBack (CopyOf 9)) (Vector_default, snd int_123).

(** ** Counting copies *)

Section CopyCount.

Context {T : Type} `{ET : Elem T}.

(** [m] copies no element, however it ends. *)
Definition no_copy {A} (m : M (World T) A) : Prop :=
  forall w, outcome m w (fun _ w' => n_copies w' = n_copies w)
                        (fun w' => n_copies w' = n_copies w).

(** [m] copies [k] elements when it returns. *)
Definition copies {A} (m : M (World T) A) (k : Z) : Prop :=
  forall w, outcome m w (fun _ w' => n_copies w' = n_copies w + k)
                        (fun _ => True).

(** The same, for a method. *)
Definition copies_in_method {A} (m : M (Vector * World T) A) (k : Z)
  : Prop :=
  forall s, outcome m s
                    (fun _ s' => n_copies (snd s') = n_copies (snd s) + k)
                    (fun _ => True).

(** [m] copies no element, however it ends: for a method. *)
Definition copies_nothing {A} (m : M (Vector * World T) A) : Prop :=
  forall s, outcome m s (fun _ s' => n_copies (snd s') = n_copies (snd s))
                        (fun s' => n_copies (snd s') = n_copies (snd s)).

End CopyCount.


(** The arguments are not a [const T&] to copy from. *)
Definition not_a_copy {T : Type} (a : Arg T) : bool :=
  match a with
  | CopyOf _ => false
  | _ => true
  end.

(** A copyable type none of whose members throws, but whose move
    constructor is not declared [noexcept]. *)
Inductive Legacy : Type := legacy (n : Z).

#[export] Instance legacy_elem : Elem Legacy := {|
  value_init := fun _ => Some (legacy 0);
  copy_construct x := Some x;
  move_construct x := Some (x, legacy 0);
  copy_assign _ x := Some x;
  move_assign _ x := Some (x, legacy 0);
  is_nothrow_move_constructible := false;
  is_copy_constructible := true;
  has_move_constructor := true;
  has_move_assignment := true;
  sizeof_T := 4
|}.

(** [Vector<Legacy> v; v.PushBack(a); v.PushBack(b);] for lvalues [a]
    and [b] of values 1 and 2. *)
Definition legacy_12 : Vector * World Legacy :=
  after (PushBack (CopyOf (legacy 1)) ;; PushBack (CopyOf (legacy 2)))
        (Vector_default, empty_world).

(** ** Allocations left alone *)

Section SameAllocations.

Context {T : Type} `{ET : Elem T}.

(** [w'] has the live allocations of [w], and operator new has handed
    out nothing in between. *)
Definition same_allocations (w w' : World T) : Prop :=
  blocks w' = blocks w /\ next_block w' = next_block w.

(** [m] neither allocates nor releases, however it ends. *)
Definition no_alloc {A} (m : M (World T) A) : Prop :=
  forall w, outcome m w (fun _ w' => same_allocations w w')
                        (fun w' => same_allocations w w').

(** The method [m] leaves the fields of the vector and the allocations
    alone, however it ends. *)
Definition in_place {A} (m : M (Vector * World T) A) : Prop :=
  forall s, outcome m s
                    (fun _ s' => fst s' = fst s /\
                                 same_allocations (snd s) (snd s'))
                    (fun s' => fst s' = fst s /\
                               same_allocations (snd s) (snd s')).

End SameAllocations.

(** A type with a [noexcept] copy constructor and copy assignment and
    no move members: an rvalue of it is copied. *)
Inductive CopyOnly : Type := copy_only (n : Z).

#[export] Instance copy_only_elem : Elem CopyOnly := {|
  value_init := fun _ => Some (copy_only 0);
  copy_construct x := Some x;
  move_construct x := Some (x, x);
  copy_assign _ x := Some x;
  move_assign _ x := Some (x, x);
  is_nothrow_move_constructible := true;
  is_copy_constructible := true;
  has_move_constructor := false;
  has_move_assignment := false;
  sizeof_T := 4
|}.

(** [Vector<CopyOnly> v; v.PushBack(a); v.PushBack(b);] for lvalues [a]
    and [b] of values 1 and 2. *)
Definition copy_only_12 : Vector * World CopyOnly :=
  after (PushBack (CopyOf (copy_only 1)) ;; PushBack (CopyOf (copy_only 2)))
        (Vector_default, empty_world).

(** * Properties *)

#[export] Instance int_value_semantics : ValueSemantics Z.
Proof.
  constructor; simpl; eauto.
Qed.

Section InvariantFacts.

Context {T : Type}.

Lemma in_range (lo hi i : Z) : lo <= i < hi -> In i (range lo hi).
Proof.
  intros Hi. unfold range. apply in_map_iff.
  exists (Z.to_nat (i - lo)). split; [lia|].
  apply in_seq. lia.
Qed.

Lemma validb_valid (v : Vector) (w : World T) :
  validb v w = true -> valid v w.
Proof.
  unfold validb, valid. intros H.
  apply andb_true_iff in H. destruct H as [H1 H2].
  apply andb_true_iff in H1. destruct H1 as [H0 H1].
  split; [lia|].
  destruct (buffer_ (data_ v)) as [|b o]; [lia|].
  repeat (apply andb_true_iff in H2; let H' := fresh "K" in destruct H2 as [H2 H']).
  destruct (blocks w b) as [n|] eqn:Eb; [|discriminate].
  repeat split; try lia.
  - f_equal. lia.
  - intros i Hi Hc. rewrite forallb_forall in K0.
    specialize (K0 i (in_range _ _ _ Hi)). rewrite Hc in K0. discriminate.
  - intros i Hi. rewrite forallb_forall in K.
    specialize (K i (in_range _ _ _ Hi)).
    destruct (cells w b i); [discriminate|reflexivity].
Qed.

End InvariantFacts.

(** ** Rules for [post] *)

Section Fields.

Context {T : Type} `{ET : Elem T}.

Local Abbreviation W := (World T).
Local Abbreviation Method := (M (Vector * W)).

Lemma post_weaken {A} (m : Method A) (s : Vector * W) (Q Q' : A -> Vector -> Prop)
      (E E' : Vector -> Prop) :
  post m s Q E ->
  (forall a v, Q a v -> Q' a v) -> (forall v, E v -> E' v) ->
  post m s Q' E'.
Proof.
  unfold post. destruct (m s); auto.
Qed.

Lemma post_ret {A} (a : A) (s : Vector * W) (Q : A -> Vector -> Prop) E :
  Q a (fst s) -> post (ret a) s Q E.
Proof. exact (fun H => H). Qed.

Lemma post_undef {A} (s : Vector * W) (Q : A -> Vector -> Prop) E : post undef s Q E.
Proof. exact I. Qed.

Lemma post_bind {A B} (m : Method A) (k : A -> Method B) (s : Vector * W) Q E :
  post m s (fun a v => forall w, post (k a) (v, w) Q E) E ->
  post (bind m k) s Q E.
Proof.
  unfold post, bind. destruct (m s) as [a [v w]| |]; simpl; auto.
  intros H. apply H.
Qed.

Lemma post_this (s : Vector * W) (Q : Vector -> Vector -> Prop) E :
  Q (fst s) (fst s) -> post this s Q E.
Proof. exact (fun H => H). Qed.

Lemma post_set_this v (s : Vector * W) (Q : unit -> Vector -> Prop) E :
  Q tt v -> post (set_this v) s Q E.
Proof. exact (fun H => H). Qed.

(** A computation on the free store leaves the fields alone. *)
Lemma post_lift {A} (m : M W A) (s : Vector * W) (Q : A -> Vector -> Prop)
      (E : Vector -> Prop) :
  (forall a, Q a (fst s)) -> E (fst s) -> post (lift m) s Q E.
Proof.
  unfold post, lift. destruct (m (snd s)); simpl; auto.
Qed.

Lemma post_on_throw {A} (m : Method A) (h : Method unit) (s : Vector * W) Q E :
  post m s Q (fun v => forall w, post h (v, w) (fun _ v' => E v') E) ->
  post (on_throw m h) s Q E.
Proof.
  unfold post, on_throw, bind, throw.
  destruct (m s) as [a s'|[v w]|]; simpl; auto.
  intros H. specialize (H w). simpl in H.
  destruct (h (v, w)); auto.
Qed.

End Fields.

(** ** [Reserve] within the capacity *)

Section ReserveNoop.

Context {T : Type} `{ET : Elem T}.

Lemma Reserve_returns_at_once (v : Vector) (w : World T) (n : Z) :
  n <= Capacity v ->
  Reserve n (v, w) = Ok tt (v, w).
Proof.
  intros Hn. unfold Reserve, bind, this. simpl.
  apply Z.leb_le in Hn. rewrite Hn. reflexivity.
Qed.

(** C7.  When [n <= Capacity()], [Reserve(n)] returns at once: the
    fields of the vector and the whole free store (allocations, slots,
    allocation counter) are what they were. *)
Theorem Reserve_within_capacity_is_noop
        (v : Vector) (w : World T) (n : Z) :
  n <= Capacity v ->
  Reserve n (v, w) = Ok tt (v, w) /\
  (forall v' w', Reserve n (v, w) = Ok tt (v', w') ->
     Capacity v' = Capacity v /\ Size v' = Size v /\
     elements v' w' = elements v w /\
     blocks w' = blocks w /\ next_block w' = next_block w).
Proof.
  intros Hn. pose proof (Reserve_returns_at_once v w n Hn) as H.
  split; [exact H|].
  intros v' w' H'. rewrite H in H'. inversion H'. subst. auto.
Qed.

End ReserveNoop.

Lemma Reserve_within_capacity_is_noop_witness :
  3 <= Capacity (fst fragile_12) /\
  Reserve 3 fragile_12 = Ok tt fragile_12.
Proof.
  split; [vm_compute; discriminate|].
  apply (Reserve_within_capacity_is_noop (fst fragile_12) (snd fragile_12) 3).
  vm_compute; discriminate.
Defined.

(** ** Moves *)

Section Moves.

Context {T : Type} `{ET : Elem T}.

Lemma Swap_exchanges (v other : Vector) : Swap v other = (other, v).
Proof.
  destruct v as [[? ?] ?], other as [[? ?] ?]. reflexivity.
Qed.

(** C4, as the code has it.  Neither move touches the free store: no
    element is copied, moved or destroyed and nothing is allocated.
    The move constructor takes over the source's buffer and length and
    leaves the source empty.  The move assignment exchanges the two
    vectors: the source ends up with the former fields of the
    target. *)
Theorem moves_exchange_fields_only (v other : Vector) (w : World T) :
  (exists v',
      Vector_move other w = Ok (v', Vector_default) w /\
      data_ v' = data_ other /\ size_ v' = size_ other) /\
  move_assignment v other w = Ok (other, v) w.
Proof.
  split.
  - destruct other as [[buf cap] sz]. eexists. split; [reflexivity|].
    split; reflexivity.
  - unfold move_assignment, ret. rewrite Swap_exchanges. reflexivity.
Qed.

End Moves.

(** C4, as stated, fails: after [a = std::move(b)] with [a = [1]] and
    [b = [2, 3]] the source [b] has length 1. *)
Lemma move_assignment_source_not_empty :
  match move_assignment (fst int_1) (fst int_1_then_23) (snd int_1_then_23)
  with
  | Ok (_, src) _ => size_ src = 1 /\ size_ src <> 0
  | _ => False
  end.
Proof.
  vm_compute. split; [reflexivity|discriminate].
Qed.

(** ** A throwing constructor on the in-place path of [Emplace] *)

Section EmplaceThrow.

Context {T : Type} `{ET : Elem T}.

(** C3.  With spare capacity and [pos] before [end()], a throwing
    construction of the temporary takes the handler
    [operator delete(end())].  [end()] lies inside the buffer, it is
    not a pointer operator new returned: the call has undefined
    behaviour. *)
Theorem Emplace_interior_throw_is_undefined
        (v : Vector) (w w1 : World T) (k : Z) (args : Arg T) :
  valid v w ->
  size_ v < Capacity v ->
  0 <= k < size_ v ->
  construct_arg args w = Throw w1 ->
  Emplace (ptr_add (begin v) k) args (v, w) = Undef.
Proof.
  intros [Hs Hv] Hcap Hk Hthrow.
  unfold Capacity in Hcap.
  destruct v as [[buf cap] sz]; simpl in *.
  destruct buf as [|b o]; [lia|].
  destruct Hv as (-> & _ & _).
  unfold Emplace, bind, this, begin, end_, GetAddress, Capacity. simpl.
  rewrite Z.eqb_refl.
  replace (cap <=? sz) with false by (symmetry; apply Z.leb_gt; lia).
  replace (k =? sz) with false by (symmetry; apply Z.eqb_neq; lia).
  simpl.
  unfold on_throw, bind, lift at 1. simpl. rewrite Hthrow.
  unfold lift, operator_delete. simpl.
  replace (sz =? 0) with false by (symmetry; apply Z.eqb_neq; lia).
  destruct (blocks w1 b); reflexivity.
Qed.

End EmplaceThrow.

Lemma Emplace_interior_throw_is_undefined_witness :
  Emplace (ptr_add (begin (fst fragile_12)) 0) (CopyOf (fragile 13))
          fragile_12 = Undef.
Proof.
  apply (Emplace_interior_throw_is_undefined
           (fst fragile_12) (snd fragile_12) (snd fragile_12) 0
           (CopyOf (fragile 13))).
  - apply validb_valid. vm_compute. reflexivity.
  - vm_compute. reflexivity.
  - vm_compute. split; [discriminate|reflexivity].
  - reflexivity.
Defined.

(** ** The fields after each operation *)

Section FieldsOfOperations.

Context {T : Type} `{ET : Elem T}.

Local Abbreviation W := (World T).
Local Abbreviation Method := (M (Vector * W)).

(** As [post_lift], knowing what the computation returned. *)
Lemma post_lift_result {A} (m : M W A) (s : Vector * W)
      (Q : A -> Vector -> Prop) (E : Vector -> Prop) :
  (forall a w', m (snd s) = Ok a w' -> Q a (fst s)) ->
  (forall w', m (snd s) = Throw w' -> E (fst s)) ->
  post (lift m) s Q E.
Proof.
  unfold post, lift. destruct (m (snd s)) eqn:Em; simpl; eauto.
Qed.

Lemma RawMemory_dtor_no_throw (r : RawMemory) (w w' : W) :
  RawMemory_dtor r w <> Throw w'.
Proof.
  unfold RawMemory_dtor, Deallocate, operator_delete.
  destruct (buffer_ r) as [|b o]; [discriminate|].
  destruct (blocks w b); [|discriminate].
  destruct (o =? 0); discriminate.
Qed.

Lemma RawMemory_new_fields (n : Z) (w w' : W) (r : RawMemory) :
  RawMemory_new n w = Ok r w' ->
  capacity_ r = n /\ base_ptr (buffer_ r).
Proof.
  unfold RawMemory_new, Allocate, bind, ret.
  destruct (negb (n =? 0)); simpl; intros H; inversion H; split; reflexivity.
Qed.

Lemma RawMemory_index_no_throw (r : RawMemory) (i : Z) (w w' : W) :
  RawMemory_index r i w <> Throw w'.
Proof.
  unfold RawMemory_index. destruct (i <? capacity_ r); discriminate.
Qed.

Lemma destroy_at_offset (p : ptr) (k : Z) (w w' : W) :
  base_ptr p -> destroy_at (ptr_add p k) w = Ok tt w' -> 0 <= k.
Proof.
  destruct p as [|b o]; simpl; [discriminate|].
  intros ->. unfold in_bounds. destruct (blocks w b); [|discriminate].
  destruct (0 <=? 0 + k) eqn:E; [|discriminate].
  intros _. apply Z.leb_le in E. lia.
Qed.

End FieldsOfOperations.

Ltac post_auto :=
  repeat
    match goal with
    | |- post (bind _ _) _ _ _ => apply post_bind
    | |- post this _ _ _ => apply post_this
    | |- post (set_this _) _ _ _ => apply post_set_this
    | |- post (ret _) _ _ _ => apply post_ret
    | |- post undef _ _ _ => apply post_undef
    | |- post (on_throw _ _) _ _ _ => apply post_on_throw
    | |- post (lift (RawMemory_dtor _)) _ _ _ =>
        apply post_lift_result;
        [ intros ? ? _
        | let H := fresh in
          intros ? H; exfalso; exact (RawMemory_dtor_no_throw _ _ _ H) ]
    | |- post (lift (RawMemory_index _ _)) _ _ _ =>
        apply post_lift_result;
        [ intros ? ? _
        | let H := fresh in
          intros ? H; exfalso; exact (RawMemory_index_no_throw _ _ _ _ H) ]
    | |- post (lift (RawMemory_new _)) _ _ _ =>
        apply post_lift_result;
        [ let H := fresh "Hnew" in
          intros ? ? H; apply RawMemory_new_fields in H; destruct H
        | intros ? _ ]
    | |- post (lift _) _ _ _ => apply post_lift
    | |- post (let (_, _) := RawMemory_Swap _ _ in _) _ _ _ =>
        unfold RawMemory_Swap
    | |- post (if ?c then _ else _) _ _ _ => destruct c eqn:?
    | |- forall _, _ => intro
    | _ => progress cbv beta
    | _ => progress simpl fst
    | _ => progress simpl snd
    end.

Ltac fields_done :=
  unfold shaped, length_within_capacity, Capacity, GetAddress in *;
  simpl in *;
  repeat match goal with
         | H : ?c = _ |- context [if ?c then _ else _] => rewrite H
         end;
  repeat match goal with
         | H : (_ <=? _) = true |- _ => apply Z.leb_le in H
         | H : (_ <=? _) = false |- _ => apply Z.leb_gt in H
         | H : (_ <? _) = true |- _ => apply Z.ltb_lt in H
         | H : (_ <? _) = false |- _ => apply Z.ltb_ge in H
         | H : (_ =? _) = true |- _ => apply Z.eqb_eq in H
         | H : (_ =? _) = false |- _ => apply Z.eqb_neq in H
         | H : _ /\ _ |- _ => destruct H
         end;
  subst; simpl in *;
  repeat split; auto; try congruence; try lia.

Section FieldsOfOperations2.

Context {T : Type} `{ET : Elem T}.

Local Abbreviation W := (World T).

Lemma Reserve_fields (n : Z) (v : Vector) (w : W) :
  post (Reserve n) (v, w)
       (fun _ v' => size_ v' = size_ v /\
                    Capacity v' = Z.max n (Capacity v) /\
                    (base_ptr (buffer_ (data_ v)) ->
                     base_ptr (buffer_ (data_ v'))))
       (fun v' => v' = v).
Proof.
  unfold Reserve. post_auto; fields_done.
Qed.

Lemma PushBack_fields (a : Arg T) (v : Vector) (w : W) :
  post (PushBack a) (v, w)
       (fun _ v' =>
          size_ v' = size_ v + 1 /\
          Capacity v' = (if Capacity v <=? size_ v
                         then if size_ v =? 0 then 1 else size_ v * 2
                         else Capacity v) /\
          (base_ptr (buffer_ (data_ v)) -> base_ptr (buffer_ (data_ v'))))
       (fun v' => v' = v).
Proof.
  unfold PushBack. post_auto; fields_done.
Qed.

Lemma EmplaceBack_fields (a : Arg T) (v : Vector) (w : W) :
  post (EmplaceBack a) (v, w)
       (fun _ v' =>
          size_ v' = size_ v + 1 /\
          Capacity v' = (if Capacity v <=? size_ v
                         then if size_ v =? 0 then 1 else size_ v * 2
                         else Capacity v) /\
          (base_ptr (buffer_ (data_ v)) -> base_ptr (buffer_ (data_ v'))))
       (fun v' => v' = v).
Proof.
  unfold EmplaceBack. post_auto; fields_done.
Qed.

End FieldsOfOperations2.

(** ** The invariant [0 <= length <= capacity] *)

Section Invariant_preserved.

Context {T : Type} `{ET : Elem T}.

Local Abbreviation W := (World T).

Lemma ptr_add_add (p : ptr) (a b : Z) :
  ptr_add (ptr_add p a) b = ptr_add p (a + b).
Proof.
  destruct p; simpl; [reflexivity|]. f_equal. lia.
Qed.

Lemma count_no_throw (n : Z) (w w' : W) : count n w <> Throw w'.
Proof.
  unfold count. destruct (n <? 0); discriminate.
Qed.

Lemma Reserve_shaped (n : Z) (v : Vector) (w : W) :
  shaped v ->
  post (Reserve n) (v, w) (fun _ v' => shaped v') shaped.
Proof.
  intros Hv. eapply post_weaken; [apply Reserve_fields| |].
  - intros [] v' H. fields_done.
  - intros v' ->. exact Hv.
Qed.

Lemma Resize_shaped (n : Z) (v : Vector) (w : W) :
  0 <= n -> shaped v ->
  post (Resize n) (v, w) (fun _ v' => shaped v') shaped.
Proof.
  intros Hn Hv. unfold Resize.
  apply post_bind, post_this. simpl. intros w0.
  apply post_bind. destruct (n <? size_ v) eqn:E.
  - post_auto; fields_done.
  - apply post_bind.
    eapply post_weaken; [apply Reserve_fields| |].
    + intros [] v1 H1. simpl in H1. post_auto; fields_done.
    + intros v' ->. exact Hv.
Qed.

Lemma PopBack_shaped (v : Vector) (w : W) :
  shaped v ->
  post PopBack (v, w) (fun _ v' => shaped v') shaped.
Proof.
  intros Hv. unfold PopBack.
  apply post_bind, post_this. simpl. intros w0.
  apply post_bind, post_lift_result; simpl; [|intros; exact Hv].
  intros [] w1 Hd w2. rewrite ptr_add_add in Hd.
  apply destroy_at_offset in Hd; [|apply Hv].
  apply post_set_this. fields_done.
Qed.

Lemma Erase_shaped (pos : ptr) (v : Vector) (w : W) :
  shaped v ->
  post (Erase pos) (v, w) (fun _ v' => shaped v') shaped.
Proof.
  intros Hv. unfold Erase.
  apply post_bind, post_this. simpl. intros w0.
  destruct (ptr_diff pos (begin v)); [|apply post_undef].
  apply post_bind, post_lift; simpl; [|exact Hv]. intros _ w1.
  apply post_bind, post_lift_result; simpl; [|intros; exact Hv].
  intros [] w2 Hd w3. unfold end_, GetAddress in Hd.
  rewrite ptr_add_add in Hd.
  apply destroy_at_offset in Hd; [|apply Hv].
  post_auto; fields_done.
Qed.

Lemma PushBack_shaped (a : Arg T) (v : Vector) (w : W) :
  shaped v ->
  post (PushBack a) (v, w) (fun _ v' => shaped v') shaped.
Proof.
  intros Hv. eapply post_weaken; [apply PushBack_fields| |].
  - intros [] v' H. simpl in H.
    destruct (Capacity v <=? size_ v) eqn:E1;
      destruct (size_ v =? 0) eqn:E2; fields_done.
  - intros v' ->. exact Hv.
Qed.

Lemma EmplaceBack_shaped (a : Arg T) (v : Vector) (w : W) :
  shaped v ->
  post (EmplaceBack a) (v, w) (fun _ v' => shaped v') shaped.
Proof.
  intros Hv. eapply post_weaken; [apply EmplaceBack_fields| |].
  - intros p v' H. simpl in H.
    destruct (Capacity v <=? size_ v) eqn:E1;
      destruct (size_ v =? 0) eqn:E2; fields_done.
  - intros v' ->. exact Hv.
Qed.

Lemma Emplace_shaped (pos : ptr) (a : Arg T) (v : Vector) (w : W) :
  shaped v ->
  post (Emplace pos a) (v, w) (fun _ v' => shaped v') shaped.
Proof.
  intros Hv. unfold Emplace.
  apply post_bind, post_this. simpl. intros w0.
  destruct (ptr_diff pos (begin v)); [|apply post_undef].
  destruct (size_ v =? 0) eqn:E2; post_auto; fields_done.
Qed.

End Invariant_preserved.

Section Invariant_everywhere.

Context {T : Type} `{ET : Elem T}.

Local Abbreviation W := (World T).

Lemma Vector_sized_fields (n : Z) (w w' : W) (v : Vector) :
  Vector_sized n w = Ok v w' ->
  size_ v = n /\ Capacity v = n /\ base_ptr (buffer_ (data_ v)).
Proof.
  unfold Vector_sized, bind at 1.
  destruct (RawMemory_new n w) as [r w1| |] eqn:Er; try discriminate.
  apply RawMemory_new_fields in Er. destruct Er as [Hc Hb].
  unfold bind, ret.
  destruct (on_throw _ _ w1); try discriminate.
  intros H. inversion H. subst. simpl. auto.
Qed.

Lemma Vector_copy_fields (other : Vector) (w w' : W) (v : Vector) :
  Vector_copy other w = Ok v w' ->
  size_ v = size_ other /\ Capacity v = size_ other /\
  base_ptr (buffer_ (data_ v)).
Proof.
  unfold Vector_copy, bind at 1.
  destruct (RawMemory_new (size_ other) w) as [r w1| |] eqn:Er;
    try discriminate.
  apply RawMemory_new_fields in Er. destruct Er as [Hc Hb].
  unfold bind, ret.
  destruct (on_throw _ _ w1); try discriminate.
  intros H. inversion H. subst. simpl. auto.
Qed.

Lemma copy_assignment_shaped (rhs : Vector) (v : Vector) (w : W) :
  shaped v -> shaped rhs ->
  post (copy_assignment (Other rhs)) (v, w) (fun _ v' => shaped v') shaped.
Proof.
  intros Hv Hr. unfold copy_assignment.
  apply post_bind, post_this. simpl. intros w0.
  destruct (Capacity v <? size_ rhs) eqn:E.
  - apply post_bind, post_lift_result; simpl; [|intros; exact Hv].
    intros c w1 Hc w2. apply Vector_copy_fields in Hc.
    post_auto; fields_done.
  - destruct (size_ v <=? size_ rhs) eqn:E2; post_auto; fields_done.
Qed.

Lemma run_op_shaped (o : Op) (v : Vector) (w : W) :
  op_args_ok o -> shaped v ->
  post (run_op o) (v, w) (fun _ v' => shaped v') shaped.
Proof.
  intros Ho Hv.
  destruct o; simpl in *;
    try (apply post_bind;
         eapply post_weaken;
         [ first [ apply EmplaceBack_shaped | apply Emplace_shaped
                 | apply Erase_shaped ]; exact Hv
         | intros ? ? ? ?; apply post_ret; assumption
         | auto ]).
  - apply Reserve_shaped; assumption.
  - apply Resize_shaped; assumption.
  - apply PushBack_shaped; assumption.
  - apply PopBack_shaped; assumption.
  - apply post_ret. exact Hv.
Qed.

Lemma reachable_shaped (v : Vector) : reachable v -> shaped v.
Proof.
  induction 1.
  - unfold shaped, length_within_capacity. simpl.
    unfold Capacity. simpl. split; [lia|exact I].
  - apply Vector_sized_fields in H0. fields_done.
  - apply Vector_copy_fields in H0. fields_done.
  - unfold Vector_move, ret in H0.
    destruct other as [[buf cap] sz]. simpl in H0. inversion H0. subst.
    exact IHreachable.
  - unfold Vector_move, ret in H0.
    destruct other as [[buf cap] sz]. simpl in H0. inversion H0. subst.
    fields_done.
  - pose proof (run_op_shaped o v w H0 IHreachable) as P.
    unfold post in P. rewrite H1 in P. exact P.
  - pose proof (run_op_shaped o v w H0 IHreachable) as P.
    unfold post in P. rewrite H1 in P. exact P.
  - pose proof (copy_assignment_shaped rhs v w IHreachable1 IHreachable2) as P.
    unfold post in P. rewrite H1 in P. exact P.
  - pose proof (copy_assignment_shaped rhs v w IHreachable1 IHreachable2) as P.
    unfold post in P. rewrite H1 in P. exact P.
  - unfold move_assignment, ret in H1. rewrite Swap_exchanges in H1.
    inversion H1. subst. assumption.
  - unfold move_assignment, ret in H1. rewrite Swap_exchanges in H1.
    inversion H1. subst. assumption.
  - rewrite Swap_exchanges. assumption.
  - rewrite Swap_exchanges. assumption.
Qed.

(** C9.  Every vector state the public operations produce, whether
    they return or throw, has [0 <= size_ <= Capacity()]. *)
Theorem reachable_length_within_capacity (v : Vector) :
  reachable v -> 0 <= size_ v <= Capacity v.
Proof.
  intros H. apply reachable_shaped in H. apply H.
Qed.

End Invariant_everywhere.

Lemma reachable_length_within_capacity_witness :
  0 <= size_ (fst int_1) <= Capacity (fst int_1).
Proof.
  apply (reachable_length_within_capacity (T := Z)).
  apply (reach_return (OpPushBack (CopyOf 1)) Vector_default empty_world
                      (fst int_1) (snd int_1)).
  - apply reach_default.
  - exact I.
  - vm_compute. reflexivity.
Defined.

(** ** The growth policy of the pushes *)

Section Growth.

Context {T : Type} `{ET : Elem T}.

Local Abbreviation W := (World T).

Lemma do_push_fields (p : Push) (v : Vector) (w : W) :
  post (do_push p) (v, w)
       (fun _ v' =>
          size_ v' = size_ v + 1 /\
          Capacity v' = (if Capacity v <=? size_ v
                         then if size_ v =? 0 then 1 else size_ v * 2
                         else Capacity v) /\
          (base_ptr (buffer_ (data_ v)) -> base_ptr (buffer_ (data_ v'))))
       (fun v' => v' = v).
Proof.
  destruct p; simpl.
  - apply PushBack_fields.
  - apply post_bind. eapply post_weaken; [apply EmplaceBack_fields| |].
    + intros q v' H w'. apply post_ret. exact H.
    + auto.
Qed.

Lemma pushes_fields (ps : list Push) :
  forall (v : Vector) (w : W) log v' w',
    shaped v ->
    pushes ps (v, w) = Ok log (v', w') ->
    size_ v' = size_ v + Z.of_nat (length ps) /\
    Forall growth_policy log.
Proof.
  induction ps as [|p ps IH]; intros v w log v' w' Hv Hrun.
  - simpl in Hrun. inversion Hrun. subst. simpl. split; [lia|constructor].
  - simpl pushes in Hrun. unfold bind at 1, this at 1 in Hrun.
    simpl in Hrun. unfold bind at 1 in Hrun.
    pose proof (do_push_fields p v w) as P. unfold post in P.
    destruct (do_push p (v, w)) as [[] [v1 w1]| |]; try discriminate.
    simpl in P. destruct P as (Hs & Hc & Hb).
    unfold bind at 1, this at 1 in Hrun. simpl in Hrun.
    unfold bind at 1 in Hrun.
    destruct (pushes ps (v1, w1)) as [rest [v2 w2]| |] eqn:Er;
      try discriminate.
    assert (Hv1 : shaped v1).
    { destruct (Capacity v <=? size_ v) eqn:E1;
        destruct (size_ v =? 0) eqn:E2; fields_done. }
    destruct (IH v1 w1 rest v2 w2 Hv1 Er) as [Hlen Hall].
    unfold ret in Hrun. inversion Hrun. subst.
    split; [simpl length; lia|].
    constructor; [|exact Hall].
    unfold growth_policy, grew, Size. simpl.
    destruct (Capacity v <=? size_ v) eqn:E1; [|exact Hc].
    rewrite Hc. destruct (size_ v =? 0) eqn:E2; fields_done.
Qed.

End Growth.

(** ** Rules for [returns] *)

Section ReturnsRules.

Context {S A B : Type}.

Lemma returns_ret (a : A) (s : S) (Q : A -> S -> Prop) :
  Q a s -> returns (ret a) s Q.
Proof. exact (fun H => H). Qed.

Lemma returns_bind (m : M S A) (k : A -> M S B) (s : S)
      (Q : B -> S -> Prop) :
  returns m s (fun a s' => returns (k a) s' Q) ->
  returns (bind m k) s Q.
Proof.
  unfold returns, bind. destruct (m s); auto.
Qed.

Lemma returns_weaken (m : M S A) (s : S) (Q Q' : A -> S -> Prop) :
  returns m s Q -> (forall a s', Q a s' -> Q' a s') -> returns m s Q'.
Proof.
  unfold returns. destruct (m s); auto.
Qed.

Lemma returns_on_throw (m : M S A) (h : M S unit) (s : S)
      (Q : A -> S -> Prop) :
  returns m s Q -> returns (on_throw m h) s Q.
Proof.
  unfold returns, on_throw. destruct (m s); auto. intros [].
Qed.

Lemma returns_eq (m : M S A) (s : S) (Q : A -> S -> Prop) :
  returns m s Q -> exists a s', m s = Ok a s' /\ Q a s'.
Proof.
  unfold returns. destruct (m s); [eauto|intros []|intros []].
Qed.

Lemma eq_returns (m : M S A) (s s' : S) (a : A) (Q : A -> S -> Prop) :
  m s = Ok a s' -> Q a s' -> returns m s Q.
Proof.
  unfold returns. intros ->. auto.
Qed.

End ReturnsRules.

Section ReturnsLift.

Context {T : Type} `{ET : Elem T} {A : Type}.

Lemma returns_lift (m : M (World T) A) (v : Vector) (w : World T)
      (Q : A -> Vector * World T -> Prop) :
  returns m w (fun a w' => Q a (v, w')) ->
  returns (lift m) (v, w) Q.
Proof.
  unfold returns, lift. simpl. destruct (m w); auto.
Qed.

End ReturnsLift.

Ltac mstep :=
  cbv beta iota; unfold call, ret; cbv beta iota;
  cbn [fst snd].

Section MonadLaws.

Context {S A B C : Type}.

Lemma bind_assoc (m : M S A) (k : A -> M S B) (h : B -> M S C) (s : S) :
  bind (bind m k) h s = bind m (fun a => bind (k a) h) s.
Proof.
  unfold bind. destruct (m s); reflexivity.
Qed.

Lemma bind_ext (m : M S A) (k k' : A -> M S B) (s : S) :
  (forall a s', k a s' = k' a s') -> bind m k s = bind m k' s.
Proof.
  intros H. unfold bind. destruct (m s); auto.
Qed.

End MonadLaws.

(** ** The primitives, slot by slot *)

Section Primitives.

Context {T : Type} `{ET : Elem T}.

Local Abbreviation W := (World T).

Lemma in_bounds_set_cell (w : W) b i o b' i' :
  in_bounds (set_cell w b i o) b' i' = in_bounds w b' i'.
Proof. reflexivity. Qed.

Lemma cells_set_cell (w : W) b i o b' i' :
  cells (set_cell w b i o) b' i' =
  if (b' =? b) && (i' =? i) then o else cells w b' i'.
Proof. reflexivity. Qed.

Lemma cells_set_cell_same (w : W) b i o :
  cells (set_cell w b i o) b i = o.
Proof.
  rewrite cells_set_cell, !Z.eqb_refl. reflexivity.
Qed.

Lemma cells_set_cell_other (w : W) b i o b' i' :
  b' <> b \/ i' <> i ->
  cells (set_cell w b i o) b' i' = cells w b' i'.
Proof.
  intros H. rewrite cells_set_cell.
  destruct (b' =? b) eqn:Eb; [|reflexivity].
  destruct (i' =? i) eqn:Ei; [|reflexivity].
  apply Z.eqb_eq in Eb, Ei. lia.
Qed.

Lemma in_bounds_iff (w : W) b i n :
  blocks w b = Some n -> (in_bounds w b i = true <-> 0 <= i < n).
Proof.
  unfold in_bounds. intros ->. rewrite andb_true_iff, Z.leb_le, Z.ltb_lt.
  reflexivity.
Qed.

Lemma storage_eq (w : W) b i :
  in_bounds w b i = true -> storage (Ptr b i) w = Ok tt w.
Proof. unfold storage. intros ->. reflexivity. Qed.

Lemma load_eq (w : W) b i x :
  in_bounds w b i = true -> cells w b i = Some x ->
  load (Ptr b i) w = Ok x w.
Proof. unfold load. intros -> ->. reflexivity. Qed.

Lemma store_eq (w : W) b i x :
  in_bounds w b i = true ->
  store (Ptr b i) x w = Ok tt (set_cell w b i (Some x)).
Proof. unfold store. intros ->. reflexivity. Qed.

Lemma destroy_at_eq (w : W) b i x :
  in_bounds w b i = true -> cells w b i = Some x ->
  destroy_at (Ptr b i) w = Ok tt (set_cell w b i None).
Proof. unfold destroy_at. intros -> ->. reflexivity. Qed.

Lemma count_move_construct_eq (w : W) :
  count_move_construct w = Ok tt (move_constructed w).
Proof.
  unfold count_move_construct, move_constructed.
  destruct has_move_constructor; reflexivity.
Qed.

Lemma count_move_assign_eq (w : W) :
  count_move_assign w = Ok tt (move_assigned w).
Proof.
  unfold count_move_assign, move_assigned.
  destruct has_move_assignment; reflexivity.
Qed.

Lemma blocks_move_constructed (w : W) :
  blocks (move_constructed w) = blocks w.
Proof. unfold move_constructed. destruct has_move_constructor; reflexivity. Qed.

Lemma cells_move_constructed (w : W) :
  cells (move_constructed w) = cells w.
Proof. unfold move_constructed. destruct has_move_constructor; reflexivity. Qed.

Lemma next_block_move_constructed (w : W) :
  next_block (move_constructed w) = next_block w.
Proof. unfold move_constructed. destruct has_move_constructor; reflexivity. Qed.

Lemma in_bounds_move_constructed (w : W) b i :
  in_bounds (move_constructed w) b i = in_bounds w b i.
Proof. unfold in_bounds. rewrite blocks_move_constructed. reflexivity. Qed.

Lemma blocks_move_assigned (w : W) :
  blocks (move_assigned w) = blocks w.
Proof. unfold move_assigned. destruct has_move_assignment; reflexivity. Qed.

Lemma cells_move_assigned (w : W) :
  cells (move_assigned w) = cells w.
Proof. unfold move_assigned. destruct has_move_assignment; reflexivity. Qed.

Lemma next_block_move_assigned (w : W) :
  next_block (move_assigned w) = next_block w.
Proof. unfold move_assigned. destruct has_move_assignment; reflexivity. Qed.

Lemma in_bounds_move_assigned (w : W) b i :
  in_bounds (move_assigned w) b i = in_bounds w b i.
Proof. unfold in_bounds. rewrite blocks_move_assigned. reflexivity. Qed.

Lemma construct_move_eq (w : W) db di sb si x y x' :
  in_bounds w db di = true -> in_bounds w sb si = true ->
  cells w sb si = Some x -> move_construct x = Some (y, x') ->
  construct_move (Ptr db di) (Ptr sb si) w =
  Ok tt (set_cell (set_cell (move_constructed w) sb si (Some x'))
                  db di (Some y)).
Proof.
  intros Hd Hs Hx Hm. unfold construct_move, bind.
  rewrite (storage_eq _ _ _ Hd), (load_eq _ _ _ _ Hs Hx), Hm. mstep.
  rewrite count_move_construct_eq.
  rewrite store_eq by (rewrite in_bounds_move_constructed; exact Hs).
  rewrite store_eq; [reflexivity|].
  rewrite in_bounds_set_cell, in_bounds_move_constructed. exact Hd.
Qed.

Lemma construct_copy_eq (w : W) db di sb si x y :
  in_bounds w db di = true -> in_bounds w sb si = true ->
  cells w sb si = Some x -> copy_construct x = Some y ->
  construct_copy (Ptr db di) (Ptr sb si) w =
  Ok tt (set_cell (counted w) db di (Some y)).
Proof.
  intros Hd Hs Hx Hm. unfold construct_copy, bind.
  rewrite (storage_eq _ _ _ Hd), (load_eq _ _ _ _ Hs Hx), Hm. mstep.
  unfold count_copy. rewrite store_eq; [reflexivity|exact Hd].
Qed.

Lemma construct_value_eq (w : W) db di k d :
  in_bounds w db di = true -> value_init k = Some d ->
  construct_value (Ptr db di) k w = Ok tt (set_cell w db di (Some d)).
Proof.
  intros Hd Hm. unfold construct_value, bind.
  rewrite (storage_eq _ _ _ Hd), Hm. mstep. apply store_eq, Hd.
Qed.

Lemma assign_move_eq (w : W) db di sb si x d y x' :
  in_bounds w db di = true -> in_bounds w sb si = true ->
  cells w sb si = Some x -> cells w db di = Some d ->
  move_assign d x = Some (y, x') ->
  assign_move (Ptr db di) (Ptr sb si) w =
  Ok tt (set_cell (set_cell (move_assigned w) sb si (Some x'))
                  db di (Some y)).
Proof.
  intros Hd Hs Hx Hdv Hm. unfold assign_move, bind.
  rewrite (load_eq _ _ _ _ Hs Hx), (load_eq _ _ _ _ Hd Hdv), Hm. mstep.
  rewrite count_move_assign_eq.
  rewrite store_eq by (rewrite in_bounds_move_assigned; exact Hs).
  rewrite store_eq; [reflexivity|].
  rewrite in_bounds_set_cell, in_bounds_move_assigned. exact Hd.
Qed.

Lemma assign_copy_eq (w : W) db di sb si x d y :
  in_bounds w db di = true -> in_bounds w sb si = true ->
  cells w sb si = Some x -> cells w db di = Some d ->
  copy_assign d x = Some y ->
  assign_copy (Ptr db di) (Ptr sb si) w =
  Ok tt (set_cell (counted w) db di (Some y)).
Proof.
  intros Hd Hs Hx Hdv Hm. unfold assign_copy, bind.
  rewrite (load_eq _ _ _ _ Hs Hx), (load_eq _ _ _ _ Hd Hdv), Hm. mstep.
  unfold count_copy. rewrite store_eq; [reflexivity|exact Hd].
Qed.

Lemma count_eq (n : Z) (w : W) :
  0 <= n -> count n w = Ok (Z.to_nat n) w.
Proof.
  intros Hn. unfold count.
  replace (n <? 0) with false by (symmetry; apply Z.ltb_ge; lia).
  reflexivity.
Qed.

End Primitives.

(** ** Loop rules: an invariant indexed by the loop counter *)

Section Loops.

Context {T : Type} `{ET : Elem T}.

Local Abbreviation W := (World T).

Variable Inv : Z -> W -> Prop.

Lemma returns_uninit_loop (step : Z -> M W unit) (dst : ptr) (n : nat) :
  forall (i : Z) (w : W),
    Inv i w ->
    (forall j w', i <= j < i + Z.of_nat n -> Inv j w' ->
                  returns (step j) w' (fun _ w'' => Inv (j + 1) w'')) ->
    returns (uninit_loop step dst i n) w
            (fun _ w' => Inv (i + Z.of_nat n) w').
Proof.
  induction n as [|n IH]; intros i w Hi Hstep.
  - simpl. unfold returns, ret. rewrite Z.add_0_r. exact Hi.
  - simpl uninit_loop. apply returns_bind.
    eapply returns_weaken.
    + apply returns_on_throw. apply Hstep; [lia|exact Hi].
    + intros [] w1 H1. simpl in H1.
      eapply returns_weaken.
      * apply IH; [exact H1|]. intros j w' Hj. apply Hstep. lia.
      * intros [] w2 H2. simpl in H2.
        replace (i + Z.of_nat (S n)) with (i + 1 + Z.of_nat n) by lia.
        exact H2.
Qed.

Lemma returns_forward_loop (op : ptr -> ptr -> M W unit) (s d : ptr)
      (n : nat) :
  forall (i : Z) (w : W),
    Inv i w ->
    (forall j w', i <= j < i + Z.of_nat n -> Inv j w' ->
                  returns (op (ptr_add d j) (ptr_add s j)) w'
                          (fun _ w'' => Inv (j + 1) w'')) ->
    returns (forward_loop op s d i n) w
            (fun _ w' => Inv (i + Z.of_nat n) w').
Proof.
  induction n as [|n IH]; intros i w Hi Hstep.
  - simpl. unfold returns, ret. rewrite Z.add_0_r. exact Hi.
  - simpl forward_loop. apply returns_bind.
    eapply returns_weaken.
    + apply Hstep; [lia|exact Hi].
    + intros [] w1 H1. simpl in H1.
      eapply returns_weaken.
      * apply IH; [exact H1|]. intros j w' Hj. apply Hstep. lia.
      * intros [] w2 H2. simpl in H2.
        replace (i + Z.of_nat (S n)) with (i + 1 + Z.of_nat n) by lia.
        exact H2.
Qed.

Lemma returns_backward_loop (last d_last : ptr) (n : nat) :
  forall (i : Z) (w : W),
    Inv i w ->
    (forall j w', i <= j < i + Z.of_nat n -> Inv j w' ->
                  returns (assign_move (ptr_add d_last (- j))
                                       (ptr_add last (- j))) w'
                          (fun _ w'' => Inv (j + 1) w'')) ->
    returns (backward_loop last d_last i n) w
            (fun _ w' => Inv (i + Z.of_nat n) w').
Proof.
  induction n as [|n IH]; intros i w Hi Hstep.
  - simpl. unfold returns, ret. rewrite Z.add_0_r. exact Hi.
  - simpl backward_loop. apply returns_bind.
    eapply returns_weaken.
    + apply Hstep; [lia|exact Hi].
    + intros [] w1 H1. simpl in H1.
      eapply returns_weaken.
      * apply IH; [exact H1|]. intros j w' Hj. apply Hstep. lia.
      * intros [] w2 H2. simpl in H2.
        replace (i + Z.of_nat (S n)) with (i + 1 + Z.of_nat n) by lia.
        exact H2.
Qed.

Lemma returns_destroy_loop (p : ptr) (n : nat) :
  forall (i : Z) (w : W),
    Inv i w ->
    (forall j w', i <= j < i + Z.of_nat n -> Inv j w' ->
                  returns (destroy_at (ptr_add p j)) w'
                          (fun _ w'' => Inv (j + 1) w'')) ->
    returns (destroy_loop p i n) w
            (fun _ w' => Inv (i + Z.of_nat n) w').
Proof.
  induction n as [|n IH]; intros i w Hi Hstep.
  - simpl. unfold returns, ret. rewrite Z.add_0_r. exact Hi.
  - simpl destroy_loop. apply returns_bind.
    eapply returns_weaken.
    + apply Hstep; [lia|exact Hi].
    + intros [] w1 H1. simpl in H1.
      eapply returns_weaken.
      * apply IH; [exact H1|]. intros j w' Hj. apply Hstep. lia.
      * intros [] w2 H2. simpl in H2.
        replace (i + Z.of_nat (S n)) with (i + 1 + Z.of_nat n) by lia.
        exact H2.
Qed.

End Loops.

Ltac eqb_cases :=
  rewrite ?Z.eqb_refl;
  repeat match goal with
         | |- context [?a =? ?b] => destruct (Z.eqb_spec a b)
         end;
  simpl; try congruence; try lia.

(** ** The algorithms on elements with value semantics *)

Section Algorithms.

Context {T : Type} `{ET : Elem T}.

Local Abbreviation W := (World T).

Lemma frame_refl (P : Z -> Z -> Prop) (w : W) : frame P w w.
Proof. repeat split. Qed.

Lemma frame_trans (P : Z -> Z -> Prop) (w1 w2 w3 : W) :
  frame P w1 w2 -> frame P w2 w3 -> frame P w1 w3.
Proof.
  intros (B1 & N1 & C1) (B2 & N2 & C2). repeat split; try congruence.
  intros b j H. rewrite C2, C1; auto.
Qed.

Lemma frame_weaken (P Q : Z -> Z -> Prop) (w1 w2 : W) :
  frame P w1 w2 -> (forall b j, P b j -> Q b j) -> frame Q w1 w2.
Proof.
  intros (B1 & N1 & C1) H. repeat split; auto.
Qed.

Lemma frame_set_cell (P : Z -> Z -> Prop) (w : W) b i o :
  P b i -> frame P w (set_cell w b i o).
Proof.
  intros H. repeat split. intros b' j Hn.
  apply cells_set_cell_other.
  destruct (Z.eq_dec b' b); [|auto]. destruct (Z.eq_dec j i); [|auto].
  subst. contradiction.
Qed.

Lemma frame_in_bounds (P : Z -> Z -> Prop) (w w' : W) b i :
  frame P w w' -> in_bounds w' b i = in_bounds w b i.
Proof.
  intros (B & _). unfold in_bounds. rewrite B. reflexivity.
Qed.

Lemma destroy_n_zero (p : ptr) (w : W) : destroy_n p 0 w = Ok tt w.
Proof. reflexivity. Qed.

Lemma destroy_n_spec (w : W) (b o n cap : Z) :
  blocks w b = Some cap -> 0 <= o -> 0 <= n -> o + n <= cap ->
  (forall j, o <= j < o + n -> cells w b j <> None) ->
  returns (destroy_n (Ptr b o) n) w
          (fun _ w' =>
             frame (fun b' j => b' = b /\ o <= j < o + n) w w' /\
             forall j, o <= j < o + n -> cells w' b j = None).
Proof.
  intros Hb Ho Hn Hcap Hlive. unfold destroy_n.
  apply returns_bind. eapply eq_returns; [apply count_eq, Hn|].
  eapply returns_weaken.
  - apply (returns_destroy_loop
             (fun i w' =>
                frame (fun b' j => b' = b /\ o <= j < o + i) w w' /\
                forall j, o <= j < o + i -> cells w' b j = None)).
    + split; [apply frame_refl|]. intros j Hj. lia.
    + intros j w' Hj [Hf Hnone]. simpl ptr_add.
      assert (Hin : in_bounds w' b (o + j) = true).
      { rewrite (frame_in_bounds _ _ _ _ _ Hf).
        apply (in_bounds_iff _ _ _ _ Hb). lia. }
      destruct (cells w' b (o + j)) as [x|] eqn:Ex.
      * eapply eq_returns; [apply (destroy_at_eq _ _ _ _ Hin Ex)|].
        split.
        -- eapply frame_trans.
           ++ eapply frame_weaken; [exact Hf|]. simpl. intros; lia.
           ++ apply frame_set_cell. lia.
        -- intros i Hi. rewrite cells_set_cell. eqb_cases.
           apply Hnone. lia.
      * exfalso. destruct Hf as (_ & _ & Hc).
        rewrite Hc in Ex by lia. apply (Hlive (o + j)); [lia|exact Ex].
  - intros [] w' [Hf Hnone]. rewrite Z2Nat.id in * by lia. auto.
Qed.

End Algorithms.

Section Transfers.

Context {T : Type} `{ET : Elem T} `{VS : !ValueSemantics T}.

Local Abbreviation W := (World T).

Lemma frame_counted (P : Z -> Z -> Prop) (w : W) : frame P w (counted w).
Proof. repeat split. Qed.

Lemma frame_move_constructed (P : Z -> Z -> Prop) (w : W) :
  frame P w (move_constructed w).
Proof.
  unfold move_constructed. destruct has_move_constructor;
    [apply frame_refl|apply frame_counted].
Qed.

Lemma frame_move_assigned (P : Z -> Z -> Prop) (w : W) :
  frame P w (move_assigned w).
Proof.
  unfold move_assigned. destruct has_move_assignment;
    [apply frame_refl|apply frame_counted].
Qed.

Lemma blit_inv_start (w : W) (sb so db dst : Z) :
  blit_inv w sb so db dst 0 w.
Proof.
  split; [apply frame_refl|]. split; intros; lia.
Qed.

Lemma blit_inv_step (w w' w'' : W) (sb so db dst i : Z) :
  sb <> db -> 0 <= i ->
  blit_inv w sb so db dst i w' ->
  frame (fun b j => (b = db /\ j = dst + i) \/ (b = sb /\ j = so + i))
        w' w'' ->
  cells w'' db (dst + i) = cells w sb (so + i) ->
  cells w'' sb (so + i) <> None ->
  blit_inv w sb so db dst (i + 1) w''.
Proof.
  intros Hne Hi (Hf & Hd & Hs) Hstep Hnew Hsrc.
  split; [|split].
  - eapply frame_trans.
    + eapply frame_weaken; [exact Hf|]. simpl. intros; lia.
    + eapply frame_weaken; [exact Hstep|]. simpl. intros; lia.
  - intros j Hj. destruct (Z.eq_dec j i) as [->|Hji]; [exact Hnew|].
    destruct Hstep as (_ & _ & Hc). rewrite Hc by lia. apply Hd. lia.
  - intros j Hj. destruct (Z.eq_dec j (so + i)) as [->|Hji]; [exact Hsrc|].
    destruct Hstep as (_ & _ & Hc). rewrite Hc by lia. apply Hs. lia.
Qed.

(** The source slot a step reads still holds its value of [w]. *)
Lemma blit_inv_source (w w' : W) (sb so db dst i : Z) :
  sb <> db -> 0 <= i ->
  blit_inv w sb so db dst i w' ->
  cells w' sb (so + i) = cells w sb (so + i).
Proof.
  intros Hne Hi (Hf & _). destruct Hf as (_ & _ & Hc). apply Hc. lia.
Qed.

Section OneTransfer.

Variables (w : W) (sb so db dst n scap dcap : Z).
Hypothesis Hne : sb <> db.
Hypothesis Hsb : blocks w sb = Some scap.
Hypothesis Hdb : blocks w db = Some dcap.
Hypothesis Hso : 0 <= so /\ so + n <= scap.
Hypothesis Hdo : 0 <= dst /\ dst + n <= dcap.
Hypothesis Hn : 0 <= n.
Hypothesis Hlive : forall j, so <= j < so + n -> cells w sb j <> None.

Lemma transfer_bounds (w' : W) (i : Z) :
  blit_inv w sb so db dst i w' -> 0 <= i < n ->
  in_bounds w' db (dst + i) = true /\ in_bounds w' sb (so + i) = true.
Proof.
  intros (Hf & _) Hi.
  rewrite !(frame_in_bounds _ _ _ _ _ Hf).
  split; [apply (in_bounds_iff _ _ _ _ Hdb)|apply (in_bounds_iff _ _ _ _ Hsb)];
    lia.
Qed.

Lemma uninitialized_move_n_spec :
  returns (uninitialized_move_n (Ptr sb so) n (Ptr db dst)) w
          (fun _ w' => blit_inv w sb so db dst n w').
Proof.
  unfold uninitialized_move_n. apply returns_bind.
  eapply eq_returns; [apply count_eq, Hn|].
  eapply returns_weaken.
  - apply (returns_uninit_loop (blit_inv w sb so db dst)).
    + apply blit_inv_start.
    + intros j w' Hj Hinv. rewrite Z2Nat.id in Hj by lia. simpl ptr_add.
      destruct (transfer_bounds w' j Hinv) as [Hbd Hbs]; [lia|].
      pose proof (blit_inv_source _ _ _ _ _ _ _ Hne (proj1 Hj) Hinv) as Hsrc.
      destruct (cells w sb (so + j)) as [x|] eqn:Ex;
        [|exfalso; apply (Hlive (so + j)); [lia|exact Ex]].
      destruct (vs_move x) as [x' Hm].
      eapply eq_returns;
        [apply (construct_move_eq _ _ _ _ _ _ _ _ Hbd Hbs Hsrc Hm)|].
      apply (blit_inv_step w w'); auto; try lia.
      * eapply frame_trans; [apply frame_move_constructed|].
        eapply frame_trans; apply frame_set_cell; simpl; auto.
      * rewrite cells_set_cell_same. symmetry. exact Ex.
      * rewrite !cells_set_cell. eqb_cases; discriminate.
  - intros [] w' Hinv. rewrite Z2Nat.id in Hinv by lia. exact Hinv.
Qed.

Lemma uninitialized_copy_n_spec :
  returns (uninitialized_copy_n (Ptr sb so) n (Ptr db dst)) w
          (fun _ w' => blit_inv w sb so db dst n w').
Proof.
  unfold uninitialized_copy_n. apply returns_bind.
  eapply eq_returns; [apply count_eq, Hn|].
  eapply returns_weaken.
  - apply (returns_uninit_loop (blit_inv w sb so db dst)).
    + apply blit_inv_start.
    + intros j w' Hj Hinv. rewrite Z2Nat.id in Hj by lia. simpl ptr_add.
      destruct (transfer_bounds w' j Hinv) as [Hbd Hbs]; [lia|].
      pose proof (blit_inv_source _ _ _ _ _ _ _ Hne (proj1 Hj) Hinv) as Hsrc.
      destruct (cells w sb (so + j)) as [x|] eqn:Ex;
        [|exfalso; apply (Hlive (so + j)); [lia|exact Ex]].
      eapply eq_returns;
        [apply (construct_copy_eq _ _ _ _ _ _ _ Hbd Hbs Hsrc (vs_copy x))|].
      apply (blit_inv_step w w'); auto; try lia.
      * eapply frame_trans; [apply frame_counted|].
        apply frame_set_cell; simpl; auto.
      * rewrite cells_set_cell_same. symmetry. exact Ex.
      * rewrite cells_set_cell. eqb_cases.
  - intros [] w' Hinv. rewrite Z2Nat.id in Hinv by lia. exact Hinv.
Qed.

Lemma transfer_spec :
  returns (transfer (Ptr sb so) n (Ptr db dst)) w
          (fun _ w' => blit_inv w sb so db dst n w').
Proof.
  unfold transfer.
  destruct (is_nothrow_move_constructible || negb is_copy_constructible).
  - apply uninitialized_move_n_spec.
  - apply uninitialized_copy_n_spec.
Qed.

End OneTransfer.

Lemma transfer_nothing (src dst : ptr) (w : W) :
  transfer src 0 dst w = Ok tt w.
Proof.
  unfold transfer.
  destruct (is_nothrow_move_constructible || negb is_copy_constructible);
    reflexivity.
Qed.

End Transfers.

Section MoveAround.

Context {T : Type} `{ET : Elem T} `{VS : !ValueSemantics T}.

Local Abbreviation W := (World T).

Lemma move_around_nothing (old new : ptr) (w : W) :
  move_around old 0 0 new w = Ok tt w.
Proof.
  unfold move_around, bind. rewrite transfer_nothing.
  change (0 - 0) with 0. rewrite transfer_nothing. reflexivity.
Qed.

Lemma move_around_spec (w : W) (b size cap position nb n : Z) :
  b <> nb ->
  blocks w b = Some cap -> blocks w nb = Some n ->
  0 <= position <= size -> size <= cap -> size + 1 <= n ->
  (forall i, 0 <= i < size -> cells w b i <> None) ->
  returns (move_around (Ptr b 0) size position (Ptr nb 0)) w
          (fun _ w' => moved_around w b size position nb w').
Proof.
  intros Hne Hb Hnb Hp Hcap Hn Hlive. unfold move_around.
  apply returns_bind. eapply returns_weaken.
  { apply (transfer_spec w b 0 nb 0 position cap n); auto; try lia.
    intros j Hj. apply Hlive. lia. }
  intros [] w1 (Hf1 & Hd1 & Hs1). simpl in Hf1.
  destruct Hf1 as (Hb1 & Hn1 & Hc1).
  apply returns_bind. simpl ptr_add. eapply returns_weaken.
  { apply (transfer_spec w1 b (0 + position) nb (0 + position + 1)
                         (size - position) cap n); auto; try lia.
    - rewrite Hb1. exact Hb.
    - rewrite Hb1. exact Hnb.
    - intros j Hj. rewrite Hc1 by lia. apply Hlive. lia. }
  intros [] w2 (Hf2 & Hd2 & Hs2). simpl in Hf2.
  destruct Hf2 as (Hb2 & Hn2 & Hc2).
  assert (Hlive2 : forall j, 0 <= j < 0 + size -> cells w2 b j <> None).
  { intros j Hj. destruct (Z_lt_dec j position).
    - rewrite Hc2 by lia. apply Hs1. lia.
    - apply Hs2. lia. }
  eapply returns_weaken.
  { apply (destroy_n_spec w2 b 0 size cap); auto; try lia.
    rewrite Hb2, Hb1. exact Hb. }
  intros [] w3 ((Hb3 & Hn3 & Hc3) & Hnone).
  unfold moved_around. repeat split; try congruence.
  - intros i Hi. rewrite Hc3 by lia. rewrite Hc2 by lia.
    replace i with (0 + i) at 1 by lia. rewrite Hd1 by lia.
    reflexivity.
  - intros i Hi. rewrite Hc3 by lia.
    replace (i + 1) with (0 + position + 1 + (i - position)) by lia.
    rewrite Hd2 by lia. rewrite Hc1 by lia. f_equal. lia.
  - intros i Hi. rewrite Hc3 by lia. rewrite Hc2 by lia.
    apply Hc1. lia.
  - intros i Hi. apply Hnone. lia.
  - intros i Hi. rewrite Hc3 by lia. rewrite Hc2 by lia. apply Hc1. lia.
  - intros b' i H1 H2. rewrite Hc3 by lia. rewrite Hc2 by lia.
    apply Hc1. lia.
Qed.

End MoveAround.

Section GrowthStepFacts.

Context {T : Type} `{ET : Elem T}.

Local Abbreviation W := (World T).

Lemma RawMemory_new_eq (w : W) (n : Z) :
  n <> 0 ->
  RawMemory_new n w =
  Ok {| buffer_ := Ptr (next_block w) 0; capacity_ := n |} (allocated w n).
Proof.
  intros Hn. unfold RawMemory_new, Allocate, bind.
  replace (n =? 0) with false by (symmetry; apply Z.eqb_neq; exact Hn).
  reflexivity.
Qed.

Lemma RawMemory_dtor_eq (w : W) (b c n : Z) :
  blocks w b = Some n ->
  RawMemory_dtor {| buffer_ := Ptr b 0; capacity_ := c |} w =
  Ok tt (released w b).
Proof.
  intros Hb. unfold RawMemory_dtor, Deallocate, operator_delete. simpl.
  rewrite Hb. reflexivity.
Qed.

Lemma RawMemory_dtor_null (w : W) (c : Z) :
  RawMemory_dtor {| buffer_ := Null; capacity_ := c |} w = Ok tt w.
Proof. reflexivity. Qed.

(** The buffer of a valid vector can be released. *)
Lemma RawMemory_dtor_valid (v : Vector) (w w' : W) :
  valid v w -> blocks w' = blocks w ->
  RawMemory_dtor (data_ v) w' = Ok tt (release_of v w').
Proof.
  intros [_ Hv] Hb. unfold release_of.
  destruct v as [[buf cap] sz]. simpl in *.
  destruct buf as [|b o]; [reflexivity|].
  destruct Hv as (-> & _ & Hblk & _).
  apply (RawMemory_dtor_eq _ _ _ cap). rewrite Hb. exact Hblk.
Qed.

Lemma regrow_spec (v : Vector) (w : W) (n : Z)
      (body : ptr -> ptr -> M W unit) (P : W -> Prop) :
  valid v w -> wf_world w -> n <> 0 ->
  returns (body (buffer_ (data_ v)) (Ptr (next_block w) 0))
          (allocated w n) (fun _ w' => P w') ->
  (forall w', P w' -> blocks w' = blocks (allocated w n)) ->
  returns (regrow n body) (v, w)
          (fun _ s =>
             fst s = {| data_ := {| buffer_ := Ptr (next_block w) 0;
                                    capacity_ := n |};
                         size_ := size_ v |} /\
             exists w', P w' /\ snd s = release_of v w').
Proof.
  intros Hv Hwf Hn Hbody HP. unfold regrow.
  apply returns_bind. unfold returns at 1, this. simpl fst.
  apply returns_bind, returns_lift.
  eapply eq_returns; [apply RawMemory_new_eq, Hn|].
  apply returns_bind, returns_on_throw, returns_lift.
  eapply returns_weaken; [exact Hbody|].
  intros [] w2 Hw2. simpl.
  apply returns_bind. unfold returns at 1, set_this. simpl snd.
  apply returns_lift.
  assert (Hblk : blocks w2 = blocks (allocated w n)) by (apply HP, Hw2).
  replace {| buffer_ := buffer_ (data_ v); capacity_ := capacity_ (data_ v) |}
    with (data_ v) by (destruct v as [[? ?] ?]; reflexivity).
  assert (Hrel : RawMemory_dtor (data_ v) w2 = Ok tt (release_of v w2)).
  { unfold release_of. destruct Hv as [_ Hv].
    destruct v as [[buf cap] sz]. simpl in *.
    destruct buf as [|b o]; [reflexivity|].
    destruct Hv as (-> & _ & Hb & _).
    apply (RawMemory_dtor_eq _ _ _ cap). rewrite Hblk. simpl. unfold upd.
    destruct (Z.eqb_spec b (next_block w)) as [->|_]; [|exact Hb].
    exfalso. specialize (Hwf (next_block w)). rewrite Hb in Hwf.
    assert (next_block w < next_block w) by (apply Hwf; discriminate). lia. }
  eapply eq_returns; [exact Hrel|].
  simpl. split; [reflexivity|]. exists w2. auto.
Qed.

End GrowthStepFacts.

Section RelocatedFacts.

Context {T : Type} `{ET : Elem T} `{VS : !ValueSemantics T}.

Local Abbreviation W := (World T).

Lemma valid_block_old (v : Vector) (w : W) (b o : Z) :
  valid v w -> wf_world w -> buffer_ (data_ v) = Ptr b o ->
  o = 0 /\ b <> next_block w /\ blocks w b = Some (capacity_ (data_ v)).
Proof.
  intros [_ Hv] Hwf Hb. rewrite Hb in Hv.
  destruct Hv as (-> & _ & Hblk & _). repeat split; auto.
  intros ->. specialize (Hwf (next_block w)). rewrite Hblk in Hwf.
  assert (next_block w < next_block w) by (apply Hwf; discriminate). lia.
Qed.

Lemma valid_null (v : Vector) (w : W) :
  valid v w -> buffer_ (data_ v) = Null ->
  size_ v = 0 /\ capacity_ (data_ v) = 0.
Proof.
  intros [Hs Hv] Hb. rewrite Hb in Hv. lia.
Qed.

Lemma blocks_allocated_old (w : W) (n b : Z) :
  b <> next_block w -> blocks (allocated w n) b = blocks w b.
Proof.
  intros Hb. simpl. unfold upd.
  destruct (Z.eqb_spec b (next_block w)); [contradiction|reflexivity].
Qed.

Lemma blocks_allocated_new (w : W) (n : Z) :
  blocks (allocated w n) (next_block w) = Some n.
Proof.
  simpl. unfold upd. rewrite Z.eqb_refl. reflexivity.
Qed.

Lemma move_around_valid (v : Vector) (w w1 : W) (n p q : Z) :
  valid v w -> wf_world w ->
  fresh_buffer w n q w1 ->
  0 <= p <= size_ v -> size_ v + 1 <= n ->
  returns (move_around (buffer_ (data_ v)) (size_ v) p
                       (Ptr (next_block w) 0)) w1
          (fun _ w2 => relocated v w1 p (next_block w) w2).
Proof.
  intros Hv Hwf (Hb1 & Hn1 & Hc1 & Hraw) Hp Hn. unfold relocated.
  destruct (buffer_ (data_ v)) as [|b o] eqn:Eb.
  - destruct (valid_null v w Hv Eb) as [Hs _].
    assert (p = 0) by lia. subst p. rewrite Hs.
    eapply eq_returns; [apply move_around_nothing|reflexivity].
  - destruct (valid_block_old v w b o Hv Hwf Eb) as (-> & Hne & Hblk).
    destruct Hv as [Hs Hv]. rewrite Eb in Hv.
    destruct Hv as (_ & _ & _ & Hlive & _).
    apply (move_around_spec w1 b (size_ v) (capacity_ (data_ v)) p
                            (next_block w) n); auto; try lia.
    + rewrite Hb1, blocks_allocated_old; auto.
    + rewrite Hb1. apply blocks_allocated_new.
    + intros i Hi. rewrite Hc1 by exact Hne. apply Hlive, Hi.
Qed.

(** The new buffer after the relocation and the release of the old
    buffer. *)
Lemma relocated_buffer (v : Vector) (w w1 w2 : W) (n p q : Z) :
  valid v w -> wf_world w ->
  fresh_buffer w n q w1 ->
  0 <= p <= size_ v ->
  relocated v w1 p (next_block w) w2 ->
  let nb := next_block w in
  let w3 := release_of v w2 in
  wf_world w3 /\
  blocks w3 nb = Some n /\
  (forall i, 0 <= i < p -> cells w3 nb i = slot v w i) /\
  (forall i, p <= i < size_ v -> cells w3 nb (i + 1) = slot v w i) /\
  (forall i, ~ (0 <= i <= size_ v) \/ i = p ->
             cells w3 nb i = cells w1 nb i).
Proof.
  intros Hv Hwf (Hb1 & Hn1 & Hc1 & Hraw) Hp Hrel nb w3.
  unfold relocated in Hrel. subst w3. unfold release_of, slot.
  destruct (buffer_ (data_ v)) as [|b o] eqn:Eb.
  - destruct (valid_null v w Hv Eb) as [Hs _]. subst w2.
    repeat split.
    + intros b' Hb'. rewrite Hb1 in Hb'. rewrite Hn1. simpl in Hb'.
      unfold upd in Hb'. destruct (Z.eqb_spec b' (next_block w)); [lia|].
      specialize (Hwf b' Hb'). lia.
    + rewrite Hb1. apply blocks_allocated_new.
    + intros i Hi. lia.
    + intros i Hi. lia.
  - destruct (valid_block_old v w b o Hv Hwf Eb) as (-> & Hne & Hblk).
    destruct Hrel as (B & N & C1 & C2 & C3 & C4 & C5 & C6).
    repeat split.
    + intros b' Hb'. simpl in Hb'. unfold upd in Hb'. simpl.
      destruct (Z.eqb_spec b' b); [congruence|].
      rewrite B, Hb1 in Hb'. rewrite N, Hn1. simpl in Hb'.
      unfold upd in Hb'. destruct (Z.eqb_spec b' (next_block w)); [lia|].
      specialize (Hwf b' Hb'). lia.
    + simpl. unfold upd.
      destruct (Z.eqb_spec nb b); [subst nb; congruence|].
      rewrite B, Hb1. apply blocks_allocated_new.
    + intros i Hi. simpl. rewrite C1 by exact Hi. rewrite Hc1 by exact Hne.
      reflexivity.
    + intros i Hi. simpl. rewrite C2 by exact Hi. rewrite Hc1 by exact Hne.
      reflexivity.
    + intros i Hi. simpl. apply C3. exact Hi.
Qed.

End RelocatedFacts.

(** ** [Reserve] *)

Section ReserveSpec.

Context {T : Type} `{ET : Elem T} `{VS : !ValueSemantics T}.

Local Abbreviation W := (World T).

Lemma Reserve_regrow (n : Z) (v : Vector) (w : W) :
  Capacity v < n ->
  Reserve n (v, w) =
  regrow n (fun old new => move_around old (size_ v) (size_ v) new) (v, w).
Proof.
  intros Hn. unfold Reserve, regrow, move_around. rewrite Z.sub_diag.
  unfold bind at 1, this. cbn [fst snd]. symmetry.
  unfold bind at 1. cbn [fst snd]. symmetry.
  replace (n <=? Capacity v) with false by (symmetry; apply Z.leb_gt, Hn).
  unfold bind, on_throw, lift. cbn [fst snd].
  destruct (RawMemory_new n w) as [r w1| |]; try reflexivity.
  cbn [fst snd].
  destruct (transfer (GetAddress (data_ v)) (size_ v) (GetAddress r) w1)
    as [[] w2| |]; try reflexivity.
  cbn [fst snd]. rewrite transfer_nothing.
  destruct (destroy_n (GetAddress (data_ v)) (size_ v) w2); reflexivity.
Qed.

Lemma fresh_buffer_allocated (w : W) (n q : Z) :
  fresh_buffer w n q (allocated w n).
Proof.
  repeat split.
  - intros b i Hb. simpl.
    destruct (Z.eqb_spec b (next_block w)); [contradiction|reflexivity].
  - intros i _. simpl. rewrite Z.eqb_refl. reflexivity.
Qed.

Lemma relocated_blocks (v : Vector) (w1 w2 : W) (p nb : Z) :
  relocated v w1 p nb w2 -> blocks w2 = blocks w1.
Proof.
  unfold relocated. destruct (buffer_ (data_ v)).
  - intros ->. reflexivity.
  - intros (B & _). exact B.
Qed.

Lemma Reserve_grows (n : Z) (v : Vector) (w : W) :
  valid v w -> wf_world w -> Capacity v < n ->
  returns (Reserve n) (v, w)
          (fun _ s =>
             valid (fst s) (snd s) /\ wf_world (snd s) /\
             size_ (fst s) = size_ v /\ Capacity (fst s) = n /\
             forall i, 0 <= i < size_ v ->
                       slot (fst s) (snd s) i = slot v w i).
Proof.
  intros Hv Hwf Hn. unfold returns. rewrite Reserve_regrow by exact Hn.
  assert (Hs : 0 <= size_ v <= capacity_ (data_ v)) by apply Hv.
  unfold Capacity in Hn.
  pose proof (fresh_buffer_allocated w n (size_ v)) as Hfresh.
  pose proof (regrow_spec v w n
               (fun old new => move_around old (size_ v) (size_ v) new)
               (relocated v (allocated w n) (size_ v) (next_block w))
               Hv Hwf ltac:(lia)
               (move_around_valid v w _ n (size_ v) (size_ v)
                                  Hv Hwf Hfresh ltac:(lia) ltac:(lia))
               (fun w' H => relocated_blocks _ _ _ _ _ H)) as R.
  unfold returns in R.
  destruct (regrow _ _ (v, w)) as [[] [v' w']| |]; try contradiction.
  simpl in R. destruct R as (-> & w2 & Hrel & ->). simpl fst. simpl snd.
  destruct (relocated_buffer v w _ w2 n (size_ v) (size_ v)
                             Hv Hwf Hfresh ltac:(lia) Hrel)
    as (Hwf3 & Hblk & C1 & C2 & C3).
  destruct Hfresh as (_ & _ & _ & Hraw).
  split; [|split; [exact Hwf3|split; [reflexivity|split; [reflexivity|]]]].
  - split; simpl; [lia|]. repeat split; try lia; try exact Hblk.
    + intros i Hi. rewrite C1 by exact Hi.
      destruct Hv as [_ Hv]. unfold slot.
      destruct (buffer_ (data_ v)) as [|b o]; [lia|].
      destruct Hv as (-> & _ & _ & Hlive & _). apply Hlive, Hi.
    + intros i Hi. rewrite C3 by lia.
      destruct (Z.eq_dec i (size_ v)) as [->|Hne].
      * simpl. rewrite Z.eqb_refl. reflexivity.
      * apply Hraw. exact Hne.
  - intros i Hi. unfold slot at 1. simpl. apply C1. exact Hi.
Qed.

End ReserveSpec.

(** ** [Resize] *)

Section ResizeSpec.

Context {T : Type} `{ET : Elem T} `{VS : !ValueSemantics T}.

Local Abbreviation W := (World T).

Lemma uninitialized_value_construct_n_spec (w : W) (b o n cap : Z) (d : T) :
  (forall k, value_init k = Some d) ->
  blocks w b = Some cap -> 0 <= o -> 0 <= n -> o + n <= cap ->
  returns (uninitialized_value_construct_n (Ptr b o) n) w
          (fun _ w' =>
             frame (fun b' j => b' = b /\ o <= j < o + n) w w' /\
             forall j, o <= j < o + n -> cells w' b j = Some d).
Proof.
  intros Hd Hb Ho Hn Hcap. unfold uninitialized_value_construct_n.
  apply returns_bind. eapply eq_returns; [apply count_eq, Hn|].
  eapply returns_weaken.
  - apply (returns_uninit_loop
             (fun i w' =>
                frame (fun b' j => b' = b /\ o <= j < o + i) w w' /\
                forall j, o <= j < o + i -> cells w' b j = Some d)).
    + split; [apply frame_refl|]. intros j Hj. lia.
    + intros j w' Hj [Hf Hsome]. simpl ptr_add.
      rewrite Z2Nat.id in Hj by lia.
      assert (Hin : in_bounds w' b (o + j) = true).
      { rewrite (frame_in_bounds _ _ _ _ _ Hf).
        apply (in_bounds_iff _ _ _ _ Hb). lia. }
      eapply eq_returns; [apply (construct_value_eq _ _ _ _ _ Hin (Hd _))|].
      split.
      * eapply frame_trans.
        -- eapply frame_weaken; [exact Hf|]. simpl. intros; lia.
        -- apply frame_set_cell. lia.
      * intros i Hi. rewrite cells_set_cell.
        destruct (Z.eq_dec i (o + j)) as [->|Hne].
        -- rewrite !Z.eqb_refl. reflexivity.
        -- replace (i =? o + j) with false
             by (symmetry; apply Z.eqb_neq, Hne).
           rewrite andb_false_r. apply Hsome. lia.
  - intros [] w' [Hf Hsome]. rewrite Z2Nat.id in * by lia. auto.
Qed.

(** [Reserve] for any request: the elements stay, the capacity is the
    larger of the old capacity and the request. *)
Lemma Reserve_spec (n : Z) (v : Vector) (w : W) :
  valid v w -> wf_world w ->
  returns (Reserve n) (v, w)
          (fun _ s =>
             valid (fst s) (snd s) /\ wf_world (snd s) /\
             size_ (fst s) = size_ v /\
             Capacity (fst s) = Z.max n (Capacity v) /\
             forall i, 0 <= i < size_ v ->
                       slot (fst s) (snd s) i = slot v w i).
Proof.
  intros Hv Hwf. destruct (Z_le_gt_dec n (Capacity v)) as [Hle|Hgt].
  - eapply eq_returns; [apply Reserve_returns_at_once, Hle|].
    simpl. repeat split; auto; try apply Hv. lia.
  - eapply returns_weaken; [apply Reserve_grows; auto; lia|].
    intros [] s (H1 & H2 & H3 & H4 & H5). repeat split; auto; try apply H1.
    lia.
Qed.

End ResizeSpec.

Section ResizeTheorem.

Context {T : Type} `{ET : Elem T} `{VS : !ValueSemantics T}.

Local Abbreviation W := (World T).

Lemma valid_nonnull (v : Vector) (w : W) :
  valid v w -> 0 < capacity_ (data_ v) ->
  exists b, buffer_ (data_ v) = Ptr b 0 /\
            blocks w b = Some (capacity_ (data_ v)) /\
            (forall i, 0 <= i < size_ v -> cells w b i <> None) /\
            (forall i, size_ v <= i < capacity_ (data_ v) ->
                       cells w b i = None).
Proof.
  intros [Hs Hv] Hc. destruct (buffer_ (data_ v)) as [|b o]; [lia|].
  destruct Hv as (-> & _ & H1 & H2 & H3). exists b. auto.
Qed.

Lemma Resize_shrinks (n : Z) (v : Vector) (w : W) :
  valid v w -> 0 <= n < size_ v ->
  returns (Resize n) (v, w)
          (fun _ s =>
             fst s = {| data_ := data_ v; size_ := n |} /\
             valid (fst s) (snd s) /\
             (forall i, 0 <= i < n -> slot (fst s) (snd s) i = slot v w i) /\
             (forall i, n <= i < size_ v -> slot v (snd s) i = None) /\
             frame (fun b j => buffer_ (data_ v) = Ptr b 0 /\
                               n <= j < size_ v) w (snd s)).
Proof.
  intros Hv Hn.
  destruct (valid_nonnull v w Hv) as (b & Eb & Hblk & Hlive & Hraw);
    [destruct Hv; lia|].
  assert (Hs : 0 <= size_ v <= capacity_ (data_ v)) by apply Hv.
  unfold Resize. apply returns_bind. unfold returns at 1, this.
  cbn [fst snd].
  replace (n <? size_ v) with true by (symmetry; apply Z.ltb_lt; lia).
  apply returns_bind, returns_lift. unfold GetAddress. rewrite Eb.
  simpl ptr_add. eapply returns_weaken.
  { apply (destroy_n_spec w b (0 + n) (size_ v - n) (capacity_ (data_ v)));
      auto; try lia.
    intros j Hj. apply Hlive. lia. }
  intros [] w1 ((B & N & C) & Hnone).
  apply returns_bind. unfold returns at 1, this. cbn [fst snd].
  unfold returns, set_this. cbn [fst snd].
  split; [reflexivity|]. split; [|split; [|split]].
  - split; simpl; [lia|]. rewrite Eb. repeat split; try lia.
    + rewrite B. exact Hblk.
    + intros i Hi. rewrite C by lia. apply Hlive. lia.
    + intros i Hi. destruct (Z_lt_dec i (size_ v)).
      * apply Hnone. lia.
      * rewrite C by lia. apply Hraw. lia.
  - intros i Hi. unfold slot. simpl. rewrite Eb. apply C. lia.
  - intros i Hi. unfold slot. rewrite Eb. apply Hnone. lia.
  - repeat split; auto. intros b' j Hj. apply C.
    intros [-> Hr]. apply Hj. split; [reflexivity|lia].
Qed.

Lemma Resize_grows (n : Z) (v : Vector) (w : W) (d : T) :
  valid v w -> wf_world w -> size_ v < n -> (forall k, value_init k = Some d) ->
  returns (Resize n) (v, w)
          (fun _ s =>
             valid (fst s) (snd s) /\ wf_world (snd s) /\
             size_ (fst s) = n /\
             (forall i, 0 <= i < size_ v ->
                        slot (fst s) (snd s) i = slot v w i) /\
             (forall i, size_ v <= i < n ->
                        slot (fst s) (snd s) i = Some d)).
Proof.
  intros Hv Hwf Hn Hd.
  assert (Hs : 0 <= size_ v <= capacity_ (data_ v)) by apply Hv.
  unfold Resize. apply returns_bind. unfold returns at 1, this.
  cbn [fst snd].
  replace (n <? size_ v) with false by (symmetry; apply Z.ltb_ge; lia).
  apply returns_bind, returns_bind.
  eapply returns_weaken; [apply (Reserve_spec n v w Hv Hwf)|].
  intros [] [v1 w1] (Hv1 & Hwf1 & Hs1 & Hc1 & Hsl1). cbn [fst snd] in *.
  apply returns_bind. unfold returns at 1, this. cbn [fst snd].
  unfold Capacity in Hc1.
  destruct (valid_nonnull v1 w1 Hv1) as (b & Eb & Hblk & Hlive & Hraw);
    [lia|].
  apply returns_lift. unfold GetAddress. rewrite Eb. simpl ptr_add.
  eapply returns_weaken.
  { apply (uninitialized_value_construct_n_spec
             w1 b (0 + size_ v1) (n - size_ v1) (capacity_ (data_ v1)) d);
      auto; lia. }
  intros [] w2 ((B & N & C) & Hsome).
  apply returns_bind. unfold returns at 1, this. cbn [fst snd].
  unfold returns, set_this. cbn [fst snd].
  split; [|split; [|split; [reflexivity|split]]].
  - split; simpl; [lia|]. rewrite Eb. repeat split; try lia.
    + rewrite B. exact Hblk.
    + intros i Hi. destruct (Z_lt_dec i (size_ v1)).
      * rewrite C by lia. apply Hlive. lia.
      * rewrite Hsome by lia. discriminate.
    + intros i Hi. rewrite C by lia. apply Hraw. lia.
  - intros b' Hb'. rewrite N. apply Hwf1. rewrite <- B. exact Hb'.
  - intros i Hi. rewrite <- Hsl1 by exact Hi. unfold slot. simpl.
    rewrite Eb. apply C. lia.
  - intros i Hi. unfold slot. simpl. rewrite Eb. apply Hsome. lia.
Qed.

(** C6, for the counts the allocation can serve.  On a well-formed
    vector of elements with value semantics, [Resize(n)] returns.  For
    [n < size] the vector keeps its buffer, its length becomes [n],
    the first [n] elements are unchanged, and exactly the slots
    [n .. size) changed in the free store: their objects were
    destroyed.  For [n > size] with [n * sizeof(T)] within [size_t],
    the length becomes [n], the old elements are unchanged and the
    slots [size .. n) hold value-initialised elements. *)
Theorem Resize_truncates_or_appends_defaults
        (n : Z) (v : Vector) (w : W) (d : T) :
  valid v w -> wf_world w -> 0 <= n -> (forall k, value_init k = Some d) ->
  (n < size_ v ->
   returns (Resize n) (v, w)
           (fun _ s =>
              fst s = {| data_ := data_ v; size_ := n |} /\
              valid (fst s) (snd s) /\
              (forall i, 0 <= i < n ->
                         slot (fst s) (snd s) i = slot v w i) /\
              (forall i, n <= i < size_ v -> slot v (snd s) i = None) /\
              frame (fun b j => buffer_ (data_ v) = Ptr b 0 /\
                                n <= j < size_ v) w (snd s))) /\
  (size_ v < n -> fits_size_t n ->
   returns (Resize n) (v, w)
           (fun _ s =>
              valid (fst s) (snd s) /\
              size_ (fst s) = n /\
              (forall i, 0 <= i < size_ v ->
                         slot (fst s) (snd s) i = slot v w i) /\
              (forall i, size_ v <= i < n ->
                         slot (fst s) (snd s) i = Some d))).
Proof.
  intros Hv Hwf Hn Hd. split; [intros H|intros H _].
  - apply Resize_shrinks; [exact Hv|lia].
  - eapply returns_weaken; [apply (Resize_grows n v w d); auto|].
    intros [] s (H1 & H2 & H3 & H4 & H5). auto.
Qed.

End ResizeTheorem.

(** ** Copy assignment *)

Section CopyAssign.

Context {T : Type} `{ET : Elem T} `{VS : !ValueSemantics T}.

Local Abbreviation W := (World T).

Lemma std_copy_nothing (p d : ptr) (w : W) :
  std_copy p (ptr_add p 0) d w = Ok tt w.
Proof.
  unfold std_copy. destruct p as [|b o]; simpl.
  - reflexivity.
  - rewrite Z.eqb_refl. replace (o + 0 - o) with 0 by lia. reflexivity.
Qed.

Lemma std_copy_spec (w : W) (sb so db dst n scap dcap : Z) :
  sb <> db ->
  blocks w sb = Some scap -> blocks w db = Some dcap ->
  0 <= so -> so + n <= scap -> 0 <= dst -> dst + n <= dcap -> 0 <= n ->
  (forall j, so <= j < so + n -> cells w sb j <> None) ->
  (forall j, dst <= j < dst + n -> cells w db j <> None) ->
  returns (std_copy (Ptr sb so) (Ptr sb (so + n)) (Ptr db dst)) w
          (fun _ w' =>
             frame (fun b j => b = db /\ dst <= j < dst + n) w w' /\
             forall j, 0 <= j < n ->
                       cells w' db (dst + j) = cells w sb (so + j)).
Proof.
  intros Hne Hsb Hdb Hso Hso' Hdo Hdo' Hn Hsrc Hdst.
  unfold std_copy. simpl ptr_diff. rewrite Z.eqb_refl.
  replace (so + n - so) with n by lia.
  apply returns_bind. eapply eq_returns; [apply count_eq, Hn|].
  eapply returns_weaken.
  - apply (returns_forward_loop
             (fun i w' =>
                frame (fun b j => b = db /\ dst <= j < dst + i) w w' /\
                forall j, 0 <= j < i ->
                          cells w' db (dst + j) = cells w sb (so + j))).
    + split; [apply frame_refl|]. intros j Hj. lia.
    + intros j w' Hj [Hf Hcp]. rewrite Z2Nat.id in Hj by lia.
      simpl ptr_add.
      assert (Hbd : in_bounds w' db (dst + j) = true).
      { rewrite (frame_in_bounds _ _ _ _ _ Hf).
        apply (in_bounds_iff _ _ _ _ Hdb). lia. }
      assert (Hbs : in_bounds w' sb (so + j) = true).
      { rewrite (frame_in_bounds _ _ _ _ _ Hf).
        apply (in_bounds_iff _ _ _ _ Hsb). lia. }
      destruct Hf as (B & N & C).
      destruct (cells w sb (so + j)) as [x|] eqn:Ex;
        [|exfalso; apply (Hsrc (so + j)); [lia|exact Ex]].
      destruct (cells w db (dst + j)) as [d|] eqn:Ed;
        [|exfalso; apply (Hdst (dst + j)); [lia|exact Ed]].
      assert (Hx : cells w' sb (so + j) = Some x)
        by (rewrite C by lia; exact Ex).
      assert (Hd : cells w' db (dst + j) = Some d)
        by (rewrite C by lia; exact Ed).
      eapply eq_returns;
        [apply (assign_copy_eq _ _ _ _ _ _ _ _ Hbd Hbs Hx Hd
                               (vs_copy_assign d x))|].
      split.
      * repeat split; auto. intros b' i Hi.
        rewrite cells_set_cell_other.
        -- simpl. apply C. lia.
        -- destruct (Z.eq_dec b' db); [|auto].
           destruct (Z.eq_dec i (dst + j)); [|auto]. exfalso. lia.
      * intros i Hi. destruct (Z.eq_dec i j) as [->|Hij].
        -- rewrite cells_set_cell_same. symmetry. exact Ex.
        -- rewrite cells_set_cell_other by lia. simpl. apply Hcp. lia.
  - intros [] w' H. rewrite Z2Nat.id in H by lia. exact H.
Qed.

End CopyAssign.

Section CopyAssignTheorem.

Context {T : Type} `{ET : Elem T} `{VS : !ValueSemantics T}.

Local Abbreviation W := (World T).

Lemma copy_prefix (rhs v : Vector) (w : W) (b : Z) :
  valid v w -> valid rhs w ->
  buffer_ (data_ v) = Ptr b 0 ->
  buffer_ (data_ rhs) <> buffer_ (data_ v) ->
  size_ rhs <= size_ v ->
  returns (std_copy (GetAddress (data_ rhs))
                    (ptr_add (GetAddress (data_ rhs)) (size_ rhs))
                    (GetAddress (data_ v))) w
          (fun _ w' =>
             frame (fun b' j => b' = b /\ 0 <= j < size_ rhs) w w' /\
             forall j, 0 <= j < size_ rhs -> cells w' b j = slot rhs w j).
Proof.
  intros Hv Hr Eb Hne Hsz. unfold GetAddress, slot.
  assert (Hs : 0 <= size_ v <= capacity_ (data_ v)) by apply Hv.
  destruct (valid_nonnull v w Hv) as (b' & Eb' & Hblk & Hlive & Hraw).
  { destruct Hv as [_ Hv]. rewrite Eb in Hv. lia. }
  rewrite Eb in Eb'. inversion Eb'. subst b'. clear Eb'.
  rewrite Eb. destruct (buffer_ (data_ rhs)) as [|rb ro] eqn:Er.
  - destruct (valid_null rhs w Hr Er) as [H0 _]. rewrite H0.
    eapply eq_returns; [apply (std_copy_nothing Null)|].
    split; [apply frame_refl|]. intros j Hj. lia.
  - assert (Hrs : 0 <= size_ rhs <= capacity_ (data_ rhs)) by apply Hr.
    destruct Hr as [_ Hr]. rewrite Er in Hr.
    destruct Hr as (-> & Hc & Hrblk & Hrlive & _).
    assert (rb <> b) by (intros ->; apply Hne; rewrite Eb; reflexivity).
    simpl ptr_add. eapply returns_weaken.
    { apply (std_copy_spec w rb 0 b 0 (size_ rhs)
                           (capacity_ (data_ rhs)) (capacity_ (data_ v)));
        auto; try lia.
      intros j Hj. apply Hlive. lia. }
    intros [] w1 [Hf Hcp]. split; [exact Hf|].
    intros j Hj. replace j with (0 + j) at 1 by lia. rewrite Hcp by lia.
    reflexivity.
Qed.

(** C8.  Copy assignment from a source that is strictly shorter than
    the target (so it fits in the target's capacity), on elements with
    value semantics: the call returns, the target keeps its buffer,
    its length becomes the source's, its element at every position
    below that length equals the source's, and the objects of the
    excess tail were destroyed. *)
Theorem copy_assignment_from_shorter (rhs v : Vector) (w : W) :
  valid v w -> valid rhs w ->
  buffer_ (data_ rhs) <> buffer_ (data_ v) ->
  size_ rhs < size_ v ->
  returns (copy_assignment (Other rhs)) (v, w)
          (fun _ s =>
             fst s = {| data_ := data_ v; size_ := size_ rhs |} /\
             valid (fst s) (snd s) /\
             Size (fst s) = Size rhs /\
             (forall i, 0 <= i < size_ rhs ->
                        slot (fst s) (snd s) i = slot rhs w i) /\
             (forall i, size_ rhs <= i < size_ v ->
                        slot v (snd s) i = None)).
Proof.
  intros Hv Hr Hne Hsz.
  assert (Hs : 0 <= size_ v <= capacity_ (data_ v)) by apply Hv.
  assert (Hrs : 0 <= size_ rhs <= capacity_ (data_ rhs)) by apply Hr.
  destruct (valid_nonnull v w Hv) as (b & Eb & Hblk & Hlive & Hraw); [lia|].
  unfold copy_assignment. apply returns_bind. unfold returns at 1, this.
  cbn [fst snd]. unfold Capacity.
  replace (capacity_ (data_ v) <? size_ rhs) with false
    by (symmetry; apply Z.ltb_ge; lia).
  replace (size_ v <=? size_ rhs) with false
    by (symmetry; apply Z.leb_gt; lia).
  apply returns_bind, returns_bind, returns_lift.
  eapply returns_weaken;
    [apply (copy_prefix rhs v w b Hv Hr Eb Hne); lia|].
  intros [] w1 ((B & N & C) & Hcp).
  apply returns_lift. unfold GetAddress. rewrite Eb. simpl ptr_add.
  eapply returns_weaken.
  { apply (destroy_n_spec w1 b (0 + size_ rhs) (size_ v - size_ rhs)
                          (capacity_ (data_ v))); auto; try lia.
    - rewrite B. exact Hblk.
    - intros j Hj. rewrite C by lia. apply Hlive. lia. }
  intros [] w2 ((B2 & N2 & C2) & Hnone).
  unfold returns, set_this. cbn [fst snd].
  split; [reflexivity|]. split; [|split; [reflexivity|split]].
  - split; simpl; [lia|]. rewrite Eb. repeat split; try lia.
    + rewrite B2, B. exact Hblk.
    + intros i Hi. rewrite C2 by lia. rewrite Hcp by lia.
      destruct Hr as [_ Hr]. unfold slot.
      destruct (buffer_ (data_ rhs)) as [|rb ro]; [lia|].
      destruct Hr as (-> & _ & _ & Hrl & _). apply Hrl. lia.
    + intros i Hi. destruct (Z_lt_dec i (size_ v)).
      * apply Hnone. lia.
      * rewrite C2 by lia. rewrite C by lia. apply Hraw. lia.
  - intros i Hi. unfold slot at 1. simpl. rewrite Eb. simpl.
    rewrite C2 by lia. apply Hcp. exact Hi.
  - intros i Hi. unfold slot. rewrite Eb. apply Hnone. lia.
Qed.

End CopyAssignTheorem.

(** ** Growth with a new element *)

Section AfterArg.

Context {T : Type} `{ET : Elem T}.

Local Abbreviation W := (World T).

Lemma blocks_after_arg (a : Arg T) (w : W) :
  blocks (after_arg a w) = blocks w.
Proof.
  destruct a; try reflexivity. apply blocks_move_constructed.
Qed.

Lemma cells_after_arg (a : Arg T) (w : W) :
  cells (after_arg a w) = cells w.
Proof.
  destruct a; try reflexivity. apply cells_move_constructed.
Qed.

Lemma next_block_after_arg (a : Arg T) (w : W) :
  next_block (after_arg a w) = next_block w.
Proof.
  destruct a; try reflexivity. apply next_block_move_constructed.
Qed.

End AfterArg.

Ltac after_arg_done :=
  cbn [blocks next_block cells set_cell];
  rewrite ?blocks_after_arg, ?next_block_after_arg, ?cells_after_arg;
  reflexivity.

Section GrowInsert.

Context {T : Type} `{ET : Elem T} `{VS : !ValueSemantics T}.

Local Abbreviation W := (World T).

Lemma construct_arg_eq (a : Arg T) (x : T) (w : W) :
  arg_value a = Some x -> construct_arg a w = Ok x (after_arg a w).
Proof.
  destruct a as [y|y|p|r]; simpl; intros H; inversion H; subst.
  - unfold bind. rewrite vs_copy. reflexivity.
  - unfold bind. destruct (vs_move x) as [x' ->]. simpl.
    rewrite count_move_construct_eq. reflexivity.
  - reflexivity.
Qed.


Lemma in_bounds_after_arg (a : Arg T) (w : W) b i :
  in_bounds (after_arg a w) b i = in_bounds w b i.
Proof. unfold in_bounds. rewrite blocks_after_arg. reflexivity. Qed.

Lemma construct_from_eq (a : Arg T) (x : T) (w : W) (b i : Z) :
  in_bounds w b i = true -> arg_value a = Some x ->
  construct_from (Ptr b i) a w =
  Ok tt (set_cell (after_arg a w) b i (Some x)).
Proof.
  intros Hin Ha. unfold construct_from, bind.
  rewrite (storage_eq _ _ _ Hin), (construct_arg_eq a x w Ha).
  apply store_eq. rewrite in_bounds_after_arg. exact Hin.
Qed.

Lemma fresh_buffer_constructed (a : Arg T) (x : T) (w : W) (n p : Z) :
  fresh_buffer w n p
               (set_cell (after_arg a (allocated w n)) (next_block w) p
                         (Some x)).
Proof.
  repeat split.
  - cbn [blocks set_cell]. rewrite blocks_after_arg. reflexivity.
  - cbn [next_block set_cell]. rewrite next_block_after_arg. reflexivity.
  - intros b i Hb. rewrite cells_set_cell_other by auto.
    rewrite cells_after_arg. simpl.
    destruct (Z.eqb_spec b (next_block w)); [contradiction|reflexivity].
  - intros i Hi. rewrite cells_set_cell_other by auto.
    rewrite cells_after_arg. simpl. rewrite Z.eqb_refl. reflexivity.
Qed.

Lemma relocate_spec (v : Vector) (w : W) (n p : Z) (a : Arg T) (x : T) :
  valid v w -> wf_world w ->
  0 <= p <= size_ v -> size_ v + 1 <= n ->
  arg_value a = Some x ->
  returns (relocate (size_ v) p a (buffer_ (data_ v))
                    (Ptr (next_block w) 0))
          (allocated w n)
          (fun _ w2 =>
             relocated v (set_cell (after_arg a (allocated w n))
                                   (next_block w) p (Some x))
                       p (next_block w) w2).
Proof.
  intros Hv Hwf Hp Hn Ha. unfold relocate. apply returns_bind.
  simpl ptr_add.
  assert (Hin : in_bounds (allocated w n) (next_block w) (0 + p) = true).
  { apply (in_bounds_iff _ _ _ _ (blocks_allocated_new w n)). lia. }
  eapply eq_returns; [apply (construct_from_eq a x _ _ _ Hin Ha)|].
  replace (0 + p) with p by lia.
  apply (move_around_valid v w _ n p p Hv Hwf
                           (fresh_buffer_constructed a x w n p) Hp Hn).
Qed.

Lemma regrow_relocate_spec (v : Vector) (w : W) (n p : Z) (a : Arg T)
      (x : T) :
  valid v w -> wf_world w ->
  0 <= p <= size_ v -> size_ v + 1 <= n ->
  arg_value a = Some x ->
  returns (regrow n (relocate (size_ v) p a)) (v, w)
          (fun _ s =>
             let v' := {| data_ := data_ (fst s); size_ := size_ v + 1 |} in
             fst s = {| data_ := {| buffer_ := Ptr (next_block w) 0;
                                    capacity_ := n |};
                        size_ := size_ v |} /\
             valid v' (snd s) /\ wf_world (snd s) /\
             (forall i, 0 <= i < p -> slot v' (snd s) i = slot v w i) /\
             slot v' (snd s) p = Some x /\
             (forall i, p <= i < size_ v ->
                        slot v' (snd s) (i + 1) = slot v w i)).
Proof.
  intros Hv Hwf Hp Hn Ha.
  assert (Hs : 0 <= size_ v <= capacity_ (data_ v)) by apply Hv.
  pose proof (fresh_buffer_constructed a x w n p) as Hfresh.
  eapply returns_weaken.
  { apply (regrow_spec v w n (relocate (size_ v) p a) _ Hv Hwf
                       ltac:(lia) (relocate_spec v w n p a x Hv Hwf Hp Hn Ha)).
    intros w' H. rewrite (relocated_blocks _ _ _ _ _ H).
    after_arg_done. }
  intros [] [v' w'] (Ev & w2 & Hrel & Ew). cbn [fst snd] in *. subst v' w'.
  destruct (relocated_buffer v w _ w2 n p p Hv Hwf Hfresh Hp Hrel)
    as (Hwf3 & Hblk & C1 & C2 & C3).
  destruct Hfresh as (_ & _ & _ & Hraw).
  assert (Hx : cells (release_of v w2) (next_block w) p = Some x).
  { rewrite C3 by auto. apply cells_set_cell_same. }
  split; [reflexivity|]. split; [|split; [exact Hwf3|split; [|split]]].
  - split; simpl; [lia|]. repeat split; try lia; try exact Hblk.
    + intros i Hi. destruct (Z_lt_dec i p); [|destruct (Z.eq_dec i p)].
      * rewrite C1 by lia.
        destruct Hv as [_ Hv]. unfold slot.
        destruct (buffer_ (data_ v)) as [|b o]; [lia|].
        destruct Hv as (-> & _ & _ & Hlive & _). apply Hlive. lia.
      * subst i. rewrite Hx. discriminate.
      * replace i with (i - 1 + 1) by lia. rewrite C2 by lia.
        destruct Hv as [_ Hv]. unfold slot.
        destruct (buffer_ (data_ v)) as [|b o]; [lia|].
        destruct Hv as (-> & _ & _ & Hlive & _). apply Hlive. lia.
    + intros i Hi. rewrite C3 by lia. apply Hraw. lia.
  - intros i Hi. unfold slot at 1. simpl. apply C1. exact Hi.
  - unfold slot. simpl. exact Hx.
  - intros i Hi. unfold slot at 1. simpl. apply C2. exact Hi.
Qed.

End GrowInsert.

(** ** [PushBack] and [EmplaceBack] *)

Section PushSpec.

Context {T : Type} `{ET : Elem T} `{VS : !ValueSemantics T}.

Local Abbreviation W := (World T).

Lemma PushBack_regrow (a : Arg T) (v : Vector) (w : W) :
  Capacity v <= size_ v ->
  PushBack a (v, w) =
  (regrow (if size_ v =? 0 then 1 else size_ v * 2)
          (relocate (size_ v) (size_ v) a) ;;
   v' <- this ;;
   set_this {| data_ := data_ v'; size_ := size_ v' + 1 |}) (v, w).
Proof.
  intros Hn. unfold PushBack, regrow, relocate, move_around.
  rewrite Z.sub_diag.
  unfold bind at 1, this at 1. cbn [fst snd]. symmetry.
  unfold bind at 1 2, this at 1. cbn [fst snd]. symmetry.
  replace (Capacity v <=? size_ v) with true by (symmetry; apply Z.leb_le, Hn).
  unfold bind at 1. symmetry. unfold bind at 1. symmetry.
  unfold bind, on_throw, lift. cbn [fst snd].
  destruct (RawMemory_new _ w) as [r w1| |]; try reflexivity.
  cbn [fst snd].
  destruct (construct_from _ a w1) as [[] w2| |]; try reflexivity.
  cbn [fst snd].
  destruct (transfer (GetAddress (data_ v)) (size_ v) (GetAddress r) w2)
    as [[] w3| |]; try reflexivity.
  cbn [fst snd]. rewrite transfer_nothing.
  destruct (destroy_n (GetAddress (data_ v)) (size_ v) w3); reflexivity.
Qed.

Lemma PushBack_spec (a : Arg T) (x : T) (v : Vector) (w : W) :
  valid v w -> wf_world w -> arg_value a = Some x ->
  returns (PushBack a) (v, w)
          (fun _ s =>
             valid (fst s) (snd s) /\ wf_world (snd s) /\
             size_ (fst s) = size_ v + 1 /\
             (forall i, 0 <= i < size_ v ->
                        slot (fst s) (snd s) i = slot v w i) /\
             slot (fst s) (snd s) (size_ v) = Some x).
Proof.
  intros Hv Hwf Ha.
  assert (Hs : 0 <= size_ v <= capacity_ (data_ v)) by apply Hv.
  destruct (Z_le_gt_dec (Capacity v) (size_ v)) as [Hfull|Hroom].
  - unfold returns. rewrite PushBack_regrow by exact Hfull.
    fold (returns
            (regrow (if size_ v =? 0 then 1 else size_ v * 2)
                    (relocate (size_ v) (size_ v) a) ;;
             v' <- this ;;
             set_this {| data_ := data_ v'; size_ := size_ v' + 1 |})
            (v, w)
            (fun _ s =>
               valid (fst s) (snd s) /\ wf_world (snd s) /\
               size_ (fst s) = size_ v + 1 /\
               (forall i, 0 <= i < size_ v ->
                          slot (fst s) (snd s) i = slot v w i) /\
               slot (fst s) (snd s) (size_ v) = Some x)).
    apply returns_bind. eapply returns_weaken.
    { apply (regrow_relocate_spec
               v w (if size_ v =? 0 then 1 else size_ v * 2) (size_ v) a x);
        auto; try lia.
      destruct (Z.eqb_spec (size_ v) 0); lia. }
    intros [] [v1 w1] (Ev & Hv1 & Hwf1 & C1 & C2 & _).
    cbn [fst snd] in *. subst v1. simpl in *.
    apply returns_bind. unfold returns at 1, this. cbn [fst snd].
    unfold returns, set_this. cbn [fst snd]. simpl. auto.
  - unfold Capacity in Hroom.
    destruct (valid_nonnull v w Hv) as (b & Eb & Hblk & Hlive & Hraw); [lia|].
    unfold PushBack. apply returns_bind. unfold returns at 1, this.
    cbn [fst snd]. unfold Capacity.
    replace (capacity_ (data_ v) <=? size_ v) with false
      by (symmetry; apply Z.leb_gt; lia).
    apply returns_bind, returns_lift. unfold GetAddress. rewrite Eb.
    simpl ptr_add.
    assert (Hin : in_bounds w b (0 + size_ v) = true).
    { apply (in_bounds_iff _ _ _ _ Hblk). lia. }
    eapply eq_returns; [apply (construct_from_eq a x _ _ _ Hin Ha)|].
    apply returns_bind. unfold returns at 1, this. cbn [fst snd].
    unfold returns, set_this. cbn [fst snd].
    assert (Hc : forall i, i <> size_ v ->
                 cells (set_cell (after_arg a w) b (0 + size_ v) (Some x)) b i
                 = cells w b i).
    { intros i Hi. rewrite cells_set_cell_other by lia.
      rewrite cells_after_arg. reflexivity. }
    assert (Hx : cells (set_cell (after_arg a w) b (0 + size_ v) (Some x))
                       b (size_ v) = Some x).
    { replace (size_ v) with (0 + size_ v) at 2 by lia.
      apply cells_set_cell_same. }
    assert (Hbk : blocks (set_cell (after_arg a w) b (0 + size_ v) (Some x))
                  = blocks w) by after_arg_done.
    assert (Hnx : next_block
                    (set_cell (after_arg a w) b (0 + size_ v) (Some x))
                  = next_block w) by after_arg_done.
    generalize dependent (set_cell (after_arg a w) b (0 + size_ v) (Some x)).
    intros w1 Hc Hx Hbk Hnx.
    split; [|split; [|split; [reflexivity|split]]].
    + split; simpl; [lia|]. rewrite Eb. repeat split; try lia.
      * rewrite Hbk. exact Hblk.
      * intros i Hi. destruct (Z.eq_dec i (size_ v)) as [->|Hne].
        -- rewrite Hx. discriminate.
        -- rewrite Hc by exact Hne. apply Hlive. lia.
      * intros i Hi. rewrite Hc by lia. apply Hraw. lia.
    + intros b' Hb'. rewrite Hnx. apply Hwf. rewrite <- Hbk. exact Hb'.
    + intros i Hi. unfold slot. simpl. rewrite Eb. apply Hc. lia.
    + unfold slot. simpl. rewrite Eb. exact Hx.
Qed.

Lemma EmplaceBack_PushBack (a : Arg T) (s : Vector * W) :
  EmplaceBack a s =
  (PushBack a ;;
   v <- this ;;
   lift (RawMemory_index (data_ v) (size_ v - 1))) s.
Proof.
  unfold EmplaceBack, PushBack.
  rewrite bind_assoc. apply bind_ext. intros v s1.
  rewrite bind_assoc. apply bind_ext. intros [] s2.
  unfold bind, this, set_this, lift. cbn [fst snd]. simpl size_.
  rewrite Z.add_simpl_r. reflexivity.
Qed.

End PushSpec.

(** ** Sequences of pushes return *)

Section PushesReturn.

Context {T : Type} `{ET : Elem T} `{VS : !ValueSemantics T}.

Local Abbreviation W := (World T).

Lemma constructs_value (a : Arg T) :
  constructs a -> exists x, arg_value a = Some x.
Proof.
  destruct a as [x|x|p|[x|]]; simpl; intros H; eauto; contradiction.
Qed.

Lemma do_push_spec (p : Push) (v : Vector) (w : W) :
  valid v w -> wf_world w -> push_constructs p ->
  returns (do_push p) (v, w)
          (fun _ s => valid (fst s) (snd s) /\ wf_world (snd s)).
Proof.
  intros Hv Hwf Hp. destruct p as [a|a]; simpl in *;
    destruct (constructs_value a Hp) as [x Hx].
  - eapply returns_weaken; [apply (PushBack_spec a x v w Hv Hwf Hx)|].
    intros [] s (H1 & H2 & _). auto.
  - apply returns_bind. unfold returns at 1.
    rewrite EmplaceBack_PushBack.
    fold (returns
            (PushBack a ;; v0 <- this ;;
             lift (RawMemory_index (data_ v0) (size_ v0 - 1))) (v, w)
            (fun a0 s' =>
               returns (ret tt) s'
                       (fun _ s => valid (fst s) (snd s) /\
                                   wf_world (snd s)))).
    apply returns_bind.
    eapply returns_weaken; [apply (PushBack_spec a x v w Hv Hwf Hx)|].
    intros [] [v1 w1] (H1 & H2 & _). cbn [fst snd] in *.
    apply returns_bind. unfold returns at 1, this. cbn [fst snd].
    apply returns_lift. unfold returns, RawMemory_index.
    replace (size_ v1 - 1 <? capacity_ (data_ v1)) with true
      by (symmetry; apply Z.ltb_lt; destruct H1; lia).
    simpl. auto.
Qed.

Lemma pushes_return (ps : list Push) :
  forall (v : Vector) (w : W),
    valid v w -> wf_world w -> Forall push_constructs ps ->
    returns (pushes ps) (v, w) (fun _ _ => True).
Proof.
  induction ps as [|p ps IH]; intros v w Hv Hwf Hps.
  - exact I.
  - inversion Hps as [|? ? Hp Hps']. subst. simpl pushes.
    apply returns_bind. unfold returns at 1, this. cbn [fst snd].
    apply returns_bind.
    eapply returns_weaken; [apply (do_push_spec p v w Hv Hwf Hp)|].
    intros [] [v1 w1] [Hv1 Hwf1]. cbn [fst snd] in *.
    apply returns_bind. unfold returns at 1, this. cbn [fst snd].
    apply returns_bind.
    eapply returns_weaken; [apply (IH v1 w1 Hv1 Hwf1 Hps')|].
    intros rest s _. exact I.
Qed.

End PushesReturn.

Section PushesTheorem.

Context {T : Type} `{ET : Elem T}.

Lemma valid_default (w : World T) : valid Vector_default w.
Proof.
  split; simpl; [lia|reflexivity].
Qed.

Lemma wf_empty_world : wf_world (@empty_world T).
Proof.
  intros b H. contradiction H. reflexivity.
Qed.

(** C1.  Start from a default-constructed vector and make any
    sequence of [PushBack] and [EmplaceBack] calls.  If the calls
    return, the final length is the number of calls, and each call
    that found no spare capacity left the capacity at
    [max(1, 2 * previous capacity)], each other call left it
    unchanged.  On elements with value semantics, with arguments whose
    constructor does not throw, the calls do return. *)
Theorem pushes_length_and_growth (ps : list Push) (w : World T) :
  (forall log v' w',
      pushes ps (Vector_default, w) = Ok log (v', w') ->
      Size v' = Z.of_nat (length ps) /\ Forall growth_policy log) /\
  (ValueSemantics T -> wf_world w -> Forall push_constructs ps ->
   exists log v' w', pushes ps (Vector_default, w) = Ok log (v', w')).
Proof.
  split.
  - intros log v' w' H.
    assert (Hd : shaped (Vector_default : Vector)).
    { split; [unfold length_within_capacity, Capacity; simpl; lia|exact I]. }
    destruct (pushes_fields ps Vector_default w log v' w' Hd H) as [H1 H2].
    split; [exact H1|exact H2].
  - intros VS Hwf Hps.
    pose proof (pushes_return ps Vector_default w (valid_default w) Hwf Hps)
      as R.
    apply returns_eq in R. destruct R as (log & [v' w'] & E & _).
    exists log, v', w'. exact E.
Qed.

End PushesTheorem.

Lemma pushes_length_and_growth_witness :
  exists log v' w',
    pushes [ByPushBack (CopyOf 1); ByEmplaceBack (CopyOf 2);
            ByPushBack (CopyOf 3)]
           (Vector_default, empty_world) = Ok log (v', w') /\
    Size v' = 3 /\ Forall growth_policy log.
Proof.
  destruct (pushes_length_and_growth
              [ByPushBack (CopyOf 1); ByEmplaceBack (CopyOf 2);
               ByPushBack (CopyOf 3)] (@empty_world Z)) as [HA HB].
  destruct (HB int_value_semantics wf_empty_world) as (log & v' & w' & E).
  - repeat constructor.
  - exists log, v', w'. split; [exact E|]. exact (HA log v' w' E).
Defined.

(** ** Shifts inside the buffer *)

Section Shifts.

Context {T : Type} `{ET : Elem T} `{VS : !ValueSemantics T}.

Local Abbreviation W := (World T).

Variables (w : W) (b cap : Z).
Hypothesis Hblk : blocks w b = Some cap.

Lemma shift_step (w' : W) (d s : Z) :
  blocks w' = blocks w ->
  0 <= d < cap -> 0 <= s < cap ->
  cells w' b d <> None -> cells w' b s <> None ->
  exists (x x' : T) (w0 : W),
    cells w' b s = Some x /\
    blocks w0 = blocks w' /\ next_block w0 = next_block w' /\
    cells w0 = cells w' /\
    assign_move (Ptr b d) (Ptr b s) w' =
    Ok tt (set_cell (set_cell w0 b s (Some x')) b d (Some x)).
Proof.
  intros B Hd Hs Ld Ls.
  assert (Hbd : in_bounds w' b d = true).
  { unfold in_bounds. rewrite B, Hblk. apply andb_true_iff.
    rewrite Z.leb_le, Z.ltb_lt. lia. }
  assert (Hbs : in_bounds w' b s = true).
  { unfold in_bounds. rewrite B, Hblk. apply andb_true_iff.
    rewrite Z.leb_le, Z.ltb_lt. lia. }
  destruct (cells w' b s) as [x|] eqn:Ex; [|contradiction].
  destruct (cells w' b d) as [y|] eqn:Ey; [|contradiction].
  destruct (vs_move_assign y x) as [x' Hm].
  exists x, x', (move_assigned w'). split; [reflexivity|].
  split; [apply blocks_move_assigned|].
  split; [apply next_block_move_assigned|].
  split; [apply cells_move_assigned|].
  apply (assign_move_eq _ _ _ _ _ _ _ _ _ Hbd Hbs Ex Ey Hm).
Qed.

Lemma std_move_spec (k e : Z) :
  0 <= k < e -> e <= cap ->
  (forall j, k <= j < e -> cells w b j <> None) ->
  returns (std_move (Ptr b (k + 1)) (Ptr b e) (Ptr b k)) w
          (fun _ w' => shift_down_inv w b k (e - 1 - k) w').
Proof.
  intros Hk He Hlive. unfold std_move. simpl ptr_diff. rewrite Z.eqb_refl.
  apply returns_bind. eapply eq_returns; [apply count_eq; lia|].
  eapply returns_weaken.
  - apply (returns_forward_loop (shift_down_inv w b k)).
    + split; [apply frame_refl|]. split; [intros; lia|].
      rewrite Z.add_0_r. apply Hlive. lia.
    + intros i w' Hi ((B & N & C) & Hsh & Hlast).
      rewrite Z2Nat.id in Hi by lia. simpl ptr_add.
      destruct (shift_step w' (k + i) (k + 1 + i))
        as (x & x' & w0 & Ex & B0 & N0 & C0 & Eq); auto; try lia.
      { rewrite C by lia. apply Hlive. lia. }
      eapply eq_returns; [exact Eq|].
      rewrite <- C0 in C, Hsh, Hlast, Ex.
      rewrite <- B0 in B. rewrite <- N0 in N.
      split; [|split].
      * repeat split; auto. intros b' j Hj.
        rewrite !cells_set_cell_other.
        -- apply C. lia.
        -- destruct (Z.eq_dec b' b); [|auto].
           destruct (Z.eq_dec j (k + 1 + i)); [|auto]. exfalso. lia.
        -- destruct (Z.eq_dec b' b); [|auto].
           destruct (Z.eq_dec j (k + i)); [|auto]. exfalso. lia.
      * intros j Hj. destruct (Z.eq_dec j (k + i)) as [->|Hne].
        -- rewrite cells_set_cell_same. rewrite <- Ex.
           rewrite C by lia. f_equal. lia.
        -- rewrite !cells_set_cell_other by lia. apply Hsh. lia.
      * replace (k + (i + 1)) with (k + 1 + i) by lia.
        rewrite cells_set_cell_other by lia.
        rewrite cells_set_cell_same. discriminate.
  - intros [] w' H. rewrite Z2Nat.id in H by lia.
    replace (0 + (e - (k + 1))) with (e - 1 - k) in H by lia. exact H.
Qed.

Lemma std_move_backward_spec (k e : Z) :
  0 <= k < e -> e <= cap ->
  (forall j, k <= j < e -> cells w b j <> None) ->
  returns (std_move_backward (Ptr b k) (Ptr b (e - 1)) (Ptr b e)) w
          (fun _ w' => shift_up_inv w b e (e - 1 - k) w').
Proof.
  intros Hk He Hlive. unfold std_move_backward. simpl ptr_diff.
  rewrite Z.eqb_refl.
  apply returns_bind. eapply eq_returns; [apply count_eq; lia|].
  eapply returns_weaken.
  - apply (returns_backward_loop (fun j w' => shift_up_inv w b e (j - 1) w')).
    + split; [apply frame_refl|]. split; [intros; lia|].
      apply Hlive. lia.
    + intros i w' Hi ((B & N & C) & Hsh & Hlast).
      rewrite Z2Nat.id in Hi by lia. simpl ptr_add.
      destruct (shift_step w' (e + - i) (e - 1 + - i))
        as (x & x' & w0 & Ex & B0 & N0 & C0 & Eq); auto; try lia.
      { replace (e + - i) with (e - 1 - (i - 1)) by lia. exact Hlast. }
      { rewrite C by lia. apply Hlive. lia. }
      eapply eq_returns; [exact Eq|].
      rewrite <- C0 in C, Hsh, Hlast, Ex.
      rewrite <- B0 in B. rewrite <- N0 in N.
      split; [|split].
      * repeat split; auto. intros b' j Hj.
        rewrite !cells_set_cell_other.
        -- apply C. lia.
        -- destruct (Z.eq_dec b' b); [|auto].
           destruct (Z.eq_dec j (e - 1 + - i)); [|auto]. exfalso. lia.
        -- destruct (Z.eq_dec b' b); [|auto].
           destruct (Z.eq_dec j (e + - i)); [|auto]. exfalso. lia.
      * intros j Hj. destruct (Z.eq_dec j (e + - i)) as [->|Hne].
        -- rewrite cells_set_cell_same. rewrite <- Ex.
           rewrite C by lia. f_equal. lia.
        -- rewrite !cells_set_cell_other by lia. apply Hsh. lia.
      * replace (e - 1 - (i + 1 - 1)) with (e - 1 + - i) by lia.
        rewrite cells_set_cell_other by lia.
        rewrite cells_set_cell_same. discriminate.
  - intros [] w' H. rewrite Z2Nat.id in H by lia.
    replace (1 + (e - 1 - k) - 1) with (e - 1 - k) in H by lia. exact H.
Qed.

End Shifts.

(** ** [Erase] *)

Section EraseSpec.

Context {T : Type} `{ET : Elem T} `{VS : !ValueSemantics T}.

Local Abbreviation W := (World T).

Lemma to_int_in_range (z : Z) : 0 <= z <= INT_MAX -> to_int z = z.
Proof.
  unfold to_int, INT_MAX. intros H.
  rewrite Z.mod_small by lia. lia.
Qed.

Lemma Erase_spec (k : Z) (v : Vector) (w : W) :
  valid v w -> 0 <= k < size_ v -> k <= INT_MAX ->
  returns (Erase (ptr_add (begin v) k)) (v, w)
          (fun r s =>
             r = ptr_add (begin (fst s)) k /\
             fst s = {| data_ := data_ v; size_ := size_ v - 1 |} /\
             valid (fst s) (snd s) /\
             blocks (snd s) = blocks w /\
             next_block (snd s) = next_block w /\
             (forall i, 0 <= i < k -> slot (fst s) (snd s) i = slot v w i) /\
             (forall i, k <= i < size_ v - 1 ->
                        slot (fst s) (snd s) i = slot v w (i + 1))).
Proof.
  intros Hv Hk Hint.
  assert (Hs : 0 <= size_ v <= capacity_ (data_ v)) by apply Hv.
  destruct (valid_nonnull v w Hv) as (b & Eb & Hblk & Hlive & Hraw); [lia|].
  unfold Erase. apply returns_bind. unfold returns at 1, this.
  cbn [fst snd]. unfold begin, end_, GetAddress. rewrite Eb.
  cbn [ptr_add ptr_diff]. rewrite Z.eqb_refl.
  replace (0 + k - 0) with k by lia.
  rewrite (to_int_in_range k) by lia.
  apply returns_bind, returns_lift.
  replace (0 + k + 1) with (k + 1) by lia.
  replace (0 + k) with k by lia. replace (0 + size_ v) with (size_ v) by lia.
  eapply returns_weaken.
  { apply (std_move_spec w b (capacity_ (data_ v)) Hblk k (size_ v));
      auto; try lia.
    intros j Hj. apply Hlive. lia. }
  intros [] w1 ((B & N & C) & Hsh & Hlast).
  replace (k + (size_ v - 1 - k)) with (size_ v - 1) in Hlast by lia.
  apply returns_bind, returns_lift.
  assert (Hin : in_bounds w1 b (size_ v + -1) = true).
  { unfold in_bounds. rewrite B, Hblk. apply andb_true_iff.
    rewrite Z.leb_le, Z.ltb_lt. lia. }
  replace (size_ v - 1) with (size_ v + -1) in Hlast by lia.
  destruct (cells w1 b (size_ v + -1)) as [y|] eqn:Ey; [|contradiction].
  eapply eq_returns; [apply (destroy_at_eq _ _ _ _ Hin Ey)|].
  apply returns_bind. unfold returns at 1, set_this. cbn [fst snd].
  apply returns_bind. unfold returns at 1, this. cbn [fst snd].
  unfold returns, ret. cbn [fst snd]. simpl data_. rewrite Eb.
  split; [simpl; f_equal; lia|]. split; [reflexivity|].
  assert (Hc : forall i, i <> size_ v - 1 ->
               cells (set_cell w1 b (size_ v + -1) None) b i = cells w1 b i).
  { intros i Hi. apply cells_set_cell_other. lia. }
  assert (Hn : cells (set_cell w1 b (size_ v + -1) None) b (size_ v - 1)
               = None).
  { replace (size_ v - 1) with (size_ v + -1) by lia.
    apply cells_set_cell_same. }
  assert (Hb2 : blocks (set_cell w1 b (size_ v + -1) None) = blocks w)
    by exact B.
  assert (Hn2 : next_block (set_cell w1 b (size_ v + -1) None) = next_block w)
    by exact N.
  generalize dependent (set_cell w1 b (size_ v + -1) None).
  intros w2 Hc Hn Hb2 Hn2.
  split; [|split; [exact Hb2|split; [exact Hn2|split]]].
  - split; simpl; [lia|]. rewrite Eb. repeat split; try lia.
    + rewrite Hb2. exact Hblk.
    + intros i Hi. rewrite Hc by lia.
      destruct (Z_lt_dec i k).
      * rewrite C by lia. apply Hlive. lia.
      * rewrite Hsh by lia. apply Hlive. lia.
    + intros i Hi. destruct (Z.eq_dec i (size_ v - 1)) as [->|Hne].
      * exact Hn.
      * rewrite Hc by exact Hne. rewrite C by lia. apply Hraw. lia.
  - intros i Hi. unfold slot. simpl. rewrite Eb. simpl.
    rewrite Hc by lia. apply C. lia.
  - intros i Hi. unfold slot. simpl. rewrite Eb. simpl.
    rewrite Hc by lia. apply Hsh. lia.
Qed.

End EraseSpec.

(** ** [Emplace] *)

Section EmplaceSpec.

Context {T : Type} `{ET : Elem T} `{VS : !ValueSemantics T}.

Local Abbreviation W := (World T).

Lemma Emplace_regrow (pos : ptr) (d : Z) (a : Arg T) (v : Vector) (w : W) :
  Capacity v <= size_ v ->
  ptr_diff pos (begin v) = Some d ->
  Emplace pos a (v, w) =
  (regrow (if size_ v =? 0 then 1 else size_ v * 2)
          (relocate (size_ v) (to_int d) a) ;;
   v' <- this ;;
   set_this {| data_ := data_ v'; size_ := size_ v' + 1 |} ;;
   ret (ptr_add (begin v') (to_int d))) (v, w).
Proof.
  intros Hn Hd. unfold Emplace, regrow, relocate, move_around.
  unfold bind at 1, this at 1. cbn [fst snd]. rewrite Hd. symmetry.
  unfold bind at 1 2, this at 1. cbn [fst snd]. symmetry.
  replace (Capacity v <=? size_ v) with true by (symmetry; apply Z.leb_le, Hn).
  unfold bind at 1. symmetry. unfold bind at 1. symmetry.
  unfold bind, on_throw, lift. cbn [fst snd].
  destruct (RawMemory_new _ w) as [r w1| |]; try reflexivity.
  cbn [fst snd].
  destruct (construct_from _ a w1) as [[] w2| |]; try reflexivity.
  cbn [fst snd].
  destruct (transfer (GetAddress (data_ v)) (to_int d) (GetAddress r) w2)
    as [[] w3| |]; try reflexivity.
  cbn [fst snd].
  destruct (transfer _ (size_ v - to_int d) _ w3)
    as [[] w4| |]; reflexivity.
Qed.

Lemma position_of (v : Vector) (w : W) (k : Z) :
  valid v w -> 0 <= k <= size_ v -> k <= INT_MAX ->
  exists d, ptr_diff (ptr_add (begin v) k) (begin v) = Some d /\
            to_int d = k.
Proof.
  intros Hv Hk Hint. unfold begin, GetAddress.
  destruct (buffer_ (data_ v)) as [|b o] eqn:Eb.
  - destruct (valid_null v w Hv Eb) as [Hs _].
    exists 0. split; [reflexivity|]. rewrite to_int_in_range; lia.
  - exists k. simpl. rewrite Z.eqb_refl. split; [f_equal; lia|].
    apply to_int_in_range. lia.
Qed.

Lemma Emplace_grows (k : Z) (a : Arg T) (x : T) (v : Vector) (w : W) :
  valid v w -> wf_world w -> Capacity v <= size_ v ->
  0 <= k <= size_ v -> k <= INT_MAX -> arg_value a = Some x ->
  returns (Emplace (ptr_add (begin v) k) a) (v, w)
          (fun r s =>
             r = ptr_add (begin (fst s)) k /\
             valid (fst s) (snd s) /\ wf_world (snd s) /\
             size_ (fst s) = size_ v + 1 /\
             (forall i, 0 <= i < k -> slot (fst s) (snd s) i = slot v w i) /\
             slot (fst s) (snd s) k = Some x /\
             (forall i, k <= i < size_ v ->
                        slot (fst s) (snd s) (i + 1) = slot v w i)).
Proof.
  intros Hv Hwf Hfull Hk Hint Ha.
  assert (Hs : 0 <= size_ v <= capacity_ (data_ v)) by apply Hv.
  destruct (position_of v w k Hv Hk Hint) as (d & Hd & Hpos).
  unfold returns. rewrite (Emplace_regrow _ d a v w Hfull Hd). rewrite Hpos.
  match goal with
  | |- match ?mm ?ss with _ => _ end =>
      change (returns mm ss
                (fun r s =>
                   r = ptr_add (begin (fst s)) k /\
                   valid (fst s) (snd s) /\ wf_world (snd s) /\
                   size_ (fst s) = size_ v + 1 /\
                   (forall i, 0 <= i < k ->
                              slot (fst s) (snd s) i = slot v w i) /\
                   slot (fst s) (snd s) k = Some x /\
                   (forall i, k <= i < size_ v ->
                              slot (fst s) (snd s) (i + 1) = slot v w i)))
  end.
  apply returns_bind. eapply returns_weaken.
  { apply (regrow_relocate_spec
             v w (if size_ v =? 0 then 1 else size_ v * 2) k a x);
      auto; try lia.
    destruct (Z.eqb_spec (size_ v) 0); lia. }
  intros [] [v1 w1] (Ev & Hv1 & Hwf1 & C1 & C2 & C3).
  cbn [fst snd] in *. subst v1. simpl in *.
  apply returns_bind. unfold returns at 1, this. cbn [fst snd].
  apply returns_bind. unfold returns at 1, set_this. cbn [fst snd].
  unfold returns, ret. cbn [fst snd]. simpl. auto 10.
Qed.

End EmplaceSpec.

Section EmplaceInPlace.

Context {T : Type} `{ET : Elem T} `{VS : !ValueSemantics T}.

Local Abbreviation W := (World T).

Lemma assign_move_local_eq (w : W) (b i : Z) (d x : T) :
  in_bounds w b i = true -> cells w b i = Some d ->
  assign_move_local (Ptr b i) x w
  = Ok tt (set_cell (move_assigned w) b i (Some x)).
Proof.
  intros Hin Hd. unfold assign_move_local, bind.
  rewrite (load_eq _ _ _ _ Hin Hd).
  destruct (vs_move_assign d x) as [x' ->]. mstep.
  rewrite count_move_assign_eq.
  apply store_eq. rewrite in_bounds_move_assigned. exact Hin.
Qed.

Lemma Emplace_in_place_interior (k : Z) (a : Arg T) (x : T) (v : Vector)
      (w : W) :
  valid v w -> size_ v < Capacity v ->
  0 <= k < size_ v -> k <= INT_MAX -> arg_value a = Some x ->
  returns (Emplace (ptr_add (begin v) k) a) (v, w)
          (fun r s =>
             r = ptr_add (begin (fst s)) k /\
             fst s = {| data_ := data_ v; size_ := size_ v + 1 |} /\
             valid (fst s) (snd s) /\
             blocks (snd s) = blocks w /\
             next_block (snd s) = next_block w /\
             (forall i, 0 <= i < k -> slot (fst s) (snd s) i = slot v w i) /\
             slot (fst s) (snd s) k = Some x /\
             (forall i, k <= i < size_ v ->
                        slot (fst s) (snd s) (i + 1) = slot v w i)).
Proof.
  intros Hv Hcap Hk Hint Ha.
  assert (Hs : 0 <= size_ v <= capacity_ (data_ v)) by apply Hv.
  unfold Capacity in Hcap.
  destruct (valid_nonnull v w Hv) as (b & Eb & Hblk & Hlive & Hraw); [lia|].
  set (size := size_ v) in *. set (cap := capacity_ (data_ v)) in *.
  unfold Emplace. apply returns_bind. unfold returns at 1, this.
  cbn [fst snd]. unfold begin, end_, GetAddress, Capacity. rewrite Eb.
  cbn [ptr_add ptr_diff ptr_eqb]. rewrite !Z.eqb_refl.
  replace (0 + k - 0) with k by lia.
  rewrite (to_int_in_range k) by lia.
  fold size. fold cap.
  replace (cap <=? size) with false by (symmetry; apply Z.leb_gt; lia).
  replace (0 + k =? 0 + size) with false by (symmetry; apply Z.eqb_neq; lia).
  cbn [andb negb].
  replace (0 + k) with k by lia. replace (0 + size) with size by lia.
  apply returns_bind, returns_on_throw.
  apply returns_bind, returns_lift.
  eapply eq_returns; [apply (construct_arg_eq a x w Ha)|].
  assert (Ba : blocks (after_arg a w) = blocks w) by after_arg_done.
  assert (Na : next_block (after_arg a w) = next_block w)
    by after_arg_done.
  assert (Ca : cells (after_arg a w) = cells w) by after_arg_done.
  generalize dependent (after_arg a w). intros wa Ba Na Ca.
  assert (Hin : forall i, 0 <= i < cap -> in_bounds wa b i = true).
  { intros i Hi. unfold in_bounds. rewrite Ba, Hblk.
    apply andb_true_iff. rewrite Z.leb_le, Z.ltb_lt. lia. }
  destruct (cells w b (size - 1)) as [y|] eqn:Ey;
    [|exfalso; apply (Hlive (size - 1)); [lia|exact Ey]].
  destruct (vs_move y) as [y' Hm].
  apply returns_bind, returns_lift. unfold RawMemory_index. fold cap.
  replace (size - 1 <? cap) with true by (symmetry; apply Z.ltb_lt; lia).
  unfold returns at 1, ret. rewrite Eb. cbn [ptr_add].
  replace (0 + (size - 1)) with (size - 1) by lia.
  apply returns_bind, returns_lift. eapply eq_returns.
  { apply (construct_move_eq wa b size b (size - 1) y y y');
      auto; try (apply Hin; lia). rewrite Ca. exact Ey. }
  set (wm := set_cell (set_cell (move_constructed wa) b (size - 1)
                                (Some y')) b size (Some y)).
  assert (Cm : forall b' i, b' <> b \/ (i <> size /\ i <> size - 1) ->
                            cells wm b' i = cells w b' i).
  { intros b' i Hi. unfold wm. rewrite !cells_set_cell_other by lia.
    rewrite cells_move_constructed, Ca. reflexivity. }
  assert (Cm1 : cells wm b size = Some y) by apply cells_set_cell_same.
  assert (Cm2 : cells wm b (size - 1) = Some y').
  { unfold wm. rewrite cells_set_cell_other by lia.
    apply cells_set_cell_same. }
  assert (Bm : blocks wm = blocks w).
  { unfold wm. cbn [blocks set_cell]. rewrite blocks_move_constructed.
    exact Ba. }
  assert (Nm : next_block wm = next_block w).
  { unfold wm. cbn [next_block set_cell].
    rewrite next_block_move_constructed. exact Na. }
  clearbody wm.
  apply returns_bind, returns_lift.
  replace (size + -1) with (size - 1) by lia.
  eapply returns_weaken.
  { apply (std_move_backward_spec wm b cap); auto; try lia.
    - rewrite Bm. exact Hblk.
    - intros j Hj. destruct (Z.eq_dec j (size - 1)) as [->|Hne].
      + rewrite Cm2. discriminate.
      + rewrite Cm by lia. apply Hlive. lia. }
  intros [] ws ((B & N & C) & Hsh & Hlast).
  replace (size - 1 - (size - 1 - k)) with k in Hlast by lia.
  destruct (cells ws b k) as [d|] eqn:Ed; [|contradiction].
  assert (Hink : in_bounds ws b k = true).
  { unfold in_bounds. rewrite B, Bm, Hblk.
    apply andb_true_iff. rewrite Z.leb_le, Z.ltb_lt. lia. }
  apply returns_lift.
  eapply eq_returns; [apply (assign_move_local_eq ws b k d x Hink Ed)|].
  assert (Cf : forall b' i, b' <> b \/ ~ (k <= i <= size) ->
               cells (set_cell (move_assigned ws) b k (Some x)) b' i
               = cells w b' i).
  { intros b' i Hi. rewrite cells_set_cell_other by lia.
    rewrite cells_move_assigned. rewrite C by lia. apply Cm. lia. }
  assert (Cx : cells (set_cell (move_assigned ws) b k (Some x)) b k
               = Some x)
    by apply cells_set_cell_same.
  assert (Cs : forall i, k <= i < size ->
               cells (set_cell (move_assigned ws) b k (Some x)) b (i + 1)
               = cells w b i).
  { intros i Hi. rewrite cells_set_cell_other by lia.
    rewrite cells_move_assigned.
    destruct (Z.eq_dec i (size - 1)) as [->|Hne].
    - replace (size - 1 + 1) with size by lia.
      rewrite C by lia. rewrite Cm1. symmetry. exact Ey.
    - rewrite Hsh by lia. replace (i + 1 - 1) with i by lia.
      apply Cm. lia. }
  assert (Bf : blocks (set_cell (move_assigned ws) b k (Some x))
               = blocks w).
  { cbn [blocks set_cell]. rewrite blocks_move_assigned.
    exact (eq_trans B Bm). }
  assert (Nf : next_block (set_cell (move_assigned ws) b k (Some x))
               = next_block w).
  { cbn [next_block set_cell]. rewrite next_block_move_assigned.
    exact (eq_trans N Nm). }
  generalize dependent (set_cell (move_assigned ws) b k (Some x)).
  intros wf Cf Cx Cs Bf Nf.
  apply returns_bind. unfold returns at 1, this. cbn [fst snd].
  apply returns_bind. unfold returns at 1, set_this. cbn [fst snd].
  unfold returns, ret. cbn [fst snd]. cbn [data_ size_]. rewrite Eb.
  fold size.
  split; [cbn [ptr_add]; f_equal; lia|]. split; [reflexivity|].
  split; [|split; [exact Bf|split; [exact Nf|split; [|split]]]].
  - split; cbn [data_ size_]; fold cap; [lia|]. rewrite Eb.
    repeat split; try lia.
    + rewrite Bf. exact Hblk.
    + intros i Hi. destruct (Z_lt_dec i k); [|destruct (Z.eq_dec i k)].
      * rewrite Cf by lia. apply Hlive. lia.
      * subst i. rewrite Cx. discriminate.
      * replace i with (i - 1 + 1) by lia. rewrite Cs by lia.
        apply Hlive. lia.
    + intros i Hi. rewrite Cf by lia. apply Hraw. lia.
  - intros i Hi. unfold slot. cbn [data_]. rewrite Eb. cbn [Z.add].
    apply Cf. lia.
  - unfold slot. cbn [data_]. rewrite Eb. exact Cx.
  - intros i Hi. unfold slot. cbn [data_]. rewrite Eb. apply Cs. exact Hi.
Qed.

End EmplaceInPlace.

Section EmplaceAll.

Context {T : Type} `{ET : Elem T} `{VS : !ValueSemantics T}.

Local Abbreviation W := (World T).

Lemma Emplace_in_place_end (a : Arg T) (x : T) (v : Vector) (w : W) :
  valid v w -> size_ v < Capacity v ->
  size_ v <= INT_MAX -> arg_value a = Some x ->
  returns (Emplace (ptr_add (begin v) (size_ v)) a) (v, w)
          (fun r s =>
             r = ptr_add (begin (fst s)) (size_ v) /\
             fst s = {| data_ := data_ v; size_ := size_ v + 1 |} /\
             valid (fst s) (snd s) /\
             blocks (snd s) = blocks w /\
             next_block (snd s) = next_block w /\
             (forall i, 0 <= i < size_ v ->
                        slot (fst s) (snd s) i = slot v w i) /\
             slot (fst s) (snd s) (size_ v) = Some x).
Proof.
  intros Hv Hcap Hint Ha.
  assert (Hs : 0 <= size_ v <= capacity_ (data_ v)) by apply Hv.
  unfold Capacity in Hcap.
  destruct (valid_nonnull v w Hv) as (b & Eb & Hblk & Hlive & Hraw); [lia|].
  set (size := size_ v) in *. set (cap := capacity_ (data_ v)) in *.
  unfold Emplace. apply returns_bind. unfold returns at 1, this.
  cbn [fst snd]. unfold begin, end_, GetAddress, Capacity. rewrite Eb.
  fold size. fold cap.
  cbn [ptr_add ptr_diff ptr_eqb]. rewrite !Z.eqb_refl.
  replace (0 + size - 0) with size by lia.
  rewrite (to_int_in_range size) by lia.
  replace (cap <=? size) with false by (symmetry; apply Z.leb_gt; lia).
  cbn [andb negb].
  apply returns_bind, returns_on_throw, returns_lift.
  assert (Hin : in_bounds w b (0 + size) = true).
  { apply (in_bounds_iff _ _ _ _ Hblk). lia. }
  eapply eq_returns; [apply (construct_from_eq a x _ _ _ Hin Ha)|].
  assert (Hc : forall i, i <> size ->
               cells (set_cell (after_arg a w) b (0 + size) (Some x)) b i
               = cells w b i).
  { intros i Hi. rewrite cells_set_cell_other by lia.
    rewrite cells_after_arg. reflexivity. }
  assert (Hx : cells (set_cell (after_arg a w) b (0 + size) (Some x))
                     b size = Some x).
  { replace size with (0 + size) at 2 by lia. apply cells_set_cell_same. }
  assert (Hbk : blocks (set_cell (after_arg a w) b (0 + size) (Some x))
                = blocks w) by after_arg_done.
  assert (Hnx : next_block (set_cell (after_arg a w) b (0 + size) (Some x))
                = next_block w) by after_arg_done.
  generalize dependent (set_cell (after_arg a w) b (0 + size) (Some x)).
  intros w1 Hc Hx Hbk Hnx.
  apply returns_bind. unfold returns at 1, this. cbn [fst snd].
  apply returns_bind. unfold returns at 1, set_this. cbn [fst snd].
  unfold returns, ret. cbn [fst snd]. cbn [data_ size_]. rewrite Eb.
  fold size.
  split; [reflexivity|]. split; [reflexivity|].
  split; [|split; [exact Hbk|split; [exact Hnx|split]]].
  - split; cbn [data_ size_]; fold cap; [lia|]. rewrite Eb.
    repeat split; try lia.
    + rewrite Hbk. exact Hblk.
    + intros i Hi. destruct (Z.eq_dec i size) as [->|Hne].
      * rewrite Hx. discriminate.
      * rewrite Hc by exact Hne. apply Hlive. lia.
    + intros i Hi. rewrite Hc by lia. apply Hraw. lia.
  - intros i Hi. unfold slot. cbn [data_]. rewrite Eb. cbn [Z.add].
    apply Hc. lia.
  - unfold slot. cbn [data_]. rewrite Eb. exact Hx.
Qed.

(** [Emplace] on a position whose offset fits in [int]. *)
Lemma Emplace_spec (k : Z) (a : Arg T) (x : T) (v : Vector) (w : W) :
  valid v w -> wf_world w ->
  0 <= k <= size_ v -> k <= INT_MAX -> arg_value a = Some x ->
  returns (Emplace (ptr_add (begin v) k) a) (v, w)
          (fun r s =>
             r = ptr_add (begin (fst s)) k /\
             valid (fst s) (snd s) /\ wf_world (snd s) /\
             size_ (fst s) = size_ v + 1 /\
             (forall i, 0 <= i < k -> slot (fst s) (snd s) i = slot v w i) /\
             slot (fst s) (snd s) k = Some x /\
             (forall i, k <= i < size_ v ->
                        slot (fst s) (snd s) (i + 1) = slot v w i)).
Proof.
  intros Hv Hwf Hk Hint Ha.
  destruct (Z_le_gt_dec (Capacity v) (size_ v)) as [Hfull|Hroom].
  - apply Emplace_grows; auto.
  - destruct (Z.eq_dec k (size_ v)) as [->|Hne].
    + eapply returns_weaken;
        [apply (Emplace_in_place_end a x v w); auto; lia|].
      intros r [v1 w1] (H1 & H2 & H3 & H4 & H5 & H6 & H7).
      cbn [fst snd] in *. subst v1. cbn [size_] in *.
      repeat split; auto; try apply H3.
      * intros b' Hb'. rewrite H5. apply Hwf. rewrite <- H4. exact Hb'.
      * intros i Hi. lia.
    + eapply returns_weaken;
        [apply (Emplace_in_place_interior k a x v w); auto; lia|].
      intros r [v1 w1] (H1 & H2 & H3 & H4 & H5 & H6 & H7 & H8).
      cbn [fst snd] in *. subst v1. cbn [size_] in *.
      repeat split; auto; try apply H3.
      intros b' Hb'. rewrite H5. apply Hwf. rewrite <- H4. exact Hb'.
Qed.

End EmplaceAll.

(** ** [Insert] and [Erase] at positions within [int] *)

Section InsertErase.

Context {T : Type} `{ET : Elem T} `{VS : !ValueSemantics T}.

Local Abbreviation W := (World T).

(** For a position whose offset [k] fits in [int], [Emplace] returns
    [begin() + k] of the vector after the call, and the new element is
    there. *)
Lemma Emplace_returns_position (k : Z) (a : Arg T) (x : T) (v : Vector)
      (w : W) :
  valid v w -> wf_world w ->
  0 <= k <= size_ v -> k <= INT_MAX -> arg_value a = Some x ->
  returns (Emplace (ptr_add (begin v) k) a) (v, w)
          (fun r s =>
             r = ptr_add (begin (fst s)) k /\
             slot (fst s) (snd s) k = Some x).
Proof.
  intros Hv Hwf Hk Hint Ha.
  eapply returns_weaken; [apply (Emplace_spec k a x v w); auto|].
  intros r s (H1 & _ & _ & _ & _ & H2 & _). auto.
Qed.

(** For a position whose offset [k] fits in [int], insertion followed
    by erasure at the same position gives back the length and every
    element. *)
Lemma insert_then_erase_restores (k : Z) (a : Arg T) (x : T) (v : Vector)
      (w : W) :
  valid v w -> wf_world w ->
  0 <= k <= size_ v -> k <= INT_MAX -> arg_value a = Some x ->
  returns (insert_then_erase (ptr_add (begin v) k) a) (v, w)
          (fun _ s =>
             valid (fst s) (snd s) /\
             size_ (fst s) = size_ v /\
             forall i, 0 <= i < size_ v ->
                       slot (fst s) (snd s) i = slot v w i).
Proof.
  intros Hv Hwf Hk Hint Ha. unfold insert_then_erase, Insert.
  apply returns_bind.
  eapply returns_weaken; [apply (Emplace_spec k a x v w); auto|].
  intros r [v1 w1] (-> & Hv1 & Hwf1 & Hs1 & C1 & C2 & C3).
  cbn [fst snd] in *.
  eapply returns_weaken; [apply (Erase_spec k v1 w1); auto; lia|].
  intros r [v2 w2] (_ & Ev2 & Hv2 & _ & _ & D1 & D2).
  cbn [fst snd] in *.
  split; [exact Hv2|]. split; [subst v2; simpl; lia|].
  intros i Hi. destruct (Z_lt_dec i k).
  - rewrite D1 by lia. apply C1. lia.
  - rewrite D2 by lia. apply C3. lia.
Qed.

End InsertErase.

(** ** Positions beyond [INT_MAX] *)

Lemma chars_valid (n cap : Z) :
  0 <= n <= cap -> 0 < cap ->
  valid (chars n cap) (chars_world n cap) /\ wf_world (chars_world n cap).
Proof.
  intros Hn Hcap. split.
  - split; simpl; [lia|]. repeat split; try lia.
    + intros i Hi.
      replace (0 <=? i) with true by (symmetry; apply Z.leb_le; lia).
      replace (i <? n) with true by (symmetry; apply Z.ltb_lt; lia).
      discriminate.
    + intros i Hi.
      replace (i <? n) with false by (symmetry; apply Z.ltb_ge; lia).
      rewrite andb_false_r. reflexivity.
  - intros b. simpl. unfold upd.
    destruct (Z.eqb_spec b 1); [lia|]. intros H. contradiction H. reflexivity.
Qed.

(** C10, on the code.  A [Vector<char>] holds 2^32 elements and has
    spare capacity.  [Emplace(end(), 7)] returns normally and the new
    element is at index 2^32, but [int position] has wrapped to 0: the
    iterator returned is [begin()], not [begin() + 2^32]. *)
Theorem Emplace_beyond_int_returns_begin :
  valid (chars (2 ^ 32) (2 ^ 32 + 1)) (chars_world (2 ^ 32) (2 ^ 32 + 1)) /\
  match Emplace (end_ (chars (2 ^ 32) (2 ^ 32 + 1))) (CopyOf 7)
                (chars (2 ^ 32) (2 ^ 32 + 1),
                 chars_world (2 ^ 32) (2 ^ 32 + 1))
  with
  | Ok r s =>
      size_ (fst s) = 2 ^ 32 + 1 /\
      slot (fst s) (snd s) (2 ^ 32) = Some 7 /\
      r = begin (fst s) /\
      r <> ptr_add (begin (fst s)) (2 ^ 32)
  | _ => False
  end.
Proof.
  split; [apply chars_valid; lia|].
  vm_compute. repeat split; discriminate.
Qed.

(** C5, on the code.  A [Vector<char>] holds 2^31 elements and is
    full.  [Insert(end(), 7)] narrows the offset 2^31 to the [int]
    -2^31 and constructs the new element 2^31 slots before the new
    buffer: undefined behaviour, nothing is restored. *)
Theorem insert_then_erase_beyond_int_is_undefined :
  valid (chars (2 ^ 31) (2 ^ 31)) (chars_world (2 ^ 31) (2 ^ 31)) /\
  insert_then_erase (end_ (chars (2 ^ 31) (2 ^ 31))) (CopyOf 7)
                    (chars (2 ^ 31) (2 ^ 31), chars_world (2 ^ 31) (2 ^ 31))
  = Undef.
Proof.
  split; [apply chars_valid; lia|].
  vm_compute. reflexivity.
Qed.

(** ** Rules for [outcome] *)

Section OutcomeRules.

Context {S A B : Type}.

Lemma outcome_ret (a : A) (s : S) (Q : A -> S -> Prop) (E : S -> Prop) :
  Q a s -> outcome (ret a) s Q E.
Proof. exact (fun H => H). Qed.

Lemma outcome_bind (m : M S A) (k : A -> M S B) (s : S)
      (Q : B -> S -> Prop) (E : S -> Prop) :
  outcome m s (fun a s' => outcome (k a) s' Q E) E ->
  outcome (bind m k) s Q E.
Proof.
  unfold outcome, bind. destruct (m s); auto.
Qed.

Lemma outcome_weaken (m : M S A) (s : S) (Q Q' : A -> S -> Prop)
      (E E' : S -> Prop) :
  outcome m s Q E ->
  (forall a s', Q a s' -> Q' a s') -> (forall s', E s' -> E' s') ->
  outcome m s Q' E'.
Proof.
  unfold outcome. destruct (m s); auto.
Qed.

Lemma outcome_on_throw (m : M S A) (h : M S unit) (s : S)
      (Q : A -> S -> Prop) (E : S -> Prop) :
  outcome m s Q (fun s' => outcome h s' (fun _ s'' => E s'') E) ->
  outcome (on_throw m h) s Q E.
Proof.
  unfold outcome, on_throw, bind, throw.
  destruct (m s) as [a s'|s'|]; auto. destruct (h s'); auto.
Qed.

Lemma outcome_undef (s : S) (Q : A -> S -> Prop) (E : S -> Prop) :
  outcome undef s Q E.
Proof. exact I. Qed.

Lemma outcome_throw (s : S) (Q : A -> S -> Prop) (E : S -> Prop) :
  E s -> outcome throw s Q E.
Proof. exact (fun H => H). Qed.

End OutcomeRules.

Section OutcomeLift.

Context {T : Type} `{ET : Elem T} {A : Type}.


End OutcomeLift.

(** ** What a transfer by copy can touch *)

Section CopyFrame.

Context {T : Type} `{ET : Elem T}.

Local Abbreviation W := (World T).

Lemma only_block_refl (db : Z) (w : W) : only_block db w w.
Proof. repeat split. Qed.

Lemma only_block_trans (db : Z) (w1 w2 w3 : W) :
  only_block db w1 w2 -> only_block db w2 w3 -> only_block db w1 w3.
Proof.
  intros (B1 & N1 & C1) (B2 & N2 & C2). repeat split; try congruence.
  intros b j H. rewrite C2, C1; auto.
Qed.

Lemma destroy_at_outcome (db i : Z) (w : W) :
  outcome (destroy_at (Ptr db i)) w
          (fun _ w' => w' = set_cell w db i None)
          (fun _ => False).
Proof.
  unfold outcome, destroy_at. destruct (in_bounds w db i); [|exact I].
  destruct (cells w db i); [reflexivity|exact I].
Qed.

Lemma destroy_loop_outcome (db o : Z) (n : nat) :
  forall (i : Z) (w : W),
    outcome (destroy_loop (Ptr db o) i n) w
            (fun _ w' =>
               only_block db w w' /\
               (forall j, o + i <= j < o + i + Z.of_nat n ->
                          cells w' db j = None) /\
               (forall j, ~ (o + i <= j < o + i + Z.of_nat n) ->
                          cells w' db j = cells w db j))
            (fun _ => False).
Proof.
  induction n as [|n IH]; intros i w.
  - apply outcome_ret. split; [apply only_block_refl|].
    split; intros j Hj; [lia|reflexivity].
  - simpl destroy_loop. apply outcome_bind. cbn [ptr_add].
    eapply outcome_weaken; [apply destroy_at_outcome| |auto].
    intros [] w1 ->. cbv beta.
    eapply outcome_weaken; [apply IH| |auto].
    intros [] w2 ((B & N & C) & Hnone & Hrest). cbv beta.
    split; [|split].
    + repeat split; auto. intros b j Hb. rewrite C by exact Hb.
      apply cells_set_cell_other. auto.
    + intros j Hj. destruct (Z.eq_dec j (o + i)) as [->|Hne].
      * rewrite Hrest by lia. apply cells_set_cell_same.
      * apply Hnone. lia.
    + intros j Hj. rewrite Hrest by lia. apply cells_set_cell_other. lia.
Qed.

Lemma destroy_n_outcome (db o n : Z) (w : W) :
  outcome (destroy_n (Ptr db o) n) w
          (fun _ w' =>
             only_block db w w' /\
             (forall j, o <= j < o + n -> cells w' db j = None) /\
             (forall j, ~ (o <= j < o + n) -> cells w' db j = cells w db j))
          (fun _ => False).
Proof.
  unfold destroy_n. apply outcome_bind. unfold outcome at 1, count.
  destruct (n <? 0) eqn:En; [exact I|]. apply Z.ltb_ge in En.
  unfold ret.
  eapply outcome_weaken; [apply (destroy_loop_outcome db o _ 0)| |auto].
  intros [] w' (H1 & H2 & H3). rewrite Z2Nat.id in * by lia.
  split; [exact H1|]. split; intros j Hj; [apply H2|apply H3]; lia.
Qed.

End CopyFrame.

Section CopyTransferOutcome.

Context {T : Type} `{ET : Elem T}.

Local Abbreviation W := (World T).

Lemma outcome_eq {S A} (m : M S A) (s s' : S) (a : A)
      (Q : A -> S -> Prop) (E : S -> Prop) :
  m s = Ok a s' -> Q a s' -> outcome m s Q E.
Proof.
  unfold outcome. intros ->. auto.
Qed.

Lemma only_block_set_cell (db i : Z) (o : option T) (w : W) :
  only_block db w (set_cell w db i o).
Proof.
  repeat split. intros b j Hb. apply cells_set_cell_other. auto.
Qed.

Lemma construct_copy_outcome (db i : Z) (src : ptr) (w : W) :
  outcome (construct_copy (Ptr db i) src) w
          (fun _ w' => only_block db w w' /\
                       forall j, j <> i -> cells w' db j = cells w db j)
          (fun w' => w' = w).
Proof.
  unfold outcome, construct_copy, bind, storage.
  destruct (in_bounds w db i) eqn:Hin; [|exact I].
  destruct (load src w) as [x w1| |] eqn:El; try exact I.
  - assert (w1 = w).
    { unfold load in El. destruct src as [|sb si]; [discriminate|].
      destruct (in_bounds w sb si); [|discriminate].
      destruct (cells w sb si); inversion El. reflexivity. }
    subst w1. destruct (copy_construct x) as [y|]; simpl; [|reflexivity].
    unfold store.
    match goal with
    | |- context [in_bounds ?w' db i] =>
        change (in_bounds w' db i) with (in_bounds w db i)
    end.
    rewrite Hin. split.
    + repeat split. intros b j Hb. simpl. unfold upd2.
      destruct (Z.eqb_spec b db); [contradiction|reflexivity].
    + intros j Hj. simpl. unfold upd2. rewrite Z.eqb_refl.
      destruct (Z.eqb_spec j i); [contradiction|reflexivity].
  - unfold load in El. destruct src as [|sb si]; [discriminate|].
    destruct (in_bounds w sb si); [|discriminate].
    destruct (cells w sb si); discriminate.
Qed.

Lemma uninit_copy_loop_outcome (src : ptr) (db o : Z) (w0 : W) (n : nat) :
  forall (i : Z) (w : W),
    0 <= i ->
    (forall j, ~ (o <= j < o + i) -> cells w db j = cells w0 db j) ->
    outcome (uninit_loop
               (fun i => construct_copy (ptr_add (Ptr db o) i) (ptr_add src i))
               (Ptr db o) i n) w
            (fun _ w' => only_block db w w')
            (fun w' => only_block db w w' /\
                       forall j, cells w' db j = cells w0 db j \/
                                 cells w' db j = None).
Proof.
  induction n as [|n IH]; intros i w Hi Hinv.
  - apply outcome_ret. apply only_block_refl.
  - simpl uninit_loop. apply outcome_bind, outcome_on_throw. cbn [ptr_add].
    eapply outcome_weaken; [apply construct_copy_outcome| |].
    + intros [] w1 [Hob Hc]. cbv beta.
      eapply outcome_weaken; [apply (IH (i + 1) w1); [lia|]| |].
      * intros j Hj. rewrite Hc by lia. apply Hinv. lia.
      * intros [] w2 H2. apply (only_block_trans db w w1 w2); assumption.
      * intros w2 [H2 H3]. split; [|exact H3].
        apply (only_block_trans db w w1 w2); assumption.
    + intros w1 ->.
      eapply outcome_weaken; [apply destroy_n_outcome| |intros ? []].
      intros [] w2 (Hob & Hnone & Hrest). cbv beta.
      split; [exact Hob|].
      intros j. destruct (Z_le_dec o j); [destruct (Z_lt_dec j (o + i))|].
      * right. apply Hnone. lia.
      * left. rewrite Hrest by lia. apply Hinv. lia.
      * left. rewrite Hrest by lia. apply Hinv. lia.
Qed.



End CopyTransferOutcome.

(** ** Exceptions on the growth paths *)

Section GrowthThrows.

Context {T : Type} `{ET : Elem T}.

Local Abbreviation W := (World T).





End GrowthThrows.

Section StrongGuarantee.

Context {T : Type} `{ET : Elem T}.

Local Abbreviation W := (World T).

Variables (v : Vector) (w : W).
Hypothesis Hcopy : transferred_by_copy.
Hypothesis Hv : valid v w.
Hypothesis Hwf : wf_world w.







End StrongGuarantee.

Section StrongGuaranteeTheorem.

Context {T : Type} `{ET : Elem T}.


End StrongGuaranteeTheorem.

(** [wf_world] of a free store given in full: the live blocks are
    found by cases on the block number. *)
Ltac wf_concrete :=
  let b := fresh "b" in
  let Hb := fresh "Hb" in
  intros b Hb; vm_compute in Hb; vm_compute;
  destruct b as [|b|b];
  try reflexivity; try (contradiction Hb; reflexivity);
  repeat (destruct b as [b|b|];
          try reflexivity; try (contradiction Hb; reflexivity)).



(** The part of C2 the code misses.  [PushBack(2)] on the full vector
    [13] builds the new element in slot 1 of the new buffer, then the
    copy of 13 throws: the new buffer is released with the new element
    still in it, its destructor never runs. *)
Lemma PushBack_throw_leaks_new_element :
  match PushBack (Make (Some (fragile 2))) fragile_13 with
  | Throw s' =>
      fst s' = fst fragile_13 /\
      blocks (snd s') (next_block (snd fragile_13)) = None /\
      cells (snd s') (next_block (snd fragile_13)) 1 = Some (fragile 2)
  | _ => False
  end.
Proof.
  vm_compute. repeat split; reflexivity.
Qed.

(** Likewise [Emplace(begin() + 1, 2)] on the full vector [1, 13]: the
    copy of 13, in the second transfer, throws; the element copied by
    the first transfer and the new element stay in the released
    buffer. *)
Lemma Emplace_throw_leaks_copied_elements :
  match Emplace (ptr_add (begin (fst fragile_1_13)) 1)
                (Make (Some (fragile 2))) fragile_1_13 with
  | Throw s' =>
      fst s' = fst fragile_1_13 /\
      blocks (snd s') (next_block (snd fragile_1_13)) = None /\
      cells (snd s') (next_block (snd fragile_1_13)) 0 = Some (fragile 1) /\
      cells (snd s') (next_block (snd fragile_1_13)) 1 = Some (fragile 2)
  | _ => False
  end.
Proof.
  vm_compute. repeat split; reflexivity.
Qed.

(** ** The theorems at concrete vectors *)

Lemma Resize_truncates_or_appends_defaults_witness :
  returns (Resize 1) (fst int_123, snd int_123)
          (fun _ s => size_ (fst s) = 1 /\
                      slot (fst s) (snd s) 0 = Some 1) /\
  returns (Resize 5) (fst int_123, snd int_123)
          (fun _ s => size_ (fst s) = 5 /\
                      slot (fst s) (snd s) 2 = Some 3 /\
                      slot (fst s) (snd s) 4 = Some 0).
Proof.
  assert (Hv : valid (fst int_123) (snd int_123))
    by (apply validb_valid; vm_compute; reflexivity).
  assert (Hwf : wf_world (snd int_123)) by wf_concrete.
  assert (Hd : forall k, @value_init Z _ k = Some 0) by reflexivity.
  split.
  - destruct (Resize_truncates_or_appends_defaults
                1 (fst int_123) (snd int_123) 0 Hv Hwf
                ltac:(lia) Hd) as [H _].
    eapply returns_weaken; [apply H; vm_compute; reflexivity|].
    intros [] s (E & _ & Hs & _). split; [rewrite E; reflexivity|].
    rewrite (Hs 0) by lia. reflexivity.
  - destruct (Resize_truncates_or_appends_defaults
                5 (fst int_123) (snd int_123) 0 Hv Hwf
                ltac:(lia) Hd) as [_ H].
    eapply returns_weaken;
      [apply H; [vm_compute; reflexivity|split; vm_compute; discriminate]|].
    intros [] s (_ & E & Hold & Hnew). split; [exact E|]. split.
    + rewrite (Hold 2) by (vm_compute; split; [discriminate|reflexivity]).
      reflexivity.
    + apply Hnew. vm_compute. split; [discriminate|reflexivity].
Defined.

Lemma copy_assignment_from_shorter_witness :
  returns (copy_assignment (Other (fst int_123_then_9)))
          (fst int_123, snd int_123_then_9)
          (fun _ s => Size (fst s) = 1 /\ slot (fst s) (snd s) 0 = Some 9).
Proof.
  eapply returns_weaken.
  - apply (copy_assignment_from_shorter
             (fst int_123_then_9) (fst int_123) (snd int_123_then_9)).
    + apply validb_valid. vm_compute. reflexivity.
    + apply validb_valid. vm_compute. reflexivity.
    + vm_compute. discriminate.
    + vm_compute. reflexivity.
  - intros [] s (_ & _ & Hsz & Hsl & _). split.
    + rewrite Hsz. reflexivity.
    + rewrite (Hsl 0) by (vm_compute; split; [discriminate|reflexivity]).
      reflexivity.
Defined.

(** ** The scenarios of the specification, run on the embedding *)

(** Three pushes from empty: length 3, capacity 4 after the growth
    sequence 1, 2, 4, elements 1, 2, 3. *)
Example three_pushes :
  Size (fst int_123) = 3 /\ Capacity (fst int_123) = 4 /\
  elements (fst int_123) (snd int_123) = [Some 1; Some 2; Some 3].
Proof.
  vm_compute. repeat split; reflexivity.
Qed.

(** [Insert(begin() + 1, 99)] then gives 1, 99, 2, 3 and returns
    [begin() + 1]; [Erase(begin() + 1)] gives 1, 2, 3 back. *)
Example insert_99_then_erase :
  match Insert (ptr_add (begin (fst int_123)) 1) (CopyOf 99) int_123 with
  | Ok r s =>
      r = ptr_add (begin (fst s)) 1 /\ Size (fst s) = 4 /\
      elements (fst s) (snd s) = [Some 1; Some 99; Some 2; Some 3] /\
      match Erase r s with
      | Ok r' s' =>
          r' = ptr_add (begin (fst s')) 1 /\ Size (fst s') = 3 /\
          elements (fst s') (snd s') = [Some 1; Some 2; Some 3]
      | _ => False
      end
  | _ => False
  end.
Proof.
  vm_compute. repeat split; reflexivity.
Qed.

(** [Vector<int>(5)]: length 5, capacity 5, five zeros. *)
Example sized_5 :
  match int_sized_5 with
  | Ok v w =>
      Size v = 5 /\ Capacity v = 5 /\
      elements v w = [Some 0; Some 0; Some 0; Some 0; Some 0]
  | _ => False
  end.
Proof.
  vm_compute. repeat split; reflexivity.
Qed.

(** * Further properties of the operations *)

(** ** The sequence of elements *)

Section ElementLists.

Context {T : Type}.

Lemma elements_length (v : Vector) (w : World T) :
  length (elements v w) = Z.to_nat (size_ v).
Proof.
  unfold elements. rewrite length_map, length_seq. reflexivity.
Qed.

Lemma elements_eq (v v' : Vector) (w w' : World T) :
  size_ v' = size_ v ->
  (forall i, 0 <= i < size_ v -> slot v' w' i = slot v w i) ->
  elements v' w' = elements v w.
Proof.
  intros Hs Hsl. unfold elements. rewrite Hs.
  apply map_ext_in. intros k Hk. apply in_seq in Hk. apply Hsl. lia.
Qed.

Lemma elements_snoc (v v' : Vector) (w w' : World T) (y : option T) :
  0 <= size_ v -> size_ v' = size_ v + 1 ->
  (forall i, 0 <= i < size_ v -> slot v' w' i = slot v w i) ->
  slot v' w' (size_ v) = y ->
  elements v' w' = elements v w ++ [y].
Proof.
  intros H0 Hs Hsl Hy. unfold elements. rewrite Hs.
  replace (Z.to_nat (size_ v + 1)) with (Z.to_nat (size_ v) + 1)%nat by lia.
  rewrite seq_app, map_app. simpl. f_equal.
  - apply map_ext_in. intros k Hk. apply in_seq in Hk. apply Hsl. lia.
  - rewrite Z2Nat.id by lia. rewrite Hy. reflexivity.
Qed.

End ElementLists.

(** ** Reallocation by [Reserve] *)

Section ReserveReallocates.

Context {T : Type} `{ET : Elem T} `{VS : !ValueSemantics T}.

Local Abbreviation W := (World T).

(** X1.  [Reserve(n)] with [n > Capacity()] and [n * sizeof(T)] within
    [size_t], on elements with value semantics: the call returns, the
    vector owns a newly allocated buffer of exactly [n] slots, its
    length and its sequence of elements are what they were, and the
    buffer it had is released. *)
Theorem Reserve_reallocates_and_keeps_elements
        (n : Z) (v : Vector) (w : W) :
  valid v w -> wf_world w -> Capacity v < n -> fits_size_t n ->
  returns (Reserve n) (v, w)
          (fun _ s =>
             valid (fst s) (snd s) /\ wf_world (snd s) /\
             Size (fst s) = Size v /\ Capacity (fst s) = n /\
             begin (fst s) = Ptr (next_block w) 0 /\
             elements (fst s) (snd s) = elements v w /\
             (forall b o, begin v = Ptr b o -> blocks (snd s) b = None)).
Proof.
  intros Hv Hwf Hn _.
  pose proof (Reserve_grows n v w Hv Hwf Hn) as G.
  unfold returns in *. rewrite Reserve_regrow in * by exact Hn.
  assert (Hs : 0 <= size_ v <= capacity_ (data_ v)) by apply Hv.
  unfold Capacity in Hn.
  pose proof (fresh_buffer_allocated w n (size_ v)) as Hfresh.
  pose proof (regrow_spec v w n
               (fun old new => move_around old (size_ v) (size_ v) new)
               (relocated v (allocated w n) (size_ v) (next_block w))
               Hv Hwf ltac:(lia)
               (move_around_valid v w _ n (size_ v) (size_ v)
                                  Hv Hwf Hfresh ltac:(lia) ltac:(lia))
               (fun w' H => relocated_blocks _ _ _ _ _ H)) as R.
  unfold returns in R.
  destruct (regrow _ _ (v, w)) as [[] [v' w']| |]; try contradiction.
  destruct G as (G1 & G2 & G3 & G4 & G5).
  cbn [fst snd] in *. destruct R as (Ev & w2 & Hrel & Ew).
  repeat split; try assumption; try apply G1.
  - rewrite Ev. reflexivity.
  - apply elements_eq; assumption.
  - intros b o Eb. unfold begin, GetAddress in Eb. rewrite Ew.
    unfold release_of. rewrite Eb. simpl. unfold upd.
    rewrite Z.eqb_refl. reflexivity.
Qed.

End ReserveReallocates.

Lemma Reserve_reallocates_and_keeps_elements_witness :
  returns (Reserve 10) (fst int_123, snd int_123)
          (fun _ s =>
             Capacity (fst s) = 10 /\
             elements (fst s) (snd s) = [Some 1; Some 2; Some 3]).
Proof.
  eapply returns_weaken.
  - apply (Reserve_reallocates_and_keeps_elements
             10 (fst int_123) (snd int_123)).
    + apply validb_valid. vm_compute. reflexivity.
    + wf_concrete.
    + vm_compute. reflexivity.
    + split; vm_compute; discriminate.
  - intros [] s (_ & _ & _ & Hc & _ & He & _). split; [exact Hc|].
    rewrite He. vm_compute. reflexivity.
Defined.

(** ** Appending *)

Section Appends.

Context {T : Type} `{ET : Elem T} `{VS : !ValueSemantics T}.

Local Abbreviation W := (World T).

(** X2.  [PushBack], on elements with value semantics and an argument
    that constructs the value [x] without referring to an object of
    the free store ([arg_value] is defined: this leaves out
    [MoveFrom], an rvalue such as [std::move(v[0])]): the call returns,
    the vector stays well formed, and its sequence of elements is the
    old one followed by [x], whether the buffer was reallocated or
    not. *)
Theorem PushBack_appends (a : Arg T) (x : T) (v : Vector) (w : W) :
  valid v w -> wf_world w -> arg_value a = Some x ->
  returns (PushBack a) (v, w)
          (fun _ s =>
             valid (fst s) (snd s) /\ wf_world (snd s) /\
             Size (fst s) = Size v + 1 /\
             elements (fst s) (snd s) = elements v w ++ [Some x]).
Proof.
  intros Hv Hwf Ha.
  eapply returns_weaken; [apply (PushBack_spec a x v w Hv Hwf Ha)|].
  intros [] s (H1 & H2 & H3 & H4 & H5). repeat split; auto; try apply H1.
  apply elements_snoc; auto. apply Hv.
Qed.

(** X3.  [EmplaceBack], for arguments that construct [x] without
    referring to an object of the free store, does what [PushBack]
    does and returns the address of the new last element:
    [begin() + old size] in the vector after the call, where the
    constructed value can be read. *)
Theorem EmplaceBack_returns_new_element
        (a : Arg T) (x : T) (v : Vector) (w : W) :
  valid v w -> wf_world w -> arg_value a = Some x ->
  returns (EmplaceBack a) (v, w)
          (fun r s =>
             r = ptr_add (begin (fst s)) (Size v) /\
             load r (snd s) = Ok x (snd s) /\
             valid (fst s) (snd s) /\
             Size (fst s) = Size v + 1 /\
             elements (fst s) (snd s) = elements v w ++ [Some x]).
Proof.
  intros Hv Hwf Ha. unfold returns. rewrite EmplaceBack_PushBack.
  pose proof (PushBack_spec a x v w Hv Hwf Ha) as P.
  unfold returns in P. unfold bind at 1.
  destruct (PushBack a (v, w)) as [[] [v1 w1]| |]; try contradiction.
  cbn [fst snd] in P. destruct P as (Hv1 & Hwf1 & Hs1 & Hsl & Hx).
  assert (Hs : 0 <= size_ v <= capacity_ (data_ v)) by apply Hv.
  assert (Hc1 : 0 <= size_ v1 <= capacity_ (data_ v1)) by apply Hv1.
  unfold bind, this, lift, RawMemory_index. cbn [fst snd].
  replace (size_ v1 - 1 <? capacity_ (data_ v1)) with true
    by (symmetry; apply Z.ltb_lt; lia).
  unfold ret. cbn [fst snd]. unfold begin, GetAddress, Size.
  replace (size_ v1 - 1) with (size_ v) by lia.
  split; [reflexivity|]. split; [|split; [exact Hv1|split; [exact Hs1|]]].
  - destruct (valid_nonnull v1 w1 Hv1) as (b & Eb & Hblk & Hlive & _);
      [lia|].
    rewrite Eb. cbn [ptr_add]. unfold slot in Hx. rewrite Eb in Hx.
    apply load_eq; [|exact Hx].
    apply (in_bounds_iff _ _ _ _ Hblk). lia.
  - apply elements_snoc; auto. lia.
Qed.

End Appends.

Lemma PushBack_appends_witness :
  returns (PushBack (CopyOf 4)) (fst int_123, snd int_123)
          (fun _ s => elements (fst s) (snd s)
                      = [Some 1; Some 2; Some 3; Some 4]).
Proof.
  eapply returns_weaken.
  - apply (PushBack_appends (CopyOf 4) 4 (fst int_123) (snd int_123)).
    + apply validb_valid. vm_compute. reflexivity.
    + wf_concrete.
    + reflexivity.
  - intros [] s (_ & _ & _ & He). rewrite He. vm_compute. reflexivity.
Defined.

Lemma EmplaceBack_returns_new_element_witness :
  returns (EmplaceBack (Make (Some 4))) (fst int_123, snd int_123)
          (fun r s => r = ptr_add (begin (fst s)) 3 /\
                      load r (snd s) = Ok 4 (snd s)).
Proof.
  eapply returns_weaken.
  - apply (EmplaceBack_returns_new_element
             (Make (Some 4)) 4 (fst int_123) (snd int_123)).
    + apply validb_valid. vm_compute. reflexivity.
    + wf_concrete.
    + reflexivity.
  - intros r s (Hr & Hl & _). split; [exact Hr|exact Hl].
Defined.

(** ** Removing the last element *)

Section PopBackSpec.

Context {T : Type} `{ET : Elem T}.

Local Abbreviation W := (World T).

Lemma PopBack_spec (v : Vector) (w : W) :
  valid v w -> 0 < size_ v ->
  returns PopBack (v, w)
          (fun _ s =>
             fst s = {| data_ := data_ v; size_ := size_ v - 1 |} /\
             valid (fst s) (snd s) /\
             blocks (snd s) = blocks w /\
             next_block (snd s) = next_block w /\
             (forall i, 0 <= i < size_ v - 1 ->
                        slot (fst s) (snd s) i = slot v w i) /\
             slot v (snd s) (size_ v - 1) = None).
Proof.
  intros Hv Hpos.
  assert (Hs : 0 <= size_ v <= capacity_ (data_ v)) by apply Hv.
  destruct (valid_nonnull v w Hv) as (b & Eb & Hblk & Hlive & Hraw); [lia|].
  unfold PopBack. apply returns_bind. unfold returns at 1, this.
  cbn [fst snd]. unfold GetAddress. rewrite Eb. cbn [ptr_add].
  replace (0 + size_ v + -1) with (size_ v - 1) by lia.
  apply returns_bind, returns_lift.
  assert (Hin : in_bounds w b (size_ v - 1) = true).
  { apply (in_bounds_iff _ _ _ _ Hblk). lia. }
  destruct (cells w b (size_ v - 1)) as [y|] eqn:Ey;
    [|exfalso; apply (Hlive (size_ v - 1)); [lia|exact Ey]].
  eapply eq_returns; [apply (destroy_at_eq _ _ _ _ Hin Ey)|].
  unfold returns, set_this. cbn [fst snd].
  split; [reflexivity|]. split; [|split; [reflexivity|split; [reflexivity|]]].
  - split; cbn [data_ size_]; [lia|]. rewrite Eb. repeat split; try lia.
    + exact Hblk.
    + intros i Hi. rewrite cells_set_cell_other by lia. apply Hlive. lia.
    + intros i Hi. destruct (Z.eq_dec i (size_ v - 1)) as [->|Hne].
      * apply cells_set_cell_same.
      * rewrite cells_set_cell_other by lia. apply Hraw. lia.
  - split.
    + intros i Hi. unfold slot. cbn [data_]. rewrite Eb.
      apply cells_set_cell_other. lia.
    + unfold slot. rewrite Eb. cbn [Z.add].
      replace (0 + (size_ v - 1)) with (size_ v - 1) by lia.
      apply cells_set_cell_same.
Qed.

(** X4.  [PopBack] on a well-formed vector that is not empty: the call
    returns, the vector keeps its buffer and capacity, the last element
    is destroyed (its slot is raw afterwards) and the elements before
    it are unchanged. *)
Theorem PopBack_removes_last (v : Vector) (w : W) :
  valid v w -> 0 < Size v ->
  returns PopBack (v, w)
          (fun _ s =>
             valid (fst s) (snd s) /\
             data_ (fst s) = data_ v /\
             Size (fst s) = Size v - 1 /\
             elements (fst s) (snd s) ++ [slot v w (Size v - 1)]
             = elements v w /\
             slot v (snd s) (Size v - 1) = None).
Proof.
  intros Hv Hpos.
  eapply returns_weaken; [apply (PopBack_spec v w Hv Hpos)|].
  intros [] [v1 w1] (E & Hv1 & _ & _ & Hsl & Hn). cbn [fst snd] in *.
  subst v1. unfold Size in *. cbn [data_ size_] in *.
  split; [exact Hv1|]. split; [reflexivity|]. split; [reflexivity|].
  split; [|exact Hn]. symmetry.
  apply elements_snoc; cbn [size_]; try lia.
  - intros i Hi. symmetry. apply Hsl. exact Hi.
  - reflexivity.
Qed.

End PopBackSpec.

Lemma PopBack_removes_last_witness :
  returns PopBack (fst int_123, snd int_123)
          (fun _ s => Size (fst s) = 2 /\
                      elements (fst s) (snd s) = [Some 1; Some 2]).
Proof.
  eapply returns_weaken.
  - apply (PopBack_removes_last (fst int_123) (snd int_123)).
    + apply validb_valid. vm_compute. reflexivity.
    + vm_compute. reflexivity.
  - intros [] s (_ & _ & Hs & He & _). split; [exact Hs|].
    apply (app_inj_tail (elements (fst s) (snd s)) [Some 1; Some 2]
                        (slot (fst int_123) (snd int_123)
                              (Size (fst int_123) - 1)) (Some 3)).
    rewrite He. vm_compute. reflexivity.
Defined.

Section PushPop.

Context {T : Type} `{ET : Elem T} `{VS : !ValueSemantics T}.

Local Abbreviation W := (World T).

(** X5.  [PushBack], with an argument that constructs [x] without
    referring to an object of the free store, followed by [PopBack]
    gives back the length and the sequence of elements; the capacity
    is at least what it was (the push may have reallocated). *)
Theorem PushBack_then_PopBack_restores
        (a : Arg T) (x : T) (v : Vector) (w : W) :
  valid v w -> wf_world w -> arg_value a = Some x ->
  returns (PushBack a ;; PopBack) (v, w)
          (fun _ s =>
             valid (fst s) (snd s) /\ wf_world (snd s) /\
             Size (fst s) = Size v /\
             Capacity v <= Capacity (fst s) /\
             elements (fst s) (snd s) = elements v w).
Proof.
  intros Hv Hwf Ha. apply returns_bind.
  assert (Hs : 0 <= size_ v <= capacity_ (data_ v)) by apply Hv.
  pose proof (PushBack_fields a v w) as F. unfold post in F.
  pose proof (PushBack_spec a x v w Hv Hwf Ha) as P. unfold returns in *.
  destruct (PushBack a (v, w)) as [[] [v1 w1]| |]; try contradiction.
  cbn [fst snd] in *. destruct P as (Hv1 & Hwf1 & Hs1 & Hsl & Hx).
  destruct F as (_ & Hcap & _).
  pose proof (PopBack_spec v1 w1 Hv1 ltac:(lia)) as Q. unfold returns in Q.
  destruct (PopBack (v1, w1)) as [[] [v2 w2]| |]; try contradiction.
  cbn [fst snd] in *. destruct Q as (E & Hv2 & B & N & Hsl2 & _).
  subst v2. unfold Size, Capacity in *. cbn [data_ size_] in *.
  split; [exact Hv2|]. split; [|split; [lia|split]].
  - intros b Hb. rewrite N. apply Hwf1. rewrite <- B. exact Hb.
  - rewrite Hcap. destruct (capacity_ (data_ v) <=? size_ v) eqn:E1;
      [|lia]. apply Z.leb_le in E1.
    destruct (size_ v =? 0) eqn:E2; [apply Z.eqb_eq in E2|]; lia.
  - apply elements_eq; cbn [size_]; [lia|].
    intros i Hi. rewrite Hsl2 by lia. apply Hsl. exact Hi.
Qed.

End PushPop.

Lemma PushBack_then_PopBack_restores_witness :
  returns (PushBack (CopyOf 4) ;; PopBack) (fst int_123, snd int_123)
          (fun _ s => elements (fst s) (snd s) = [Some 1; Some 2; Some 3]).
Proof.
  eapply returns_weaken.
  - apply (PushBack_then_PopBack_restores
             (CopyOf 4) 4 (fst int_123) (snd int_123)).
    + apply validb_valid. vm_compute. reflexivity.
    + wf_concrete.
    + reflexivity.
  - intros [] s (_ & _ & _ & _ & He). rewrite He. vm_compute. reflexivity.
Defined.

(** ** Insertion and removal, as lists *)

Section ElementListsMore.

Context {T : Type}.

Lemma nth_error_elements (v : Vector) (w : World T) (j : nat) :
  nth_error (elements v w) j =
  if (j <? Z.to_nat (size_ v))%nat then Some (slot v w (Z.of_nat j))
  else None.
Proof.
  unfold elements. rewrite nth_error_map, nth_error_seq.
  destruct (j <? Z.to_nat (size_ v))%nat; reflexivity.
Qed.

Lemma elements_erase (v v' : Vector) (w w' : World T) (k : Z) :
  0 <= k < size_ v -> size_ v' = size_ v - 1 ->
  (forall i, 0 <= i < k -> slot v' w' i = slot v w i) ->
  (forall i, k <= i < size_ v - 1 -> slot v' w' i = slot v w (i + 1)) ->
  elements v' w' =
  firstn (Z.to_nat k) (elements v w)
  ++ skipn (S (Z.to_nat k)) (elements v w).
Proof.
  intros Hk Hs H1 H2. apply nth_error_ext. intros j.
  rewrite nth_error_elements.
  destruct (Nat.ltb_spec j (Z.to_nat k)) as [Hj|Hj].
  - rewrite nth_error_app1
      by (rewrite length_firstn, elements_length; lia).
    rewrite nth_error_firstn, nth_error_elements.
    replace (j <? Z.to_nat k)%nat with true
      by (symmetry; apply Nat.ltb_lt; lia).
    replace (j <? Z.to_nat (size_ v'))%nat with true
      by (symmetry; apply Nat.ltb_lt; lia).
    replace (j <? Z.to_nat (size_ v))%nat with true
      by (symmetry; apply Nat.ltb_lt; lia).
    rewrite H1 by lia. reflexivity.
  - rewrite nth_error_app2
      by (rewrite length_firstn, elements_length; lia).
    rewrite length_firstn, elements_length, nth_error_skipn,
      nth_error_elements.
    replace (Nat.min (Z.to_nat k) (Z.to_nat (size_ v))) with (Z.to_nat k)
      by lia.
    replace (S (Z.to_nat k) + (j - Z.to_nat k))%nat with (S j) by lia.
    destruct (Nat.ltb_spec j (Z.to_nat (size_ v'))) as [Hl|Hl].
    + replace (S j <? Z.to_nat (size_ v))%nat with true
        by (symmetry; apply Nat.ltb_lt; lia).
      rewrite H2 by lia. do 2 f_equal. lia.
    + replace (S j <? Z.to_nat (size_ v))%nat with false
        by (symmetry; apply Nat.ltb_ge; lia).
      reflexivity.
Qed.

Lemma elements_insert (v v' : Vector) (w w' : World T) (k : Z)
      (y : option T) :
  0 <= k <= size_ v -> size_ v' = size_ v + 1 ->
  (forall i, 0 <= i < k -> slot v' w' i = slot v w i) ->
  slot v' w' k = y ->
  (forall i, k <= i < size_ v -> slot v' w' (i + 1) = slot v w i) ->
  elements v' w' =
  firstn (Z.to_nat k) (elements v w)
  ++ y :: skipn (Z.to_nat k) (elements v w).
Proof.
  intros Hk Hs H1 Hy H2. apply nth_error_ext. intros j.
  rewrite nth_error_elements.
  destruct (Nat.ltb_spec j (Z.to_nat k)) as [Hj|Hj].
  - rewrite nth_error_app1
      by (rewrite length_firstn, elements_length; lia).
    rewrite nth_error_firstn, nth_error_elements.
    replace (j <? Z.to_nat k)%nat with true
      by (symmetry; apply Nat.ltb_lt; lia).
    replace (j <? Z.to_nat (size_ v'))%nat with true
      by (symmetry; apply Nat.ltb_lt; lia).
    replace (j <? Z.to_nat (size_ v))%nat with true
      by (symmetry; apply Nat.ltb_lt; lia).
    rewrite H1 by lia. reflexivity.
  - rewrite nth_error_app2
      by (rewrite length_firstn, elements_length; lia).
    rewrite length_firstn, elements_length.
    replace (Nat.min (Z.to_nat k) (Z.to_nat (size_ v))) with (Z.to_nat k)
      by lia.
    destruct (j - Z.to_nat k)%nat as [|m] eqn:Em.
    + simpl. replace (j <? Z.to_nat (size_ v'))%nat with true
        by (symmetry; apply Nat.ltb_lt; lia).
      replace (Z.of_nat j) with k by lia. rewrite Hy. reflexivity.
    + simpl. rewrite nth_error_skipn, nth_error_elements.
      replace (Z.to_nat k + m)%nat with (j - 1)%nat by lia.
      destruct (Nat.ltb_spec j (Z.to_nat (size_ v'))) as [Hl|Hl].
      * replace (j - 1 <? Z.to_nat (size_ v))%nat with true
          by (symmetry; apply Nat.ltb_lt; lia).
        replace (Z.of_nat j) with (Z.of_nat (j - 1) + 1) by lia.
        rewrite H2 by lia. reflexivity.
      * replace (j - 1 <? Z.to_nat (size_ v))%nat with false
          by (symmetry; apply Nat.ltb_ge; lia).
        reflexivity.
Qed.

End ElementListsMore.

Section InsertEraseLists.

Context {T : Type} `{ET : Elem T} `{VS : !ValueSemantics T}.

Local Abbreviation W := (World T).

(** X6.  [Erase] at [begin() + k], for [0 <= k < size] within [int], on
    elements with value semantics: the call returns [begin() + k], the
    vector keeps its buffer and capacity, and its sequence of elements
    is the old one without the element at index [k], the others in
    order. *)
Theorem Erase_removes_element (k : Z) (v : Vector) (w : W) :
  valid v w -> 0 <= k < Size v -> k <= INT_MAX ->
  returns (Erase (ptr_add (begin v) k)) (v, w)
          (fun r s =>
             r = ptr_add (begin (fst s)) k /\
             valid (fst s) (snd s) /\
             data_ (fst s) = data_ v /\
             Size (fst s) = Size v - 1 /\
             elements (fst s) (snd s) =
             firstn (Z.to_nat k) (elements v w)
             ++ skipn (S (Z.to_nat k)) (elements v w)).
Proof.
  intros Hv Hk Hint.
  eapply returns_weaken; [apply (Erase_spec k v w Hv Hk Hint)|].
  intros r [v1 w1] (Hr & E & Hv1 & _ & _ & H1 & H2). cbn [fst snd] in *.
  split; [exact Hr|]. split; [exact Hv1|].
  split; [rewrite E; reflexivity|]. split; [rewrite E; reflexivity|].
  apply (elements_erase v v1 w w1 k); auto.
  rewrite E. reflexivity.
Qed.

(** X7.  [Emplace] (and so [Insert]) at [begin() + k], for
    [0 <= k <= size] within [int], on elements with value semantics and
    arguments that construct [x] without referring to an object of the
    free store ([arg_value] is defined, which leaves out [MoveFrom]):
    the call returns, whichever of its three paths it takes
    (reallocation, in place before [end()], in place at [end()]), and
    the sequence of elements is the old one with [x] inserted at index
    [k]. *)
Theorem Emplace_inserts_element
        (k : Z) (a : Arg T) (x : T) (v : Vector) (w : W) :
  valid v w -> wf_world w ->
  0 <= k <= Size v -> k <= INT_MAX -> arg_value a = Some x ->
  returns (Emplace (ptr_add (begin v) k) a) (v, w)
          (fun _ s =>
             valid (fst s) (snd s) /\ wf_world (snd s) /\
             Size (fst s) = Size v + 1 /\
             elements (fst s) (snd s) =
             firstn (Z.to_nat k) (elements v w)
             ++ Some x :: skipn (Z.to_nat k) (elements v w)).
Proof.
  intros Hv Hwf Hk Hint Ha.
  eapply returns_weaken; [apply (Emplace_spec k a x v w); auto|].
  intros r [v1 w1] (_ & Hv1 & Hwf1 & Hs & H1 & Hx & H2). cbn [fst snd] in *.
  repeat split; auto; try apply Hv1.
  apply (elements_insert v v1 w w1 k (Some x)); auto.
Qed.

End InsertEraseLists.

Lemma Erase_removes_element_witness :
  returns (Erase (ptr_add (begin (fst int_123)) 1)) (fst int_123, snd int_123)
          (fun _ s => elements (fst s) (snd s) = [Some 1; Some 3]).
Proof.
  eapply returns_weaken.
  - apply (Erase_removes_element 1 (fst int_123) (snd int_123)).
    + apply validb_valid. vm_compute. reflexivity.
    + vm_compute. split; [discriminate|reflexivity].
    + vm_compute. discriminate.
  - intros r s (_ & _ & _ & _ & He). rewrite He. vm_compute. reflexivity.
Defined.

Lemma Emplace_inserts_element_witness :
  returns (Emplace (ptr_add (begin (fst int_123)) 1) (CopyOf 99))
          (fst int_123, snd int_123)
          (fun _ s => elements (fst s) (snd s)
                      = [Some 1; Some 99; Some 2; Some 3]).
Proof.
  eapply returns_weaken.
  - apply (Emplace_inserts_element
             1 (CopyOf 99) 99 (fst int_123) (snd int_123)).
    + apply validb_valid. vm_compute. reflexivity.
    + wf_concrete.
    + vm_compute. split; discriminate.
    + vm_compute. discriminate.
    + reflexivity.
  - intros r s (_ & _ & _ & He). rewrite He. vm_compute. reflexivity.
Defined.

Section InsertEraseRoundTrip.

Context {T : Type} `{ET : Elem T} `{VS : !ValueSemantics T}.

(** X8.  [Insert] at [begin() + k], of a value that does not refer to
    an object of the free store, followed by [Erase] at the iterator
    [Insert] returned, for [0 <= k <= size] within [int]: both calls
    return and the vector has the length and the sequence of elements
    it started with. *)
Theorem Insert_then_Erase_round_trip
        (k : Z) (a : Arg T) (x : T) (v : Vector) (w : World T) :
  valid v w -> wf_world w ->
  0 <= k <= Size v -> k <= INT_MAX -> arg_value a = Some x ->
  returns (r <- Insert (ptr_add (begin v) k) a ;; Erase r) (v, w)
          (fun _ s =>
             valid (fst s) (snd s) /\
             Size (fst s) = Size v /\
             elements (fst s) (snd s) = elements v w).
Proof.
  intros Hv Hwf Hk Hint Ha.
  eapply returns_weaken;
    [apply (insert_then_erase_restores k a x v w); auto|].
  intros r s (H1 & H2 & H3). repeat split; auto; try apply H1.
  apply elements_eq; assumption.
Qed.

End InsertEraseRoundTrip.

Lemma Insert_then_Erase_round_trip_witness :
  returns (r <- Insert (ptr_add (begin (fst int_123)) 1) (CopyOf 99) ;;
           Erase r)
          (fst int_123, snd int_123)
          (fun _ s => elements (fst s) (snd s) = [Some 1; Some 2; Some 3]).
Proof.
  eapply returns_weaken.
  - apply (Insert_then_Erase_round_trip
             1 (CopyOf 99) 99 (fst int_123) (snd int_123)).
    + apply validb_valid. vm_compute. reflexivity.
    + wf_concrete.
    + vm_compute. split; discriminate.
    + vm_compute. discriminate.
    + reflexivity.
  - intros r s (_ & _ & He). rewrite He. vm_compute. reflexivity.
Defined.

(** ** The sized constructor *)

Section SizedConstructor.

Context {T : Type} `{ET : Elem T} `{VS : !ValueSemantics T}.

Local Abbreviation W := (World T).

Lemma wf_world_allocated (w : W) (n : Z) :
  wf_world w -> wf_world (allocated w n).
Proof.
  intros Hwf b Hb. simpl in *. unfold upd in Hb.
  destruct (Z.eqb_spec b (next_block w)); [lia|].
  specialize (Hwf b Hb). lia.
Qed.

(** X9.  [Vector(n)] with [n * sizeof(T)] within [size_t], on elements
    with value semantics whose value initialisation gives [d]: the
    call returns a well-formed vector of length and capacity [n] whose
    elements are all [d].  For [n = 0] nothing is allocated: the free
    store is unchanged and the vector holds the null pointer. *)
Theorem Vector_sized_builds_defaults (n : Z) (w : W) (d : T) :
  0 <= n -> fits_size_t n -> wf_world w ->
  (forall k, value_init k = Some d) ->
  returns (Vector_sized n) w
          (fun v w' =>
             valid v w' /\ wf_world w' /\
             Size v = n /\ Capacity v = n /\
             elements v w' = repeat (Some d) (Z.to_nat n) /\
             (n = 0 -> w' = w /\ begin v = Null)).
Proof.
  intros Hn _ Hwf Hd. destruct (Z.eq_dec n 0) as [->|Hne].
  - unfold returns. simpl. repeat split; auto; try lia.
  - unfold Vector_sized. apply returns_bind.
    eapply eq_returns; [apply RawMemory_new_eq, Hne|].
    apply returns_bind, returns_on_throw. unfold GetAddress. cbn [buffer_].
    eapply returns_weaken.
    { apply (uninitialized_value_construct_n_spec
               (allocated w n) (next_block w) 0 n n d Hd);
        try lia. apply blocks_allocated_new. }
    intros [] w1 ((B & N & C) & Hsome). unfold returns, ret.
    assert (Hsl : forall i, 0 <= i < n ->
              slot {| data_ := {| buffer_ := Ptr (next_block w) 0;
                                  capacity_ := n |};
                      size_ := n |} w1 i = Some d).
    { intros i Hi. unfold slot. cbn [data_ buffer_]. apply Hsome. lia. }
    split; [|split; [|split; [reflexivity|split; [reflexivity|split]]]].
    + split; cbn [data_ size_ capacity_ buffer_]; [lia|].
      repeat split; try lia.
      * rewrite B. apply blocks_allocated_new.
      * intros i Hi. rewrite Hsome by lia. discriminate.
    + intros b Hb. rewrite N. apply (wf_world_allocated w n Hwf).
      rewrite <- B. exact Hb.
    + unfold elements. cbn [size_].
      transitivity (map (fun _ : nat => Some d) (seq 0 (Z.to_nat n))).
      2: { rewrite map_const, length_seq. reflexivity. }
      apply map_ext_in.
      intros k Hk. apply in_seq in Hk. apply Hsl. lia.
    + intros H0. contradiction.
Qed.

End SizedConstructor.

Lemma Vector_sized_builds_defaults_witness :
  returns (Vector_sized 5) (@empty_world Z)
          (fun v w' => elements v w'
                       = [Some 0; Some 0; Some 0; Some 0; Some 0]).
Proof.
  eapply returns_weaken.
  - apply (Vector_sized_builds_defaults 5 (@empty_world Z) 0).
    + lia.
    + split; vm_compute; discriminate.
    + apply wf_empty_world.
    + reflexivity.
  - intros v w' (_ & _ & _ & _ & He & _). rewrite He. reflexivity.
Defined.

(** ** The copy constructor *)

Section CopyLoopFacts.

Context {T : Type} `{ET : Elem T}.

Local Abbreviation W := (World T).

Lemma returns_outcome {S A} (m : M S A) (s : S)
      (Q Q' : A -> S -> Prop) (E : S -> Prop) :
  returns m s Q -> outcome m s Q' E ->
  returns m s (fun a s' => Q a s' /\ Q' a s').
Proof.
  unfold returns, outcome. destruct (m s); auto.
Qed.

(** A run of [uninitialized_copy_n] writes to the destination block
    only; when a copy throws, the slots it had filled are raw again. *)
Lemma uninitialized_copy_n_outcome (src : ptr) (n db o : Z) (w : W) :
  outcome (uninitialized_copy_n src n (Ptr db o)) w
          (fun _ w' => only_block db w w')
          (fun w' => only_block db w w' /\
                     forall j, cells w' db j = cells w db j \/
                               cells w' db j = None).
Proof.
  unfold uninitialized_copy_n. apply outcome_bind.
  unfold outcome at 1, count. destruct (n <? 0); [exact I|]. unfold ret.
  apply uninit_copy_loop_outcome; [lia|reflexivity].
Qed.

End CopyLoopFacts.

Section CopyConstructor.

Context {T : Type} `{ET : Elem T} `{VS : !ValueSemantics T}.

Local Abbreviation W := (World T).

(** A vector stays well formed, with its elements, in a free store
    that agrees with the old one on every block but [nb], which is not
    the vector's. *)
Lemma valid_elsewhere (v : Vector) (w w' : W) (nb : Z) :
  valid v w ->
  (forall b o, buffer_ (data_ v) = Ptr b o -> b <> nb) ->
  (forall b, b <> nb -> blocks w' b = blocks w b) ->
  (forall b j, b <> nb -> cells w' b j = cells w b j) ->
  valid v w' /\ (forall i, slot v w' i = slot v w i).
Proof.
  intros [Hs Hv] Hnb B C. unfold valid, slot.
  destruct (buffer_ (data_ v)) as [|b o]; [auto|].
  assert (Hb : b <> nb) by (apply (Hnb b o); reflexivity).
  destruct Hv as (-> & Hc & Hblk & Hlive & Hraw).
  split; [|intros i; apply C, Hb].
  split; [exact Hs|]. repeat split; try lia.
  - rewrite B by exact Hb. exact Hblk.
  - intros i Hi. rewrite C by exact Hb. apply Hlive, Hi.
  - intros i Hi. rewrite C by exact Hb. apply Hraw, Hi.
Qed.

Lemma Vector_copy_spec (other : Vector) (w : W) :
  valid other w -> wf_world w ->
  returns (Vector_copy other) w
          (fun v w' =>
             valid v w' /\ wf_world w' /\
             size_ v = size_ other /\ capacity_ (data_ v) = size_ other /\
             (forall i, 0 <= i < size_ other ->
                        slot v w' i = slot other w i) /\
             (forall b, b <> next_block w -> blocks w' b = blocks w b) /\
             (forall b j, b <> next_block w ->
                          cells w' b j = cells w b j) /\
             (forall b o, buffer_ (data_ v) = Ptr b o ->
                          b = next_block w /\ next_block w < next_block w')).
Proof.
  intros Hv Hwf.
  assert (Hs : 0 <= size_ other <= capacity_ (data_ other)) by apply Hv.
  unfold Vector_copy. destruct (Z.eq_dec (size_ other) 0) as [H0|Hne].
  - rewrite H0. unfold returns. cbn.
    split; [split; cbn; [lia|reflexivity]|].
    repeat split; auto; try lia; discriminate.
  - destruct (valid_nonnull other w Hv) as (b & Eb & Hblk & Hlive & Hraw);
      [lia|].
    destruct (valid_block_old other w b 0 Hv Hwf Eb) as (_ & Hbn & _).
    apply returns_bind.
    eapply eq_returns; [apply RawMemory_new_eq, Hne|].
    apply returns_bind, returns_on_throw. unfold GetAddress.
    rewrite Eb. cbn [buffer_].
    eapply returns_weaken.
    { eapply returns_outcome; [|apply uninitialized_copy_n_outcome].
      apply (uninitialized_copy_n_spec
               (allocated w (size_ other)) b 0 (next_block w) 0
               (size_ other) (capacity_ (data_ other)) (size_ other));
        auto; try lia.
      - rewrite blocks_allocated_old by exact Hbn. exact Hblk.
      - apply blocks_allocated_new.
      - intros j Hj. simpl.
        destruct (Z.eqb_spec b (next_block w)); [contradiction|].
        apply Hlive. lia. }
    intros [] w1 [((B & N & _) & Hcp & Hsrc) (_ & _ & C)].
    unfold returns, ret.
    assert (Hnew : forall j, 0 <= j < size_ other ->
                             cells w1 (next_block w) j = cells w b j).
    { intros j Hj. replace j with (0 + j) at 1 by lia.
      rewrite Hcp by lia. simpl.
      destruct (Z.eqb_spec b (next_block w)); [contradiction|].
      f_equal. }
    split; [|split; [|split; [reflexivity|split; [reflexivity|split;
                                 [|split; [|split]]]]]].
    + split; cbn [data_ size_ capacity_ buffer_]; [lia|].
      repeat split; try lia.
      * rewrite B. apply blocks_allocated_new.
      * intros i Hi. rewrite Hnew by lia. apply Hlive. lia.
    + intros b' Hb'. rewrite N. apply (wf_world_allocated w _ Hwf).
      rewrite <- B. exact Hb'.
    + intros i Hi. unfold slot. cbn [data_ buffer_]. rewrite Eb.
      apply Hnew, Hi.
    + intros b' Hb'. rewrite B. apply blocks_allocated_old, Hb'.
    + intros b' j Hb'. rewrite C by exact Hb'. simpl.
      destruct (Z.eqb_spec b' (next_block w)); [contradiction|reflexivity].
    + cbn [data_ buffer_]. intros b' o Hp. inversion Hp. subst b' o.
      split; [reflexivity|]. rewrite N. simpl. lia.
Qed.

(** X10.  [Vector(other)], on elements with value semantics: the call
    returns a well-formed vector whose capacity and length are the
    length of [other] (not its capacity) and whose elements equal
    those of [other]; [other] stays well formed, with the elements it
    had. *)
Theorem Vector_copy_copies_elements (other : Vector) (w : W) :
  valid other w -> wf_world w ->
  returns (Vector_copy other) w
          (fun v w' =>
             valid v w' /\ wf_world w' /\ valid other w' /\
             Size v = Size other /\ Capacity v = Size other /\
             elements v w' = elements other w /\
             elements other w' = elements other w).
Proof.
  intros Hv Hwf. eapply returns_weaken; [apply Vector_copy_spec; assumption|].
  intros v w' (Hv' & Hwf' & Hsz & Hcap & Hsl & B & C & _).
  destruct (valid_elsewhere other w w' (next_block w) Hv) as [Ho Hso];
    auto.
  { intros b o Eb.
    destruct (valid_block_old other w b o Hv Hwf Eb) as (_ & Hb & _).
    exact Hb. }
  repeat split; auto; try apply Hv'; try apply Ho.
  - apply elements_eq; [exact Hsz|]. exact Hsl.
  - apply elements_eq; [reflexivity|]. intros i _. apply Hso.
Qed.

End CopyConstructor.

Lemma Vector_copy_copies_elements_witness :
  returns (Vector_copy (fst int_123)) (snd int_123)
          (fun v w' => Capacity v = 3 /\
                       elements v w' = [Some 1; Some 2; Some 3]).
Proof.
  eapply returns_weaken.
  - apply (Vector_copy_copies_elements (fst int_123) (snd int_123)).
    + apply validb_valid. vm_compute. reflexivity.
    + wf_concrete.
  - intros v w' (_ & _ & _ & _ & Hc & He & _). split.
    + rewrite Hc. vm_compute. reflexivity.
    + rewrite He. vm_compute. reflexivity.
Defined.

(** ** Constructors that throw *)

Section ConstructorThrows.

Context {T : Type} `{ET : Elem T}.

Local Abbreviation W := (World T).

Lemma construct_value_outcome (db i k : Z) (w : W) :
  outcome (construct_value (Ptr db i) k) w
          (fun _ w' => only_block db w w' /\
                       forall j, j <> i -> cells w' db j = cells w db j)
          (fun w' => w' = w).
Proof.
  unfold outcome, construct_value, bind, storage.
  destruct (in_bounds w db i) eqn:Hin; [|exact I].
  destruct (value_init k) as [x|]; simpl; [|reflexivity].
  unfold store. rewrite Hin. split.
  - apply only_block_set_cell.
  - intros j Hj. apply cells_set_cell_other. auto.
Qed.

Lemma uninit_value_loop_outcome (db o : Z) (w0 : W) (n : nat) :
  forall (i : Z) (w : W),
    0 <= i ->
    (forall j, ~ (o <= j < o + i) -> cells w db j = cells w0 db j) ->
    outcome (uninit_loop
               (fun i => construct_value (ptr_add (Ptr db o) i) i)
               (Ptr db o) i n) w
            (fun _ w' => only_block db w w')
            (fun w' => only_block db w w' /\
                       forall j, cells w' db j = cells w0 db j \/
                                 cells w' db j = None).
Proof.
  induction n as [|n IH]; intros i w Hi Hinv.
  - apply outcome_ret. apply only_block_refl.
  - simpl uninit_loop. apply outcome_bind, outcome_on_throw. cbn [ptr_add].
    eapply outcome_weaken; [apply construct_value_outcome| |].
    + intros [] w1 [Hob Hc]. cbv beta.
      eapply outcome_weaken; [apply (IH (i + 1) w1); [lia|]| |].
      * intros j Hj. rewrite Hc by lia. apply Hinv. lia.
      * intros [] w2 H2. apply (only_block_trans db w w1 w2); assumption.
      * intros w2 [H2 H3]. split; [|exact H3].
        apply (only_block_trans db w w1 w2); assumption.
    + intros w1 ->.
      eapply outcome_weaken; [apply destroy_n_outcome| |intros ? []].
      intros [] w2 (Hob & Hnone & Hrest). cbv beta.
      split; [exact Hob|].
      intros j. destruct (Z_le_dec o j); [destruct (Z_lt_dec j (o + i))|].
      * right. apply Hnone. lia.
      * left. rewrite Hrest by lia. apply Hinv. lia.
      * left. rewrite Hrest by lia. apply Hinv. lia.
Qed.

Lemma uninitialized_value_construct_n_outcome (n db o : Z) (w : W) :
  outcome (uninitialized_value_construct_n (Ptr db o) n) w
          (fun _ w' => only_block db w w')
          (fun w' => only_block db w w' /\
                     forall j, cells w' db j = cells w db j \/
                               cells w' db j = None).
Proof.
  unfold uninitialized_value_construct_n. apply outcome_bind.
  unfold outcome at 1, count. destruct (n <? 0); [exact I|]. unfold ret.
  apply uninit_value_loop_outcome; [lia|reflexivity].
Qed.

(** The handler of the two constructors, after a fill of the new
    buffer that threw. *)
Lemma fill_throw_releases (n : Z) (w w1 : W) :
  wf_world w ->
  only_block (next_block w) (allocated w n) w1 ->
  (forall j, cells w1 (next_block w) j
             = cells (allocated w n) (next_block w) j \/
             cells w1 (next_block w) j = None) ->
  outcome (RawMemory_dtor {| buffer_ := Ptr (next_block w) 0;
                             capacity_ := n |}) w1
          (fun _ w' => nothing_kept w w') (nothing_kept w).
Proof.
  intros Hwf (B & N & C) Hc.
  eapply outcome_eq.
  - apply (RawMemory_dtor_eq w1 _ _ n). rewrite B.
    simpl. unfold upd. rewrite Z.eqb_refl. reflexivity.
  - split; [|split].
    + intros b. simpl. unfold upd. rewrite B. simpl. unfold upd.
      destruct (Z.eqb_spec b (next_block w)) as [->|Hb]; [|reflexivity].
      destruct (blocks w (next_block w)) eqn:Eb; [|reflexivity].
      assert (next_block w < next_block w)
        by (apply Hwf; rewrite Eb; discriminate). lia.
    + intros b j Hb. simpl. rewrite C by exact Hb. simpl.
      destruct (Z.eqb_spec b (next_block w)); [contradiction|reflexivity].
    + intros j. simpl. destruct (Hc j) as [H|H]; [|exact H].
      rewrite H. simpl. rewrite Z.eqb_refl. reflexivity.
Qed.

(** X11.  When a copy of an element throws inside [Vector(other)], the
    exception leaves the constructor with the free store as it was
    before the call: the new buffer is released, the copies made so
    far are destroyed, and nothing else was written. *)
Theorem Vector_copy_throw_keeps_nothing (other : Vector) (w : W) :
  wf_world w ->
  outcome (Vector_copy other) w (fun _ _ => True) (nothing_kept w).
Proof.
  intros Hwf. unfold Vector_copy. apply outcome_bind.
  destruct (Z.eq_dec (size_ other) 0) as [H0|Hne].
  - rewrite H0. unfold outcome at 1. cbn. exact I.
  - eapply outcome_eq; [apply RawMemory_new_eq, Hne|].
    apply outcome_bind, outcome_on_throw. unfold GetAddress. cbn [buffer_].
    eapply outcome_weaken; [apply uninitialized_copy_n_outcome| |].
    + intros [] w1 _. exact I.
    + intros w1 [Hob Hc]. apply fill_throw_releases; assumption.
Qed.

(** X12.  When the value initialisation of an element throws inside
    [Vector(n)], for [n * sizeof(T)] within [size_t], whichever
    element of the batch it is, the exception leaves the constructor
    with the free store as it was before the call: the new buffer is
    released and the elements built so far are destroyed. *)
Theorem Vector_sized_throw_keeps_nothing (n : Z) (w : W) :
  wf_world w -> fits_size_t n ->
  outcome (Vector_sized n) w (fun _ _ => True) (nothing_kept w).
Proof.
  intros Hwf _. unfold Vector_sized. apply outcome_bind.
  destruct (Z.eq_dec n 0) as [->|Hne].
  - unfold outcome at 1. cbn. exact I.
  - eapply outcome_eq; [apply RawMemory_new_eq, Hne|].
    apply outcome_bind, outcome_on_throw. unfold GetAddress. cbn [buffer_].
    eapply outcome_weaken;
      [apply uninitialized_value_construct_n_outcome| |].
    + intros [] w1 _. exact I.
    + intros w1 [Hob Hc]. apply fill_throw_releases; assumption.
Qed.

End ConstructorThrows.

Lemma Vector_copy_throw_keeps_nothing_witness :
  exists w', Vector_copy (fst fragile_1_13) (snd fragile_1_13) = Throw w' /\
             nothing_kept (snd fragile_1_13) w'.
Proof.
  assert (E : exists w', Vector_copy (fst fragile_1_13) (snd fragile_1_13)
                         = Throw w')
    by (vm_compute; eexists; reflexivity).
  destruct E as [w' E]. exists w'. split; [exact E|].
  assert (Hwf : wf_world (snd fragile_1_13)) by wf_concrete.
  pose proof (Vector_copy_throw_keeps_nothing
                (fst fragile_1_13) (snd fragile_1_13) Hwf) as H.
  unfold outcome in H. rewrite E in H. exact H.
Defined.

Lemma Vector_sized_throw_keeps_nothing_witness :
  exists w', Vector_sized 3 (@empty_world NoDefault) = Throw w' /\
             nothing_kept (@empty_world NoDefault) w'.
Proof.
  assert (E : exists w', Vector_sized 3 (@empty_world NoDefault) = Throw w')
    by (vm_compute; eexists; reflexivity).
  destruct E as [w' E]. exists w'. split; [exact E|].
  assert (Hf : fits_size_t (T:=NoDefault) 3)
    by (split; vm_compute; discriminate).
  pose proof (Vector_sized_throw_keeps_nothing
                3 (@empty_world NoDefault) wf_empty_world Hf) as H.
  unfold outcome in H. rewrite E in H. exact H.
Defined.

(** ** The destructor *)

Section Destructor.

Context {T : Type} `{ET : Elem T}.

Local Abbreviation W := (World T).

Lemma Vector_dtor_spec (v : Vector) (w : W) :
  valid v w ->
  returns (Vector_dtor v) w
          (fun _ w' =>
             next_block w' = next_block w /\
             (forall b, blocks w' b = blocks (release_of v w) b) /\
             (forall i, 0 <= i < capacity_ (data_ v) -> slot v w' i = None) /\
             (forall b j, (forall o, buffer_ (data_ v) <> Ptr b o) ->
                          cells w' b j = cells w b j)).
Proof.
  intros Hv. assert (Hs : 0 <= size_ v <= capacity_ (data_ v)) by apply Hv.
  unfold Vector_dtor, GetAddress.
  destruct (buffer_ (data_ v)) as [|b o] eqn:Eb.
  - destruct (valid_null v w Hv Eb) as [H0 Hc]. rewrite H0.
    apply returns_bind. eapply eq_returns; [apply destroy_n_zero|].
    unfold RawMemory_dtor, Deallocate. rewrite Eb. unfold returns. simpl.
    unfold release_of, slot. rewrite Eb. repeat split; auto.
  - destruct (valid_nonnull v w Hv) as (b' & Eb' & Hblk & Hlive & Hraw).
    { destruct Hv as [_ Hv]. rewrite Eb in Hv. lia. }
    rewrite Eb in Eb'. inversion Eb'. subst b' o. clear Eb'.
    apply returns_bind. eapply returns_weaken.
    { apply (destroy_n_spec w b 0 (size_ v) (capacity_ (data_ v)));
        auto; try lia; intros j Hj; apply Hlive; lia. }
    intros [] w1 [(B & N & C) Hnone].
    eapply eq_returns; [apply (RawMemory_dtor_valid v w w1 Hv B)|].
    unfold release_of, slot. rewrite Eb. simpl.
    split; [exact N|]. split; [|split].
    + intros b'. rewrite B. reflexivity.
    + intros i Hi. destruct (Z_lt_dec i (size_ v)).
      * apply Hnone. lia.
      * rewrite C by lia. apply Hraw. lia.
    + intros b' j Hb'. apply C. intros [-> _]. apply (Hb' 0). reflexivity.
Qed.

(** X13.  [~Vector()] of a well-formed vector returns; afterwards no
    slot of the vector's buffer holds an object, the buffer is no
    longer allocated, and every other allocation is live or not as
    before, with the objects it had. *)
Theorem Vector_dtor_destroys_and_releases (v : Vector) (w : W) :
  valid v w ->
  returns (Vector_dtor v) w
          (fun _ w' =>
             (forall i, 0 <= i < Capacity v -> slot v w' i = None) /\
             (forall b o, begin v = Ptr b o -> blocks w' b = None) /\
             (forall b, (forall o, begin v <> Ptr b o) ->
                        blocks w' b = blocks w b /\
                        forall j, cells w' b j = cells w b j)).
Proof.
  intros Hv. eapply returns_weaken; [apply Vector_dtor_spec, Hv|].
  intros [] w' (_ & B & Hnone & C). unfold begin, GetAddress, Capacity.
  split; [exact Hnone|]. split.
  - intros b o Eb. rewrite B. unfold release_of. rewrite Eb. simpl.
    unfold upd. rewrite Z.eqb_refl. reflexivity.
  - intros b Hb. split; [|intros j; apply C, Hb].
    rewrite B. unfold release_of.
    destruct (buffer_ (data_ v)) as [|b' o'] eqn:Eb; [reflexivity|].
    simpl. unfold upd. destruct (Z.eqb_spec b b') as [->|]; [|reflexivity].
    exfalso. apply (Hb o'). reflexivity.
Qed.

End Destructor.

Lemma Vector_dtor_destroys_and_releases_witness :
  returns (Vector_dtor (fst int_123)) (snd int_123)
          (fun _ w' =>
             (forall i, 0 <= i < 4 -> slot (fst int_123) w' i = None) /\
             forall b o, begin (fst int_123) = Ptr b o ->
                         blocks w' b = None).
Proof.
  eapply returns_weaken.
  - apply (Vector_dtor_destroys_and_releases (fst int_123) (snd int_123)).
    apply validb_valid. vm_compute. reflexivity.
  - intros [] w' (Hnone & Hrel & _). split; [|exact Hrel].
    intros i Hi. apply Hnone.
    replace (Capacity (fst int_123)) with 4 by (vm_compute; reflexivity).
    exact Hi.
Defined.

(** ** Copy assignment into a vector that is too small *)

Section CopyAssignGrows.

Context {T : Type} `{ET : Elem T} `{VS : !ValueSemantics T}.

Local Abbreviation W := (World T).

(** A vector stays well formed, with its elements, in a free store
    that agrees with the old one on the vector's block. *)
Lemma valid_agree (v : Vector) (w w' : W) :
  valid v w ->
  (forall b o, buffer_ (data_ v) = Ptr b o ->
               blocks w' b = blocks w b /\
               forall j, cells w' b j = cells w b j) ->
  valid v w' /\ (forall i, slot v w' i = slot v w i).
Proof.
  intros [Hs Hv] H. unfold valid, slot.
  destruct (buffer_ (data_ v)) as [|b o]; [auto|].
  destruct (H b o eq_refl) as [B C].
  destruct Hv as (-> & Hc & Hblk & Hlive & Hraw).
  split; [|intros i; apply C].
  split; [exact Hs|]. repeat split; try lia.
  - rewrite B. exact Hblk.
  - intros i Hi. rewrite C. apply Hlive, Hi.
  - intros i Hi. rewrite C. apply Hraw, Hi.
Qed.

(** X14.  Copy assignment from a source longer than the target's
    capacity, on elements with value semantics: the call returns; the
    target has a new buffer whose capacity is the length of the
    source, and the elements of the source; the buffer it had is
    released; the source is as it was. *)
Theorem copy_assignment_from_longer (rhs v : Vector) (w : W) :
  valid v w -> valid rhs w -> wf_world w ->
  Capacity v < Size rhs ->
  returns (copy_assignment (Other rhs)) (v, w)
          (fun _ s =>
             valid (fst s) (snd s) /\ wf_world (snd s) /\
             Size (fst s) = Size rhs /\ Capacity (fst s) = Size rhs /\
             elements (fst s) (snd s) = elements rhs w /\
             begin (fst s) = Ptr (next_block w) 0 /\
             (forall b o, begin v = Ptr b o -> blocks (snd s) b = None) /\
             valid rhs (snd s) /\
             elements rhs (snd s) = elements rhs w).
Proof.
  intros Hv Hr Hwf Hlt. unfold Capacity, Size in Hlt.
  assert (Hs : 0 <= size_ v <= capacity_ (data_ v)) by apply Hv.
  assert (Hrs : 0 <= size_ rhs <= capacity_ (data_ rhs)) by apply Hr.
  unfold copy_assignment. apply returns_bind. unfold returns at 1, this.
  cbn [fst snd]. unfold Capacity.
  replace (capacity_ (data_ v) <? size_ rhs) with true
    by (symmetry; apply Z.ltb_lt; lia).
  apply returns_bind, returns_lift.
  eapply returns_weaken; [apply Vector_copy_spec; assumption|].
  intros c w1 (Hc & Hwf1 & Hcs & Hcc & Hsl & B & C & Hnb).
  destruct c as [[cb ccap] csz]. cbn [data_ size_ capacity_ buffer_] in *.
  subst csz ccap.
  assert (Ecb : cb = Ptr (next_block w) 0).
  { destruct Hc as [_ Hc]. cbn [data_ size_ capacity_ buffer_] in Hc.
    destruct cb as [|b o]; [lia|].
    destruct (Hnb b o eq_refl) as [-> _].
    destruct Hc as (-> & _). reflexivity. }
  subst cb.
  assert (Hvn : forall b o, buffer_ (data_ v) = Ptr b o -> b <> next_block w).
  { intros b o Eb.
    destruct (valid_block_old v w b o Hv Hwf Eb) as (_ & Hb & _). exact Hb. }
  assert (Hrn : forall b o, buffer_ (data_ rhs) = Ptr b o ->
                            b <> next_block w).
  { intros b o Eb.
    destruct (valid_block_old rhs w b o Hr Hwf Eb) as (_ & Hb & _).
    exact Hb. }
  destruct (valid_elsewhere v w w1 (next_block w) Hv Hvn B C) as [Hv1 _].
  destruct (valid_elsewhere rhs w w1 (next_block w) Hr Hrn B C)
    as [Hr1 Hrsl].
  unfold Swap, RawMemory_Swap. cbn [data_ size_ capacity_ buffer_].
  apply returns_bind. unfold returns at 1, set_this. cbn [fst snd].
  apply returns_lift.
  eapply returns_weaken.
  { apply (Vector_dtor_spec
             {| data_ := {| buffer_ := buffer_ (data_ v);
                            capacity_ := capacity_ (data_ v) |};
                size_ := size_ v |} w1).
    destruct v as [[vb vc] vs]. exact Hv1. }
  intros [] w2 (N2 & B2 & _ & C2).
  cbn [fst snd data_ size_ capacity_ buffer_] in *.
  unfold release_of in B2. cbn [data_ buffer_] in B2.
  set (v' := {| data_ := {| buffer_ := Ptr (next_block w) 0;
                            capacity_ := size_ rhs |};
                size_ := size_ rhs |}) in *.
  assert (Hv' : valid v' w2 /\ forall i, slot v' w2 i = slot v' w1 i).
  { apply valid_agree; [exact Hc|]. intros b o Eb. inversion Eb. subst b o.
    split.
    - rewrite B2. destruct (buffer_ (data_ v)) as [|vb vo] eqn:Evb;
        [reflexivity|].
      simpl. unfold upd.
      destruct (Z.eqb_spec (next_block w) vb) as [E|]; [|reflexivity].
      exfalso. apply (Hvn vb vo eq_refl). auto.
    - intros j. apply C2. intros o Eo. apply (Hvn _ _ Eo). reflexivity. }
  assert (Hr' : valid rhs w2 /\ forall i, slot rhs w2 i = slot rhs w1 i).
  { apply valid_agree; [exact Hr1|]. intros b o Eb.
    assert (Hd : forall o', buffer_ (data_ v) <> Ptr b o').
    { intros o' Evb.
      destruct Hv as [_ Hv]. rewrite Evb in Hv.
      destruct Hr as [_ Hr]. rewrite Eb in Hr.
      destruct Hv as (_ & _ & Hb1 & _). destruct Hr as (_ & _ & Hb2 & _).
      rewrite Hb1 in Hb2. inversion Hb2. lia. }
    split; [|intros j; apply C2, Hd].
    rewrite B2. destruct (buffer_ (data_ v)) as [|vb vo] eqn:Evb;
      [reflexivity|].
    simpl. unfold upd.
    destruct (Z.eqb_spec b vb) as [->|]; [|reflexivity].
    exfalso. apply (Hd vo). reflexivity. }
  destruct Hv' as [Hv' Hsl']. destruct Hr' as [Hr' Hrsl'].
  split; [exact Hv'|]. split.
  { intros b Hb. rewrite N2. apply Hwf1. rewrite B2 in Hb.
    destruct (buffer_ (data_ v)) as [|vb vo]; [exact Hb|].
    simpl in Hb. unfold upd in Hb.
    destruct (b =? vb); [congruence|exact Hb]. }
  split; [reflexivity|]. split; [reflexivity|]. split.
  { apply elements_eq; [reflexivity|]. intros i Hi.
    rewrite Hsl'. apply Hsl, Hi. }
  split; [reflexivity|]. split.
  { intros b o Eb. unfold begin, GetAddress in Eb. rewrite B2, Eb.
    simpl. unfold upd. rewrite Z.eqb_refl. reflexivity. }
  split; [exact Hr'|].
  apply elements_eq; [reflexivity|]. intros i _.
  rewrite Hrsl'. apply Hrsl.
Qed.

End CopyAssignGrows.

Lemma copy_assignment_from_longer_witness :
  returns (copy_assignment (Other (fst int_123)))
          (fst int_123_then_9, snd int_123_then_9)
          (fun _ s => Capacity (fst s) = 3 /\
                      elements (fst s) (snd s)
                      = [Some 1; Some 2; Some 3]).
Proof.
  eapply returns_weaken.
  - apply (copy_assignment_from_longer
             (fst int_123) (fst int_123_then_9) (snd int_123_then_9)).
    + apply validb_valid. vm_compute. reflexivity.
    + apply validb_valid. vm_compute. reflexivity.
    + wf_concrete.
    + vm_compute. reflexivity.
  - intros [] s (_ & _ & _ & Hc & He & _). split.
    + rewrite Hc. vm_compute. reflexivity.
    + rewrite He. vm_compute. reflexivity.
Defined.

(** ** Copy assignment within the capacity, from a longer source *)

Section CopyAssignAppends.

Context {T : Type} `{ET : Elem T} `{VS : !ValueSemantics T}.

Local Abbreviation W := (World T).

Lemma uninitialized_copy_n_nothing (src dst : ptr) (w : W) :
  uninitialized_copy_n src 0 dst w = Ok tt w.
Proof. reflexivity. Qed.

(** X15.  Copy assignment from another vector that is at least as long
    as the target and fits in its capacity, on elements with value
    semantics: the call returns, the target keeps its buffer and
    capacity, and has the length and the elements of the source; the
    source is as it was. *)
Theorem copy_assignment_within_capacity (rhs v : Vector) (w : W) :
  valid v w -> valid rhs w ->
  (forall b o, begin v = Ptr b o -> begin rhs <> Ptr b o) ->
  Size v <= Size rhs <= Capacity v ->
  returns (copy_assignment (Other rhs)) (v, w)
          (fun _ s =>
             fst s = {| data_ := data_ v; size_ := size_ rhs |} /\
             valid (fst s) (snd s) /\
             elements (fst s) (snd s) = elements rhs w /\
             valid rhs (snd s) /\
             elements rhs (snd s) = elements rhs w).
Proof.
  intros Hv Hr Hne Hsz. unfold Size, Capacity, begin, GetAddress in *.
  assert (Hs : 0 <= size_ v <= capacity_ (data_ v)) by apply Hv.
  assert (Hrs : 0 <= size_ rhs <= capacity_ (data_ rhs)) by apply Hr.
  unfold copy_assignment. apply returns_bind. unfold returns at 1, this.
  cbn [fst snd]. unfold Capacity.
  replace (capacity_ (data_ v) <? size_ rhs) with false
    by (symmetry; apply Z.ltb_ge; lia).
  replace (size_ v <=? size_ rhs) with true
    by (symmetry; apply Z.leb_le; lia).
  apply returns_bind, returns_bind, returns_lift. unfold GetAddress.
  destruct (Z.eq_dec (size_ rhs) 0) as [H0|Hpos].
  - assert (Hv0 : size_ v = 0) by lia. rewrite Hv0, H0.
    eapply eq_returns; [apply std_copy_nothing|].
    apply returns_lift.
    eapply eq_returns; [apply uninitialized_copy_n_nothing|].
    unfold returns, set_this. cbn [fst snd].
    split; [reflexivity|]. split; [|split; [|split; [exact Hr|reflexivity]]].
    + destruct Hv as [_ Hv]. split; cbn [data_ size_]; [lia|].
      destruct (buffer_ (data_ v)) as [|b o]; [exact Hv|].
      destruct Hv as (H1 & H2 & H3 & H4 & H5). repeat split; auto.
      * intros i Hi. lia.
      * intros i Hi. destruct (Z_lt_dec i (size_ v)); [lia|].
        apply H5. lia.
    + unfold elements. cbn [size_]. rewrite H0. reflexivity.
  - destruct (valid_nonnull v w Hv) as (b & Eb & Hblk & Hlive & Hraw);
      [lia|].
    destruct (valid_nonnull rhs w Hr) as (rb & Er & Hrblk & Hrlive & Hrraw);
      [lia|].
    assert (Hbb : rb <> b).
    { intros ->. apply (Hne b 0 Eb). exact Er. }
    rewrite Eb, Er. cbn [ptr_add].
    eapply returns_weaken.
    { apply (std_copy_spec w rb 0 b 0 (size_ v)
                           (capacity_ (data_ rhs)) (capacity_ (data_ v)));
        auto; try lia.
      intros j Hj. apply Hrlive. lia. }
    intros [] w1 [(B1 & N1 & C1) Hcp1].
    apply returns_lift.
    eapply returns_weaken.
    { eapply returns_outcome; [|apply uninitialized_copy_n_outcome].
      apply (uninitialized_copy_n_spec
               w1 rb (0 + size_ v) b (0 + size_ v) (size_ rhs - size_ v)
               (capacity_ (data_ rhs)) (capacity_ (data_ v)));
        auto; try lia.
      - rewrite B1. exact Hrblk.
      - rewrite B1. exact Hblk.
      - intros j Hj. rewrite C1 by (intros [? _]; contradiction).
        apply Hrlive. lia. }
    intros [] w2 [((B2 & N2 & C2) & Hcp2 & _) (_ & _ & O2)].
    unfold returns, set_this. cbn [fst snd].
    assert (Hrb : forall j, cells w2 rb j = cells w rb j).
    { intros j. rewrite O2 by exact Hbb.
      apply C1. intros [? _]. contradiction. }
    assert (Hnew : forall i, 0 <= i < size_ rhs ->
                             cells w2 b i = cells w rb i).
    { intros i Hi. destruct (Z_lt_dec i (size_ v)).
      - rewrite C2 by lia. replace i with (0 + i) by lia.
        apply Hcp1. lia.
      - replace i with (0 + size_ v + (i - size_ v)) at 1 by lia.
        rewrite Hcp2 by lia. rewrite C1 by (intros [? _]; contradiction).
        f_equal. lia. }
    split; [reflexivity|]. split; [|split; [|split]].
    + split; cbn [data_ size_]; [lia|]. rewrite Eb.
      repeat split; try lia.
      * rewrite B2, B1. exact Hblk.
      * intros i Hi. rewrite Hnew by lia. apply Hrlive. lia.
      * intros i Hi. rewrite C2 by lia. rewrite C1 by lia.
        apply Hraw. lia.
    + apply elements_eq; [reflexivity|]. intros i Hi.
      unfold slot. cbn [data_]. rewrite Eb, Er. cbn [Z.add].
      apply Hnew, Hi.
    + refine (proj1 (valid_agree rhs w w2 Hr _)). intros b' o' Eb'.
      rewrite Er in Eb'. inversion Eb'. subst b' o'.
      split; [rewrite B2, B1; reflexivity|exact Hrb].
    + apply elements_eq; [reflexivity|]. intros i _.
      unfold slot. rewrite Er. apply Hrb.
Qed.

End CopyAssignAppends.

Lemma copy_assignment_within_capacity_witness :
  returns (copy_assignment (Other (fst int_123)))
          (fst int_123_then_roomy_9, snd int_123_then_roomy_9)
          (fun _ s => Capacity (fst s) = 4 /\
                      elements (fst s) (snd s)
                      = [Some 1; Some 2; Some 3]).
Proof.
  eapply returns_weaken.
  - apply (copy_assignment_within_capacity
             (fst int_123) (fst int_123_then_roomy_9)
             (snd int_123_then_roomy_9)).
    + apply validb_valid. vm_compute. reflexivity.
    + apply validb_valid. vm_compute. reflexivity.
    + vm_compute. intros b o Hv Hr. congruence.
    + vm_compute. split; congruence.
  - intros [] s (Hf & _ & He & _). split.
    + rewrite Hf. vm_compute. reflexivity.
    + rewrite He. vm_compute. reflexivity.
Defined.

(** ** Element access *)

Section ElementAccess.

Context {T : Type} `{ET : Elem T}.

Local Abbreviation W := (World T).

(** X16.  [operator[]] on a well-formed vector: for an index below the
    length both assertions pass, the vector and the free store are
    untouched, and the reference is to the slot [begin() + index],
    which holds the element at that index; for any other index the
    assertion of [Vector::operator[]] fails. *)
Theorem Vector_index_refers_to_element (i : Z) (v : Vector) (w : W) :
  valid v w -> 0 <= i ->
  (i < Size v ->
   returns (Vector_index i) (v, w)
           (fun p s => s = (v, w) /\ p = ptr_add (begin v) i /\
                       exists x, slot v w i = Some x /\
                                 load p w = Ok x w)) /\
  (Size v <= i -> Vector_index i (v, w) = Undef).
Proof.
  intros Hv Hi. unfold Size. split; intros Hlt.
  - assert (Hs : 0 <= size_ v <= capacity_ (data_ v)) by apply Hv.
    destruct (valid_nonnull v w Hv) as (b & Eb & Hblk & Hlive & _); [lia|].
    unfold Vector_index, returns, bind, this, lift, RawMemory_index.
    cbn [fst snd].
    replace (i <? size_ v) with true by (symmetry; apply Z.ltb_lt; lia).
    replace (i <? capacity_ (data_ v)) with true
      by (symmetry; apply Z.ltb_lt; lia).
    unfold ret. cbn [fst snd]. unfold begin, GetAddress, slot.
    rewrite Eb. cbn [ptr_add]. split; [reflexivity|]. split; [reflexivity|].
    destruct (cells w b (0 + i)) as [x|] eqn:Ex.
    + exists x. split; [reflexivity|]. apply load_eq; [|exact Ex].
      apply (in_bounds_iff _ _ _ _ Hblk). lia.
    + exfalso. apply (Hlive i); [lia|]. exact Ex.
  - unfold Vector_index, bind, this. cbn [fst snd].
    replace (i <? size_ v) with false by (symmetry; apply Z.ltb_ge; lia).
    reflexivity.
Qed.

End ElementAccess.

Lemma Vector_index_refers_to_element_witness :
  returns (Vector_index 1) (fst int_123, snd int_123)
          (fun p _ => load p (snd int_123) = Ok 2 (snd int_123)) /\
  Vector_index 3 (fst int_123, snd int_123) = Undef.
Proof.
  assert (Hv : valid (fst int_123) (snd int_123))
    by (apply validb_valid; vm_compute; reflexivity).
  assert (H1 : 1 < Size (fst int_123)) by (vm_compute; reflexivity).
  assert (H3 : Size (fst int_123) <= 3) by (vm_compute; discriminate).
  assert (E : slot (fst int_123) (snd int_123) 1 = Some 2)
    by (vm_compute; reflexivity).
  split.
  - eapply returns_weaken.
    + exact (proj1 (Vector_index_refers_to_element 1 _ _ Hv ltac:(lia)) H1).
    + intros p s (_ & _ & x & Hx & Hl). rewrite E in Hx.
      injection Hx as <-. exact Hl.
  - exact (proj2 (Vector_index_refers_to_element 3 _ _ Hv ltac:(lia)) H3).
Defined.

(** ** Removing where there is nothing *)

Section RemoveNothing.

Context {T : Type} `{ET : Elem T}.

Local Abbreviation W := (World T).

(** X17.  On a well-formed vector, [PopBack] of an empty vector and
    [Erase(end())] (with the length within [int]) have no defined
    behaviour: neither function checks that there is an element to
    remove. *)
Theorem removing_nothing_is_undefined (v : Vector) (w : W) :
  valid v w ->
  (Size v = 0 -> PopBack (v, w) = Undef) /\
  (Size v <= INT_MAX -> Erase (end_ v) (v, w) = Undef).
Proof.
  intros Hv. unfold Size.
  assert (Hs : 0 <= size_ v <= capacity_ (data_ v)) by apply Hv.
  destruct Hv as [_ Hv]. split.
  - intros H0. unfold PopBack, bind, this, lift, GetAddress.
    cbn [fst snd]. rewrite H0.
    destruct (buffer_ (data_ v)) as [|b o]; [reflexivity|].
    destruct Hv as (-> & _ & Hblk & _).
    cbn [ptr_add]. unfold destroy_at, in_bounds. rewrite Hblk.
    reflexivity.
  - intros Hmax. unfold Erase, bind, this, end_, begin, GetAddress.
    cbn [fst snd].
    destruct (buffer_ (data_ v)) as [|b o]; [reflexivity|].
    destruct Hv as (-> & _ & Hblk & _).
    cbn [ptr_add ptr_diff]. rewrite Z.eqb_refl.
    replace (0 + size_ v - 0) with (size_ v) by lia.
    rewrite to_int_in_range by (unfold INT_MAX in *; lia).
    unfold lift, std_move. cbn [fst snd ptr_diff]. rewrite Z.eqb_refl.
    replace (0 + size_ v - (0 + size_ v + 1)) with (-1) by lia.
    reflexivity.
Qed.

End RemoveNothing.

Lemma removing_nothing_is_undefined_witness :
  PopBack (Vector_default, @empty_world Z) = Undef /\
  Erase (end_ (fst int_123)) (fst int_123, snd int_123) = Undef.
Proof.
  assert (H0 : valid Vector_default (@empty_world Z))
    by (apply validb_valid; vm_compute; reflexivity).
  assert (H1 : valid (fst int_123) (snd int_123))
    by (apply validb_valid; vm_compute; reflexivity).
  assert (H2 : Size (fst int_123) <= INT_MAX)
    by (vm_compute; discriminate).
  exact (conj
           (proj1 (removing_nothing_is_undefined _ _ H0) eq_refl)
           (proj2 (removing_nothing_is_undefined _ _ H1) H2)).
Defined.

(** ** [Resize] to the current length *)

Section ResizeSame.

Context {T : Type} `{ET : Elem T}.

Local Abbreviation W := (World T).

(** X18.  [Resize(Size())] on a vector whose length is within its
    capacity changes nothing, for any element type: no element is
    constructed or destroyed and nothing is allocated. *)
Theorem Resize_to_same_length_is_noop (v : Vector) (w : W) :
  0 <= Size v <= Capacity v ->
  Resize (Size v) (v, w) = Ok tt (v, w).
Proof.
  intros Hs. unfold Resize, Size. unfold bind at 1, this at 1.
  cbn [fst snd]. rewrite Z.ltb_irrefl.
  unfold bind at 1. unfold bind at 1.
  rewrite Reserve_returns_at_once by apply Hs.
  unfold bind at 1, this at 1. cbn [fst snd].
  replace (size_ v - size_ v) with 0 by lia.
  unfold lift, uninitialized_value_construct_n, bind, count. cbn.
  destruct v as [d s]. reflexivity.
Qed.

End ResizeSame.

Lemma Resize_to_same_length_is_noop_witness :
  Resize 1 (fst fragile_13, snd fragile_13)
  = Ok tt (fst fragile_13, snd fragile_13).
Proof.
  apply (Resize_to_same_length_is_noop (fst fragile_13) (snd fragile_13)).
  vm_compute. split; discriminate.
Defined.

(** ** Reallocation by moves copies nothing *)

Section NoCopies.

Context {T : Type} `{ET : Elem T}.

Local Abbreviation W := (World T).

Lemma no_copy_ret {A} (a : A) : no_copy (T:=T) (ret a : M W A).
Proof. intros w. reflexivity. Qed.

Lemma no_copy_bind {A B} (m : M W A) (k : A -> M W B) :
  no_copy m -> (forall a, no_copy (T:=T) (k a)) -> no_copy (T:=T) (bind m k).
Proof.
  intros Hm Hk w. specialize (Hm w). unfold outcome, bind in *.
  destruct (m w) as [a w1| |]; auto.
  specialize (Hk a w1). unfold outcome in Hk.
  destruct (k a w1); congruence.
Qed.

Lemma no_copy_on_throw {A} (m : M W A) (h : M W unit) :
  no_copy m -> no_copy h -> no_copy (T:=T) (on_throw m h).
Proof.
  intros Hm Hh w. specialize (Hm w). unfold outcome, on_throw in *.
  destruct (m w) as [a w1|w1|]; auto.
  specialize (Hh w1). unfold outcome, bind, throw in *.
  destruct (h w1); congruence.
Qed.

Lemma no_copy_storage (p : ptr) : no_copy (T:=T) (storage p).
Proof.
  intros w. unfold outcome, storage. destruct p as [|b i]; [exact I|].
  destruct (in_bounds w b i); reflexivity.
Qed.

Lemma no_copy_load (p : ptr) : no_copy (T:=T) (load p).
Proof.
  intros w. unfold outcome, load. destruct p as [|b i]; [exact I|].
  destruct (in_bounds w b i); [|exact I].
  destruct (cells w b i); reflexivity.
Qed.

Lemma no_copy_store (p : ptr) (x : T) : no_copy (T:=T) (store p x).
Proof.
  intros w. unfold outcome, store. destruct p as [|b i]; [exact I|].
  destruct (in_bounds w b i); reflexivity.
Qed.

Lemma no_copy_call {A} (r : option A) : no_copy (T:=T) (call r).
Proof. intros w. destruct r; reflexivity. Qed.

Lemma no_copy_destroy_at (p : ptr) : no_copy (T:=T) (destroy_at p).
Proof.
  intros w. unfold outcome, destroy_at. destruct p as [|b i]; [exact I|].
  destruct (in_bounds w b i); [|exact I].
  destruct (cells w b i); reflexivity.
Qed.

Lemma no_copy_count (n : Z) : no_copy (T:=T) (count n).
Proof. intros w. unfold outcome, count. destruct (n <? 0); reflexivity. Qed.

Lemma no_copy_destroy_loop (p : ptr) (n : nat) :
  forall i, no_copy (T:=T) (destroy_loop p i n).
Proof.
  induction n as [|n IH]; intros i; simpl.
  - apply no_copy_ret.
  - apply no_copy_bind; [apply no_copy_destroy_at|intros _; apply IH].
Qed.

Lemma no_copy_destroy_n (p : ptr) (n : Z) : no_copy (T:=T) (destroy_n p n).
Proof.
  unfold destroy_n. apply no_copy_bind; [apply no_copy_count|].
  intros k. apply no_copy_destroy_loop.
Qed.

Lemma no_copy_count_move_construct :
  has_move_constructor = true -> no_copy (T:=T) count_move_construct.
Proof.
  intros H w. unfold count_move_construct. rewrite H. reflexivity.
Qed.

Lemma no_copy_count_move_assign :
  has_move_assignment = true -> no_copy (T:=T) count_move_assign.
Proof.
  intros H w. unfold count_move_assign. rewrite H. reflexivity.
Qed.

Lemma no_copy_construct_move (dst src : ptr) :
  has_move_constructor = true ->
  no_copy (T:=T) (construct_move dst src).
Proof.
  intros H. unfold construct_move.
  repeat (apply no_copy_bind; [|intros ?]);
    auto using no_copy_storage, no_copy_load, no_copy_call, no_copy_store,
      no_copy_count_move_construct.
Qed.

Lemma no_copy_uninit_loop (step : Z -> M W unit) (dst : ptr) (n : nat) :
  (forall i, no_copy (T:=T) (step i)) ->
  forall i, no_copy (T:=T) (uninit_loop step dst i n).
Proof.
  intros Hstep. induction n as [|n IH]; intros i; simpl.
  - apply no_copy_ret.
  - apply no_copy_bind; [|intros _; apply IH].
    apply no_copy_on_throw; [apply Hstep|apply no_copy_destroy_n].
Qed.

Lemma no_copy_uninitialized_move_n (src : ptr) (n : Z) (dst : ptr) :
  has_move_constructor = true ->
  no_copy (T:=T) (uninitialized_move_n src n dst).
Proof.
  intros H. unfold uninitialized_move_n.
  apply no_copy_bind; [apply no_copy_count|].
  intros k. apply no_copy_uninit_loop. intros i.
  apply no_copy_construct_move, H.
Qed.

Lemma no_copy_RawMemory_new (n : Z) : no_copy (T:=T) (RawMemory_new n).
Proof.
  intros w. unfold outcome, RawMemory_new, Allocate, bind.
  destruct (negb (n =? 0)); reflexivity.
Qed.

Lemma no_copy_RawMemory_dtor (r : RawMemory) : no_copy (T:=T) (RawMemory_dtor r).
Proof.
  intros w. unfold outcome, RawMemory_dtor, Deallocate, operator_delete.
  destruct (buffer_ r) as [|b o]; [reflexivity|].
  destruct (blocks w b); [|exact I].
  destruct (o =? 0); [reflexivity|exact I].
Qed.

End NoCopies.

Section NoCopiesInMethods.

Context {T : Type} `{ET : Elem T}.

Local Abbreviation W := (World T).

Lemma copies_nothing_ret {A} (a : A) :
  copies_nothing (T:=T) (ret a).
Proof. intros s. reflexivity. Qed.

Lemma copies_nothing_bind {A B} (m : M (Vector * W) A)
      (k : A -> M (Vector * W) B) :
  copies_nothing m -> (forall a, copies_nothing (k a)) ->
  copies_nothing (bind m k).
Proof.
  intros Hm Hk s. specialize (Hm s). unfold outcome, bind in *.
  destruct (m s) as [a s1| |]; auto.
  specialize (Hk a s1). unfold outcome in Hk.
  destruct (k a s1); congruence.
Qed.

Lemma copies_nothing_on_throw {A} (m : M (Vector * W) A)
      (h : M (Vector * W) unit) :
  copies_nothing m -> copies_nothing h -> copies_nothing (on_throw m h).
Proof.
  intros Hm Hh s. specialize (Hm s). unfold outcome, on_throw in *.
  destruct (m s) as [a s1|s1|]; auto.
  specialize (Hh s1). unfold outcome, bind, throw in *.
  destruct (h s1); congruence.
Qed.

Lemma copies_nothing_lift {A} (m : M W A) :
  no_copy m -> copies_nothing (lift m).
Proof.
  intros Hm [v w]. specialize (Hm w). unfold outcome, lift in *.
  cbn [fst snd]. destruct (m w); auto.
Qed.

Lemma copies_nothing_this : copies_nothing (T:=T) this.
Proof. intros s. reflexivity. Qed.

Lemma copies_nothing_set_this (v : Vector) :
  copies_nothing (T:=T) (set_this v).
Proof. intros s. reflexivity. Qed.

(** X19.  For an element type with a move constructor that is
    nothrow-move-constructible or not copyable, [Reserve] calls no
    copy constructor and no copy assignment of an element (the count
    of copies is unchanged), whether it returns or throws: the
    reallocation takes the branch of [if constexpr] that moves.  (For
    a type without a move constructor the same branch copies: there
    [T(T&&)] is the copy constructor.) *)
Theorem Reserve_by_move_copies_nothing (n : Z) :
  is_nothrow_move_constructible || negb is_copy_constructible = true ->
  has_move_constructor = true ->
  copies_nothing (T:=T) (Reserve n).
Proof.
  intros Hmove Hmc. unfold Reserve.
  apply copies_nothing_bind; [apply copies_nothing_this|]. intros v.
  destruct (n <=? Capacity v); [apply copies_nothing_ret|].
  apply copies_nothing_bind.
  { apply copies_nothing_lift, no_copy_RawMemory_new. }
  intros new_data. apply copies_nothing_bind.
  - apply copies_nothing_on_throw.
    + apply copies_nothing_bind; [|intros _].
      * apply copies_nothing_lift. unfold transfer. rewrite Hmove.
        apply no_copy_uninitialized_move_n, Hmc.
      * apply copies_nothing_lift, no_copy_destroy_n.
    + apply copies_nothing_lift, no_copy_RawMemory_dtor.
  - intros _. unfold RawMemory_Swap.
    apply copies_nothing_bind; [apply copies_nothing_set_this|].
    intros _. apply copies_nothing_lift, no_copy_RawMemory_dtor.
Qed.

End NoCopiesInMethods.

Lemma Reserve_by_move_copies_nothing_witness :
  copies_nothing (T:=Z) (Reserve 10).
Proof.
  apply Reserve_by_move_copies_nothing; reflexivity.
Defined.

(** ** Insertions and removals that copy nothing *)

Section NoCopiesMore.

Context {T : Type} `{ET : Elem T}.

Local Abbreviation W := (World T).

Hypothesis Hmc : has_move_constructor = true.
Hypothesis Hma : has_move_assignment = true.

Lemma no_copy_undef {A} : no_copy (T:=T) (undef : M W A).
Proof. intros w. exact I. Qed.

Lemma no_copy_assign_move (dst src : ptr) :
  no_copy (T:=T) (assign_move dst src).
Proof.
  unfold assign_move.
  repeat (apply no_copy_bind; [|intros ?]);
    auto using no_copy_load, no_copy_call, no_copy_store,
      no_copy_count_move_assign.
Qed.

Lemma no_copy_forward_loop (s d : ptr) (n : nat) :
  forall i, no_copy (T:=T) (forward_loop assign_move s d i n).
Proof.
  induction n as [|n IH]; intros i; simpl.
  - apply no_copy_ret.
  - apply no_copy_bind; [apply no_copy_assign_move|intros _; apply IH].
Qed.

Lemma no_copy_std_move (first last d_first : ptr) :
  no_copy (T:=T) (std_move first last d_first).
Proof.
  unfold std_move. destruct (ptr_diff last first); [|apply no_copy_undef].
  apply no_copy_bind; [apply no_copy_count|].
  intros k. apply no_copy_forward_loop.
Qed.

Lemma no_copy_backward_loop (last d_last : ptr) (n : nat) :
  forall j, no_copy (T:=T) (backward_loop last d_last j n).
Proof.
  induction n as [|n IH]; intros j; simpl.
  - apply no_copy_ret.
  - apply no_copy_bind; [apply no_copy_assign_move|intros _; apply IH].
Qed.

Lemma no_copy_std_move_backward (first last d_last : ptr) :
  no_copy (T:=T) (std_move_backward first last d_last).
Proof.
  unfold std_move_backward.
  destruct (ptr_diff last first); [|apply no_copy_undef].
  apply no_copy_bind; [apply no_copy_count|].
  intros k. apply no_copy_backward_loop.
Qed.

Lemma no_copy_RawMemory_index (r : RawMemory) (i : Z) :
  no_copy (T:=T) (RawMemory_index r i).
Proof.
  unfold RawMemory_index.
  destruct (i <? capacity_ r); [apply no_copy_ret|apply no_copy_undef].
Qed.

Lemma no_copy_operator_delete (p : ptr) :
  no_copy (T:=T) (operator_delete p).
Proof. apply (no_copy_RawMemory_dtor {| buffer_ := p; capacity_ := 0 |}). Qed.

Lemma no_copy_construct_arg (a : Arg T) :
  not_a_copy a = true -> no_copy (T:=T) (construct_arg a).
Proof.
  destruct a as [x|x|p|r]; [discriminate| | |]; intros _; simpl.
  - repeat (apply no_copy_bind; [|intros ?]);
      auto using no_copy_call, no_copy_ret, no_copy_count_move_construct.
  - repeat (apply no_copy_bind; [|intros ?]);
      auto using no_copy_load, no_copy_call, no_copy_store, no_copy_ret,
        no_copy_count_move_construct.
  - apply no_copy_call.
Qed.

Lemma no_copy_construct_from (dst : ptr) (a : Arg T) :
  not_a_copy a = true -> no_copy (T:=T) (construct_from dst a).
Proof.
  intros Ha. unfold construct_from.
  apply no_copy_bind; [apply no_copy_storage|intros _].
  apply no_copy_bind; [apply no_copy_construct_arg, Ha|intros x].
  apply no_copy_store.
Qed.

Lemma no_copy_assign_move_local (dst : ptr) (x : T) :
  no_copy (T:=T) (assign_move_local dst x).
Proof.
  unfold assign_move_local.
  repeat (apply no_copy_bind; [|intros ?]);
    auto using no_copy_load, no_copy_call, no_copy_store,
      no_copy_count_move_assign.
Qed.

Lemma no_copy_transfer (src : ptr) (n : Z) (dst : ptr) :
  is_nothrow_move_constructible || negb is_copy_constructible = true ->
  no_copy (T:=T) (transfer src n dst).
Proof.
  intros Hmove. unfold transfer. rewrite Hmove.
  apply no_copy_uninitialized_move_n, Hmc.
Qed.

End NoCopiesMore.

Create HintDb no_copy.

Ltac copies_step :=
  first
    [ apply copies_nothing_this
    | apply copies_nothing_set_this
    | apply copies_nothing_ret
    | apply copies_nothing_lift
    | apply copies_nothing_on_throw
    | apply copies_nothing_bind; [|intros ?] ].

Section NoCopiesTheorems.

Context {T : Type} `{ET : Elem T}.

Local Abbreviation W := (World T).

Lemma copies_nothing_undef {A} :
  copies_nothing (T:=T) (undef : M (Vector * W) A).
Proof. intros s. exact I. Qed.

#[local] Hint Resolve no_copy_RawMemory_new no_copy_RawMemory_dtor
     no_copy_destroy_n no_copy_destroy_at no_copy_std_move
     no_copy_std_move_backward no_copy_RawMemory_index
     no_copy_operator_delete no_copy_assign_move_local
     no_copy_construct_move no_copy_transfer no_copy_construct_from
     no_copy_construct_arg : no_copy.

(** X20.  For an element type with a move constructor and a move
    assignment that is nothrow-move-constructible or not copyable,
    adding an element that is not constructed from a [const T&] calls
    no copy constructor and no copy assignment of an element (the
    count of copies is unchanged), whether the call returns or throws,
    with or without reallocation: this holds for [PushBack],
    [EmplaceBack] and [Emplace] at any position. *)
Theorem insertion_by_move_copies_nothing (a : Arg T) (pos : ptr) :
  is_nothrow_move_constructible || negb is_copy_constructible = true ->
  has_move_constructor = true -> has_move_assignment = true ->
  not_a_copy a = true ->
  copies_nothing (PushBack a) /\
  copies_nothing (EmplaceBack a) /\
  copies_nothing (Emplace pos a).
Proof.
  intros Hmove Hmc Hma Ha. split; [|split].
  - unfold PushBack. copies_step; [copies_step|].
    copies_step; [|repeat copies_step].
    destruct (Capacity a0 <=? size_ a0); [|copies_step; auto with no_copy].
    unfold RawMemory_Swap. repeat copies_step; auto with no_copy.
  - unfold EmplaceBack. copies_step; [copies_step|].
    copies_step; [|repeat copies_step; auto with no_copy].
    destruct (Capacity a0 <=? size_ a0); [|copies_step; auto with no_copy].
    unfold RawMemory_Swap. repeat copies_step; auto with no_copy.
  - unfold Emplace. copies_step; [copies_step|].
    destruct (ptr_diff pos (begin a0)); [|apply copies_nothing_undef].
    copies_step; [|repeat copies_step].
    destruct (Capacity a0 <=? size_ a0).
    + unfold RawMemory_Swap. repeat copies_step; auto with no_copy.
    + copies_step; [|copies_step; auto with no_copy].
      destruct (negb (ptr_eqb pos (end_ a0)));
        repeat copies_step; auto with no_copy.
Qed.

(** X21.  From any state, [PopBack] calls no copy constructor and no
    copy assignment of an element, for any element type; so does
    [Erase] for an element type with a move assignment: the elements
    after the erased one are shifted by move assignment.  (For a type
    without a move assignment that shift copy-assigns them.) *)
Theorem removal_copies_nothing (pos : ptr) :
  copies_nothing (T:=T) PopBack /\
  (has_move_assignment = true -> copies_nothing (T:=T) (Erase pos)).
Proof.
  split; [|intros Hma].
  - unfold PopBack. repeat copies_step; auto with no_copy.
  - unfold Erase. copies_step; [copies_step|].
    destruct (ptr_diff pos (begin a)); [|apply copies_nothing_undef].
    repeat copies_step; auto with no_copy.
Qed.

End NoCopiesTheorems.

Lemma insertion_by_move_copies_nothing_witness :
  copies_nothing (PushBack (MoveOf 5)) /\
  copies_nothing (EmplaceBack (MoveOf 5)) /\
  copies_nothing (Emplace Null (MoveOf 5)).
Proof.
  apply (insertion_by_move_copies_nothing (T:=Z)); reflexivity.
Defined.

Lemma removal_copies_nothing_witness :
  copies_nothing (T:=Z) PopBack /\ copies_nothing (T:=Z) (Erase Null).
Proof.
  split.
  - exact (proj1 (removal_copies_nothing (T:=Z) Null)).
  - exact (proj2 (removal_copies_nothing (T:=Z) Null) eq_refl).
Defined.

(** ** Reallocation by copies copies every element once *)

Section CountCopies.

Context {T : Type} `{ET : Elem T}.

Local Abbreviation W := (World T).

Lemma no_copy_copies {A} (m : M W A) : no_copy m -> copies m 0.
Proof.
  intros H w. specialize (H w). unfold outcome in *.
  destruct (m w); auto. lia.
Qed.

Lemma copies_bind {A B} (m : M W A) (k : A -> M W B) (c1 c2 : Z) :
  copies m c1 -> (forall a, copies (k a) c2) ->
  copies (bind m k) (c1 + c2).
Proof.
  intros Hm Hk w. specialize (Hm w). unfold outcome, bind in *.
  destruct (m w) as [a w1| |]; auto.
  specialize (Hk a w1). unfold outcome in Hk.
  destruct (k a w1); auto. lia.
Qed.

Lemma copies_on_throw {A} (m : M W A) (h : M W unit) (c : Z) :
  copies m c -> copies (on_throw m h) c.
Proof.
  intros Hm w. specialize (Hm w). unfold outcome, on_throw, bind, throw in *.
  destruct (m w) as [a w1|w1|]; auto. destruct (h w1); auto.
Qed.

Lemma copies_count_copy : copies (T:=T) count_copy 1.
Proof. intros w. reflexivity. Qed.

Lemma copies_construct_copy (dst src : ptr) :
  copies (T:=T) (construct_copy dst src) 1.
Proof.
  unfold construct_copy.
  change 1 with (0 + (0 + (0 + (1 + 0)))).
  apply copies_bind; [apply no_copy_copies, no_copy_storage|intros _].
  apply copies_bind; [apply no_copy_copies, no_copy_load|intros x].
  apply copies_bind; [apply no_copy_copies, no_copy_call|intros y].
  apply copies_bind; [apply copies_count_copy|intros _].
  apply no_copy_copies, no_copy_store.
Qed.

Lemma copies_uninit_loop (step : Z -> M W unit) (dst : ptr) (n : nat) :
  (forall i, copies (step i) 1) ->
  forall i, copies (uninit_loop step dst i n) (Z.of_nat n).
Proof.
  intros Hstep. induction n as [|n IH]; intros i.
  - apply no_copy_copies, no_copy_ret.
  - simpl uninit_loop. replace (Z.of_nat (S n)) with (1 + Z.of_nat n) by lia.
    apply copies_bind; [|intros _; apply IH].
    apply copies_on_throw, Hstep.
Qed.

Lemma copies_uninitialized_copy_n (src : ptr) (n : Z) (dst : ptr) :
  copies (T:=T) (uninitialized_copy_n src n dst) n.
Proof.
  intros w. unfold uninitialized_copy_n, outcome, bind, count.
  destruct (n <? 0) eqn:En; [exact I|]. apply Z.ltb_ge in En.
  unfold ret.
  pose proof (copies_uninit_loop
                (fun i => construct_copy (ptr_add dst i) (ptr_add src i))
                dst (Z.to_nat n)
                (fun i => copies_construct_copy _ _) 0 w) as H.
  unfold outcome in H. rewrite Z2Nat.id in H by lia. exact H.
Qed.

Lemma copies_in_method_bind {A B} (m : M (Vector * W) A)
      (k : A -> M (Vector * W) B) (c1 c2 : Z) :
  copies_in_method m c1 -> (forall a, copies_in_method (k a) c2) ->
  copies_in_method (bind m k) (c1 + c2).
Proof.
  intros Hm Hk s. specialize (Hm s). unfold outcome, bind in *.
  destruct (m s) as [a s1| |]; auto.
  specialize (Hk a s1). unfold outcome in Hk.
  destruct (k a s1); auto. lia.
Qed.

Lemma copies_in_method_on_throw {A} (m : M (Vector * W) A)
      (h : M (Vector * W) unit) (c : Z) :
  copies_in_method m c -> copies_in_method (on_throw m h) c.
Proof.
  intros Hm s. specialize (Hm s).
  unfold outcome, on_throw, bind, throw in *.
  destruct (m s) as [a s1|s1|]; auto. destruct (h s1); auto.
Qed.

Lemma copies_in_method_lift {A} (m : M W A) (c : Z) :
  copies m c -> copies_in_method (lift m) c.
Proof.
  intros Hm [v w]. specialize (Hm w). unfold outcome, lift in *.
  cbn [fst snd]. destruct (m w); auto.
Qed.

Lemma copies_nothing_in_method {A} (m : M (Vector * W) A) :
  copies_nothing m -> copies_in_method m 0.
Proof.
  intros H s. specialize (H s). unfold outcome in *.
  destruct (m s); auto. lia.
Qed.

End CountCopies.

#[export] Instance legacy_value_semantics : ValueSemantics Legacy.
Proof.
  constructor; simpl; eauto.
Qed.

Section ReserveCopies.

Context {T : Type} `{ET : Elem T} `{VS : !ValueSemantics T}.

Local Abbreviation W := (World T).

Lemma Reserve_copy_count (n : Z) (v : Vector) (w : W) :
  transferred_by_copy ->
  outcome (Reserve n) (v, w)
          (fun _ s => n_copies (snd s)
                      = n_copies w
                        + (if n <=? Capacity v then 0 else size_ v))
          (fun _ => True).
Proof.
  intros Hcopy. unfold Reserve. apply outcome_bind.
  unfold outcome at 1, this. cbn [fst snd].
  destruct (n <=? Capacity v).
  - unfold outcome, ret. cbn [snd]. lia.
  - match goal with
    | |- outcome ?m _ _ _ =>
        assert (H : copies_in_method m (0 + ((size_ v + 0) + (0 + 0))))
    end.
    { apply copies_in_method_bind;
        [apply copies_in_method_lift, no_copy_copies, no_copy_RawMemory_new
        |intros nd].
      apply copies_in_method_bind.
      - apply copies_in_method_on_throw, copies_in_method_bind.
        + apply copies_in_method_lift. unfold transfer.
          unfold transferred_by_copy in Hcopy. rewrite Hcopy.
          apply copies_uninitialized_copy_n.
        + intros _.
          apply copies_in_method_lift, no_copy_copies, no_copy_destroy_n.
      - intros _. unfold RawMemory_Swap. apply copies_in_method_bind.
        + apply copies_nothing_in_method, copies_nothing_set_this.
        + intros _.
          apply copies_in_method_lift, no_copy_copies,
            no_copy_RawMemory_dtor. }
    specialize (H (v, w)). eapply outcome_weaken; [exact H| |auto].
    intros [] s' Hs. cbn [snd] in Hs. lia.
Qed.

(** X22.  For a copyable element type with value semantics whose move
    constructor is not [noexcept], a [Reserve(n)] beyond the capacity
    of a well-formed vector, with [n * sizeof(T)] within [size_t],
    returns with the requested capacity, having copy-constructed every
    element exactly once: the count of copies grows by the length of
    the vector. *)
Theorem Reserve_by_copy_copies_each_element (n : Z) (v : Vector) (w : W) :
  transferred_by_copy ->
  valid v w -> wf_world w -> Capacity v < n -> fits_size_t n ->
  returns (Reserve n) (v, w)
          (fun _ s => Capacity (fst s) = n /\
                      n_copies (snd s) = n_copies w + Size v).
Proof.
  intros Hcopy Hv Hwf Hn _. eapply returns_weaken.
  - eapply returns_outcome;
      [apply (Reserve_grows n v w Hv Hwf Hn)
      |apply (Reserve_copy_count n v w Hcopy)].
  - intros [] s [(_ & _ & _ & Hc & _) Hk]. split; [exact Hc|].
    rewrite Hk. replace (n <=? Capacity v) with false
      by (symmetry; apply Z.leb_gt; exact Hn).
    reflexivity.
Qed.

End ReserveCopies.

Lemma Reserve_by_copy_copies_each_element_witness :
  returns (Reserve 5) (fst legacy_12, snd legacy_12)
          (fun _ s => n_copies (snd s) = n_copies (snd legacy_12) + 2).
Proof.
  eapply returns_weaken.
  - apply (Reserve_by_copy_copies_each_element
             5 (fst legacy_12) (snd legacy_12)).
    + reflexivity.
    + apply validb_valid. vm_compute. reflexivity.
    + wf_concrete.
    + vm_compute. reflexivity.
    + split; vm_compute; discriminate.
  - intros [] s [_ Hk]. rewrite Hk. f_equal.
Defined.

(** ** Insertion with room to spare *)

Ltac no_alloc_prim :=
  intros w; unfold outcome; cbv beta;
  repeat match goal with
         | |- context [match ?x with _ => _ end] => is_var x; destruct x
         | |- context [in_bounds ?w ?b ?i] => destruct (in_bounds w b i)
         | |- context [cells ?w ?b ?i] => destruct (cells w b i)
         | |- context [?n <? 0] => destruct (n <? 0)
         end;
  try exact I; split; reflexivity.

Section NoAllocation.

Context {T : Type} `{ET : Elem T}.

Local Abbreviation W := (World T).

Lemma no_alloc_ret {A} (a : A) : no_alloc (T:=T) (ret a : M W A).
Proof. intros w. split; reflexivity. Qed.

Lemma no_alloc_bind {A B} (m : M W A) (k : A -> M W B) :
  no_alloc m -> (forall a, no_alloc (k a)) -> no_alloc (bind m k).
Proof.
  intros Hm Hk w. specialize (Hm w). unfold outcome, bind in *.
  destruct (m w) as [a w1| |]; auto.
  specialize (Hk a w1). unfold outcome in Hk.
  destruct Hm as [B1 N1].
  destruct (k a w1); auto; destruct Hk as [B2 N2]; split; congruence.
Qed.

Lemma no_alloc_storage (p : ptr) : no_alloc (T:=T) (storage p).
Proof. unfold storage. no_alloc_prim. Qed.

Lemma no_alloc_load (p : ptr) : no_alloc (T:=T) (load p).
Proof. unfold load. no_alloc_prim. Qed.

Lemma no_alloc_store (p : ptr) (x : T) : no_alloc (T:=T) (store p x).
Proof. unfold store. no_alloc_prim. Qed.

Lemma no_alloc_call {A} (r : option A) : no_alloc (T:=T) (call r).
Proof. intros w. destruct r; split; reflexivity. Qed.

Lemma no_alloc_count_copy : no_alloc (T:=T) count_copy.
Proof. intros w. split; reflexivity. Qed.

Lemma no_alloc_count_move_construct :
  no_alloc (T:=T) count_move_construct.
Proof.
  intros w. unfold count_move_construct.
  destruct has_move_constructor; split; reflexivity.
Qed.

Lemma no_alloc_count_move_assign : no_alloc (T:=T) count_move_assign.
Proof.
  intros w. unfold count_move_assign.
  destruct has_move_assignment; split; reflexivity.
Qed.

Lemma no_alloc_count (n : Z) : no_alloc (T:=T) (count n).
Proof. unfold count. no_alloc_prim. Qed.

Lemma no_alloc_undef {A} : no_alloc (T:=T) (undef : M W A).
Proof. intros w. exact I. Qed.

Lemma no_alloc_RawMemory_index (r : RawMemory) (i : Z) :
  no_alloc (T:=T) (RawMemory_index r i).
Proof.
  unfold RawMemory_index.
  destruct (i <? capacity_ r); [apply no_alloc_ret|apply no_alloc_undef].
Qed.

Lemma no_alloc_construct_arg (a : Arg T) : no_alloc (construct_arg a).
Proof.
  destruct a as [x|x|p|r]; simpl;
    repeat (apply no_alloc_bind; [|intros ?]);
    auto using no_alloc_call, no_alloc_count_copy, no_alloc_ret,
      no_alloc_load, no_alloc_store, no_alloc_count_move_construct.
Qed.

Lemma no_alloc_construct_from (dst : ptr) (a : Arg T) :
  no_alloc (construct_from dst a).
Proof.
  unfold construct_from.
  repeat (apply no_alloc_bind; [|intros ?]);
    auto using no_alloc_storage, no_alloc_construct_arg, no_alloc_store.
Qed.

Lemma no_alloc_construct_move (dst src : ptr) :
  no_alloc (T:=T) (construct_move dst src).
Proof.
  unfold construct_move.
  repeat (apply no_alloc_bind; [|intros ?]);
    auto using no_alloc_storage, no_alloc_load, no_alloc_call,
      no_alloc_store, no_alloc_count_move_construct.
Qed.

Lemma no_alloc_assign_move (dst src : ptr) :
  no_alloc (T:=T) (assign_move dst src).
Proof.
  unfold assign_move.
  repeat (apply no_alloc_bind; [|intros ?]);
    auto using no_alloc_load, no_alloc_call, no_alloc_store,
      no_alloc_count_move_assign.
Qed.

Lemma no_alloc_assign_move_local (dst : ptr) (x : T) :
  no_alloc (T:=T) (assign_move_local dst x).
Proof.
  unfold assign_move_local.
  repeat (apply no_alloc_bind; [|intros ?]);
    auto using no_alloc_load, no_alloc_call, no_alloc_store,
      no_alloc_count_move_assign.
Qed.

Lemma no_alloc_backward_loop (last d_last : ptr) (n : nat) :
  forall j, no_alloc (T:=T) (backward_loop last d_last j n).
Proof.
  induction n as [|n IH]; intros j; simpl.
  - apply no_alloc_ret.
  - apply no_alloc_bind; [apply no_alloc_assign_move|intros _; apply IH].
Qed.

Lemma no_alloc_std_move_backward (first last d_last : ptr) :
  no_alloc (T:=T) (std_move_backward first last d_last).
Proof.
  unfold std_move_backward.
  destruct (ptr_diff last first); [|apply no_alloc_undef].
  apply no_alloc_bind; [apply no_alloc_count|].
  intros k. apply no_alloc_backward_loop.
Qed.

End NoAllocation.

Section RoomToSpare.

Context {T : Type} `{ET : Elem T}.

Local Abbreviation W := (World T).

Lemma in_place_lift {A} (m : M W A) : no_alloc m -> in_place (lift m).
Proof.
  intros Hm [v w]. specialize (Hm w). unfold outcome, lift in *.
  cbn [fst snd]. destruct (m w); auto.
Qed.

Lemma in_place_bind {A B} (m : M (Vector * W) A)
      (k : A -> M (Vector * W) B) :
  in_place m -> (forall a, in_place (k a)) -> in_place (bind m k).
Proof.
  intros Hm Hk s. specialize (Hm s). unfold outcome, bind in *.
  destruct (m s) as [a s1| |]; auto.
  specialize (Hk a s1). unfold outcome in Hk.
  destruct Hm as (F1 & B1 & N1).
  destruct (k a s1); auto; destruct Hk as (F2 & B2 & N2);
    (split; [|split]); congruence.
Qed.

Lemma outcome_on_throw_ok {S A} (m : M S A) (h : M S unit) (s : S)
      (Q : A -> S -> Prop) :
  outcome m s Q (fun _ => True) ->
  outcome (on_throw m h) s Q (fun _ => True).
Proof.
  unfold outcome, on_throw, bind, throw.
  destruct (m s) as [a s'|s'|]; auto. destruct (h s'); auto.
Qed.

(** The part of [Emplace] that runs when there is room. *)
Lemma Emplace_shift_in_place (pos : ptr) (position : Z) (a : Arg T)
      (v : Vector) :
  in_place
    (if negb (ptr_eqb pos (end_ v))
     then
       new_s <- lift (construct_arg a) ;;
       last <- lift (RawMemory_index (data_ v) (size_ v - 1)) ;;
       lift (construct_move (end_ v) last) ;;
       lift (std_move_backward (ptr_add (begin v) position)
                               (ptr_add (end_ v) (-1)) (end_ v)) ;;
       lift (assign_move_local (ptr_add (begin v) position) new_s)
     else
       lift (construct_from (end_ v) a)).
Proof.
  destruct (negb (ptr_eqb pos (end_ v))).
  - repeat (apply in_place_bind; [|intros ?]); apply in_place_lift;
      auto using no_alloc_construct_arg, no_alloc_RawMemory_index,
        no_alloc_construct_move, no_alloc_std_move_backward,
        no_alloc_assign_move_local.
  - apply in_place_lift, no_alloc_construct_from.
Qed.

(** X23.  When the length is below the capacity, an insertion does not
    reallocate: after [PushBack], [EmplaceBack] or [Emplace] the vector
    has the buffer and capacity it had and one element more, and the
    allocations are those of before; when the construction of the new
    element throws inside [PushBack] or [EmplaceBack], the vector's
    fields and the allocations are unchanged. *)
Theorem insertion_with_room_keeps_buffer
        (a : Arg T) (pos : ptr) (v : Vector) (w : W) :
  Size v < Capacity v ->
  outcome (PushBack a) (v, w)
          (fun _ s => data_ (fst s) = data_ v /\
                      Size (fst s) = Size v + 1 /\
                      same_allocations w (snd s))
          (fun s => fst s = v /\ same_allocations w (snd s)) /\
  outcome (EmplaceBack a) (v, w)
          (fun _ s => data_ (fst s) = data_ v /\
                      Size (fst s) = Size v + 1 /\
                      same_allocations w (snd s))
          (fun s => fst s = v /\ same_allocations w (snd s)) /\
  outcome (Emplace pos a) (v, w)
          (fun _ s => data_ (fst s) = data_ v /\
                      Size (fst s) = Size v + 1 /\
                      same_allocations w (snd s))
          (fun _ => True).
Proof.
  intros Hroom. unfold Size in *.
  assert (Hc : (Capacity v <=? size_ v) = false) by (apply Z.leb_gt; lia).
  split; [|split].
  - unfold PushBack. apply outcome_bind. unfold outcome at 1, this.
    cbn [fst snd]. rewrite Hc. apply outcome_bind.
    eapply outcome_weaken;
      [apply (in_place_lift _ (no_alloc_construct_from _ a) (v, w))| |].
    + intros [] [v1 w1] [Hf Hs]. cbn [fst snd] in *. subst v1.
      unfold outcome, bind, this, set_this. cbn. auto.
    + intros s' H. exact H.
  - unfold EmplaceBack. apply outcome_bind. unfold outcome at 1, this.
    cbn [fst snd]. rewrite Hc. apply outcome_bind.
    eapply outcome_weaken;
      [apply (in_place_lift _ (no_alloc_construct_from _ a) (v, w))| |].
    + intros [] [v1 w1] [Hf Hs]. cbn [fst snd] in *. subst v1.
      unfold outcome, bind, this, set_this, lift, RawMemory_index.
      cbn. destruct (size_ v <? capacity_ (data_ v)); cbn; auto.
    + intros s' H. exact H.
  - unfold Emplace. apply outcome_bind. unfold outcome at 1, this.
    cbn [fst snd]. destruct (ptr_diff pos (begin v)) as [d|]; [|exact I].
    cbv zeta. rewrite Hc. apply outcome_bind, outcome_on_throw_ok.
    eapply outcome_weaken;
      [apply (Emplace_shift_in_place pos (to_int d) a v (v, w))| |auto].
    intros x [v1 w1] [Hf Hs]. cbn [fst snd] in *. subst v1.
    unfold outcome, bind, this, set_this, ret. cbn. auto.
Qed.

End RoomToSpare.

Lemma insertion_with_room_keeps_buffer_witness :
  outcome (PushBack (CopyOf 4)) (fst int_123, snd int_123)
          (fun _ s => data_ (fst s) = data_ (fst int_123) /\
                      Size (fst s) = Size (fst int_123) + 1 /\
                      same_allocations (snd int_123) (snd s))
          (fun s => fst s = fst int_123 /\
                    same_allocations (snd int_123) (snd s)).
Proof.
  assert (Hroom : Size (fst int_123) < Capacity (fst int_123))
    by (vm_compute; reflexivity).
  exact (proj1 (insertion_with_room_keeps_buffer
                  (CopyOf 4) Null (fst int_123) (snd int_123) Hroom)).
Defined.

(** ** Arguments that refer to the vector, types without move members,
    counts beyond [size_t] *)

(** [v.PushBack(std::move(v[0]))] on the full [Vector<Legacy>] [1, 2]:
    the new element is built from the first element before the
    transfer, which then copies the moved-from first element. *)
Example PushBack_of_own_element_moves_it :
  match PushBack (MoveFrom (begin (fst legacy_12))) legacy_12 with
  | Ok _ s =>
      elements (fst s) (snd s)
      = [Some (legacy 0); Some (legacy 2); Some (legacy 1)]
  | _ => False
  end.
Proof.
  vm_compute. reflexivity.
Qed.

(** The same call on the full [Vector<Fragile>] [1, 13]: the first
    element is moved from, then the copy of 13 throws, and the vector
    is left with a moved-from first element.  This is why the strong
    guarantee is stated for arguments that do not refer to the free
    store. *)
Example PushBack_of_own_element_throw_changes_elements :
  match PushBack (MoveFrom (begin (fst fragile_1_13))) fragile_1_13 with
  | Throw s' =>
      elements (fst s') (snd s') = [Some (fragile 0); Some (fragile 13)]
  | _ => False
  end.
Proof.
  vm_compute. reflexivity.
Qed.

(** [CopyOnly] is nothrow-move-constructible, so [Reserve] takes the
    branch that calls [uninitialized_move_n]; without a move
    constructor each of those constructions is a copy.  [Reserve(5)]
    on the vector [1, 2] copies two elements. *)
Example Reserve_copy_only_copies_each_element :
  match Reserve 5 copy_only_12 with
  | Ok _ s => n_copies (snd s) = n_copies (snd copy_only_12) + 2
  | _ => False
  end.
Proof.
  vm_compute. reflexivity.
Qed.

Section AllocationBytes.

Context {T : Type} `{ET : Elem T}.

(** Within the bound the source asks operator new for exactly the bytes
    of [n] objects. *)
Lemma allocation_bytes_exact (n : Z) :
  0 <= n -> fits_size_t n ->
  allocation_bytes n = n * sizeof_T /\ allocation_bytes n / sizeof_T = n.
Proof.
  unfold allocation_bytes, fits_size_t, SIZE_MAX. intros Hn [Hs Hf].
  rewrite Z.mod_small by (split; [apply Z.mul_nonneg_nonneg; lia|lia]).
  split; [reflexivity|]. apply Z.div_mul. lia.
Qed.

End AllocationBytes.

(** Beyond it the product wraps around: [Vector<int>] asked for 2^62
    elements, as in [v.Resize(n)], [v.Reserve(n)] or [Vector<int> v(n)]
    with [n = 2^62], requests 0 bytes. *)
Lemma allocation_bytes_wrap_around :
  ~ fits_size_t (T:=Z) (2 ^ 62) /\ allocation_bytes (T:=Z) (2 ^ 62) = 0.
Proof.
  split; [|reflexivity].
  intros [_ H]. vm_compute in H. apply H. reflexivity.
Qed.
